(** * The SSH transport core of lib/ssh: negotiation, flow-control window,
      handshake transport and channel-open registry

    A shallow embedding of [lib/ssh/common.go] (which also carries the
    handshake transport) and [lib/ssh/client.go], followed by the theorems
    that relate the embedding to the prose specification.

    Conventions of the embedding:
    - Go's [nil] error is [None] of an [option error]; a Go function whose
      results are either [(v, nil)] or [(zero value, err)] is a Rocq function
      to the sum [V + error];
    - a slice whose nil-ness the code tests is an [option (list _)], any other
      slice is a [list];
    - fixed-width unsigned integers are [Z] with the wrap-around written out;
    - a call that may park its goroutine on a condition variable is split at
      the [Wait]: the function returns either the value the Go call returns or
      the fact that the caller is parked, and is re-entered at the loop head
      when the goroutine is woken. *)

From stdpp Require Import base strings list gmap pretty.
From Stdlib Require Import ZArith Lia Strings.Byte Strings.Ascii.

Local Open Scope string_scope.
Local Open Scope list_scope.
Local Open Scope Z_scope.

(** ** Part I: the program *)

(** *** Bytes and errors *)

Abbreviation bytes := (list byte).

#[global] Instance byte_eq_decision : EqDecision byte := byte_eq_dec.

(** [p[0]] on a byte slice; [None] is the index-out-of-range panic. *)
Definition first_byte (p : bytes) : option byte := head p.

(** The values of Go's [error] interface that the embedded code creates or
    passes on.  An error built with [fmt.Errorf] keeps its arguments, one
    built with [errors.New] its text, and [External] stands for the errors
    that the connection, the key-exchange algorithms and the callbacks
    report; [Error] renders the message text. *)
Inductive error : Type :=
| NoCommonAlgorithm (what : string) (client server : list string)
| UnexpectedMessage (expected got : byte)
| UnexpectedKexAlgorithm (name : string)
| errors_New (text : string)
| EOF
| External (code : nat).

#[global] Instance error_eq_decision : EqDecision error.
Proof. solve_decision. Defined.

(** [fmt]'s [%v] on a [[]string]. *)
Definition fmtStrings (l : list string) : string :=
  "[" +:+ String.concat " " l +:+ "]".

(** [fmt]'s [%d] on a [uint8]. *)
Definition fmtByte (b : byte) : string := pretty (Byte.to_N b).

Definition Error (e : error) : string :=
  match e with
  | NoCommonAlgorithm what client server =>
      "ssh: no common algorithm for " +:+ what +:+ "; client offered: "
        +:+ fmtStrings client +:+ ", server offered: " +:+ fmtStrings server
  | UnexpectedMessage expected got =>
      "ssh: unexpected message type " +:+ fmtByte got
        +:+ " (expected " +:+ fmtByte expected +:+ ")"
  | UnexpectedKexAlgorithm name =>
      "ssh: unexpected key exchange algorithm " +:+ name
  | errors_New text => text
  | EOF => "EOF"
  | External code => "external error " +:+ pretty code
  end.

(** [unexpectedMessageError], common.go:102. *)
Definition unexpectedMessageError (expected got : byte) : error :=
  UnexpectedMessage expected got.

(** *** Algorithm negotiation (common.go:111-195) *)

(** The inner loop of [findCommon]: scan the server's list for [c]. *)
Fixpoint findCommon_server (c : string) (server : list string) : option string :=
  match server with
  | [] => None
  | s :: server' =>
      if decide (c = s) then Some c else findCommon_server c server'
  end.

(** The outer loop of [findCommon]: the client's list in its own order. *)
Fixpoint findCommon_client (client server : list string) : option string :=
  match client with
  | [] => None
  | c :: client' =>
      match findCommon_server c server with
      | Some common => Some common
      | None => findCommon_client client' server
      end
  end.

(** [findCommon], common.go:111.  The Go results [(common, nil)] and
    [(empty string, err)] are the two sides of the sum. *)
Definition findCommon (what : string) (client server : list string)
  : string + error :=
  match findCommon_client client server with
  | Some common => inl common
  | None => inr (NoCommonAlgorithm what client server)
  end.

Record DirectionAlgorithms : Type := {
  Cipher : string;
  MAC : string;
  Compression : string
}.

Record Algorithms : Type := {
  Kex : string;
  HostKey : string;
  W : DirectionAlgorithms;
  R : DirectionAlgorithms
}.

#[global] Instance DirectionAlgorithms_eq_decision : EqDecision DirectionAlgorithms.
Proof. solve_decision. Defined.

#[global] Instance Algorithms_eq_decision : EqDecision Algorithms.
Proof. solve_decision. Defined.

(** Modelled from the spec: the declaration of [KexInitMsg] (messages.go) is
    not among the sources.  The fields are the ones common.go reads and
    writes, which are the ones section 6 of the specification lists: the
    cookie, the name lists, and the first-kex-packet-follows flag. *)
Record KexInitMsg : Type := {
  Cookie : bytes;
  KexAlgos : list string;
  ServerHostKeyAlgos : list string;
  CiphersClientServer : list string;
  CiphersServerClient : list string;
  MACsClientServer : list string;
  MACsServerClient : list string;
  CompressionClientServer : list string;
  CompressionServerClient : list string;
  LanguagesClientServer : list string;
  LanguagesServerClient : list string;
  FirstKexFollows : bool
}.

(** [v, err = f(...); if err != nil { return ..., err }]: the rest of the
    function runs on [v] only when [f] gave no error. *)
Notation "'try' x '←' e ';' k" :=
  (match e with inr err => inr err | inl x => k end)
  (at level 10, x pattern, e at level 9, k at level 200, only parsing).

(** [findAgreedAlgorithms], common.go:151.  On an error the named result
    [algs] is still nil, so the Go results are again a sum. *)
Definition findAgreedAlgorithms (clientKexInit serverKexInit : KexInitMsg)
  : Algorithms + error :=
  try kex ←
    (findCommon "key exchange" (KexAlgos clientKexInit) (KexAlgos serverKexInit));
  try hostKey ←
    (findCommon "host key" (ServerHostKeyAlgos clientKexInit)
       (ServerHostKeyAlgos serverKexInit));
  try wCipher ←
    (findCommon "client to server cipher" (CiphersClientServer clientKexInit)
       (CiphersClientServer serverKexInit));
  try rCipher ←
    (findCommon "server to client cipher" (CiphersServerClient clientKexInit)
       (CiphersServerClient serverKexInit));
  try wMAC ←
    (findCommon "client to server MAC" (MACsClientServer clientKexInit)
       (MACsClientServer serverKexInit));
  try rMAC ←
    (findCommon "server to client MAC" (MACsServerClient clientKexInit)
       (MACsServerClient serverKexInit));
  try wCompression ←
    (findCommon "client to server compression"
       (CompressionClientServer clientKexInit)
       (CompressionClientServer serverKexInit));
  try rCompression ←
    (findCommon "server to client compression"
       (CompressionServerClient clientKexInit)
       (CompressionServerClient serverKexInit));
  inl {| Kex := kex; HostKey := hostKey;
         W := {| Cipher := wCipher; MAC := wMAC; Compression := wCompression |};
         R := {| Cipher := rCipher; MAC := rMAC; Compression := rCompression |} |}.

(** *** Key-exchange results, the handshake log and the configuration *)

(** Modelled from the spec: the declaration of [kexResult] (kex.go) is not
    among the sources.  Section 3 of the specification gives its fields: the
    exchange hash [H], the shared secret, the raw host key, the host key
    signature and the session identifier.  [H] and [SessionID] are byte
    slices that common.go compares with nil. *)
Record kexResult : Type := {
  H : option bytes;
  K : bytes;
  HostKeyBlob : bytes;
  Signature : bytes;
  SessionID : option bytes
}.

Definition kexResult_set_SessionID (sid : option bytes) (r : kexResult) : kexResult :=
  {| H := H r; K := K r; HostKeyBlob := HostKeyBlob r;
     Signature := Signature r; SessionID := sid |}.

(** Modelled from the spec: the declaration of [HandshakeLog] (log.go) is not
    among the sources.  Only the fields that the handshake transport assigns
    are kept (section 6: negotiated algorithms, both KEXINIT payloads and the
    key-exchange values); the key-exchange object stored in [DHKeyExchange]
    is recorded by the name it was created for. *)
Record HandshakeLog : Type := {
  ClientKex : option KexInitMsg;
  ServerKex : option KexInitMsg;
  AlgorithmSelection : option Algorithms;
  DHKeyExchange : option string;
  Crypto : option kexResult
}.

Definition emptyHandshakeLog : HandshakeLog :=
  {| ClientKex := None; ServerKex := None; AlgorithmSelection := None;
     DHKeyExchange := None; Crypto := None |}.

(** An [io.Reader] used as the source of entropy. *)
Inductive Reader : Type :=
| rand_Reader
| custom_Reader (id : nat).

(** [Config], common.go:203.  The three preference lists are compared with
    nil by [SetDefaults]. *)
Record Config : Type := {
  Rand : option Reader;
  RekeyThreshold : Z;
  KeyExchanges : option (list string);
  Ciphers : option (list string);
  MACs : option (list string);
  ConnLog : option HandshakeLog;
  Verbose : bool;
  GexMinBits : Z;
  GexMaxBits : Z;
  GexPreferredBits : Z;
  HelloOnly : bool
}.

(** The elements a [range] loop visits: none for a nil slice. *)
Definition elems {A} (s : option (list A)) : list A := default [] s.

(** The slice a loop builds with [append], starting from [var s []T]: it is
    still nil when nothing was appended. *)
Definition appended {A} (l : list A) : option (list A) :=
  match l with [] => None | _ => Some l end.

Definition defaultCiphers : list string :=
  ["aes128-ctr"; "aes192-ctr"; "aes256-ctr";
   "aes128-gcm@openssh.com";
   "arcfour256"; "arcfour128"].

Definition compressionNone : string := "none".

Definition supportedMACs : list string :=
  ["hmac-sha2-256"; "hmac-sha1"; "hmac-sha1-96"].

Definition supportedCompressions : list string := [compressionNone].

Definition minRekeyThreshold : Z := 256.

Definition Config_set_ConnLog (log : option HandshakeLog) (c : Config) : Config :=
  {| Rand := Rand c; RekeyThreshold := RekeyThreshold c;
     KeyExchanges := KeyExchanges c; Ciphers := Ciphers c; MACs := MACs c;
     ConnLog := log; Verbose := Verbose c; GexMinBits := GexMinBits c;
     GexMaxBits := GexMaxBits c; GexPreferredBits := GexPreferredBits c;
     HelloOnly := HelloOnly c |}.

(** [if t.config.ConnLog != nil { t.config.ConnLog.f = v }] *)
Definition logTo (f : HandshakeLog → HandshakeLog) (c : Config) : Config :=
  match ConnLog c with
  | Some log => Config_set_ConnLog (Some (f log)) c
  | None => c
  end.

Definition log_ClientKex (m : KexInitMsg) (l : HandshakeLog) : HandshakeLog :=
  {| ClientKex := Some m; ServerKex := ServerKex l;
     AlgorithmSelection := AlgorithmSelection l;
     DHKeyExchange := DHKeyExchange l; Crypto := Crypto l |}.

Definition log_ServerKex (m : KexInitMsg) (l : HandshakeLog) : HandshakeLog :=
  {| ClientKex := ClientKex l; ServerKex := Some m;
     AlgorithmSelection := AlgorithmSelection l;
     DHKeyExchange := DHKeyExchange l; Crypto := Crypto l |}.

Definition log_AlgorithmSelection (a : Algorithms) (l : HandshakeLog) : HandshakeLog :=
  {| ClientKex := ClientKex l; ServerKex := ServerKex l;
     AlgorithmSelection := Some a;
     DHKeyExchange := DHKeyExchange l; Crypto := Crypto l |}.

Definition log_DHKeyExchange (name : string) (l : HandshakeLog) : HandshakeLog :=
  {| ClientKex := ClientKex l; ServerKex := ServerKex l;
     AlgorithmSelection := AlgorithmSelection l;
     DHKeyExchange := Some name; Crypto := Crypto l |}.

Definition log_Crypto (r : option kexResult) (l : HandshakeLog) : HandshakeLog :=
  {| ClientKex := ClientKex l; ServerKex := ServerKex l;
     AlgorithmSelection := AlgorithmSelection l;
     DHKeyExchange := DHKeyExchange l; Crypto := r |}.

(** *** The flow-control window (common.go:337-395) *)

Definition uint32_max : Z := 2 ^ 32 - 1.

(** Arithmetic on [uint32] wraps modulo 2^32. *)
Definition wrap32 (z : Z) : Z := z mod 2 ^ 32.

(** Arithmetic on [uint64] wraps modulo 2^64. *)
Definition wrap64 (z : Z) : Z := z mod 2 ^ 64.

(** [window]: the embedded [*sync.Cond] is the parking of callers, which
    the split of [reserve] below accounts for; [writeWaiters] is an [int]
    that counts goroutines inside [reserve]. *)
Record window : Type := {
  win : Z;
  writeWaiters : Z;
  closed : bool
}.

(** [add], common.go:346: the result is the new window and the returned
    bool.  [Broadcast] leaves the fields alone. *)
Definition window_add (w : window) (n : Z) : window * bool :=
  if decide (n = 0) then (w, true)
  else if decide (wrap32 (win w + n) < n) then (w, false)
  else ({| win := wrap32 (win w + n); writeWaiters := writeWaiters w;
           closed := closed w |}, true).

(** [close], common.go:367. *)
Definition window_close (w : window) : window :=
  {| win := win w; writeWaiters := writeWaiters w; closed := true |}.

(** What a call of [reserve] has come to: it returned [(granted, err)], or
    its goroutine is parked in [w.Wait()]. *)
Inductive reserved : Type :=
| Granted (granted : Z) (err : option error)
| Waiting.

(** [reserve] from the head of its [for] loop on: either park, or leave the
    loop and run to the [return]. *)
Definition window_reserve_loop (w : window) (want : Z) : window * reserved :=
  if bool_decide (win w = 0) && negb (closed w) then (w, Waiting)
  else
    let waiters := writeWaiters w - 1 in
    let want := if decide (win w < want) then win w else want in
    let err := if closed w then Some EOF else None in
    ({| win := wrap32 (win w - want); writeWaiters := waiters;
        closed := closed w |}, Granted want err).

(** [reserve], common.go:377, up to the first [Wait] or the [return]. *)
Definition window_reserve (w : window) (want : Z) : window * reserved :=
  window_reserve_loop
    {| win := win w; writeWaiters := writeWaiters w + 1; closed := closed w |}
    want.

(** [reserve] resumed after a [Broadcast] woke the parked goroutine. *)
Definition window_reserve_wake (w : window) (want : Z) : window * reserved :=
  window_reserve_loop w want.

(** *** The underlying connection *)

(** The packet connection below the handshake transport is an outside
    collaborator.  Its behaviour is given by what the peer and the network
    will do: the packets that will arrive, each with its message type first
    (the transport never delivers an empty packet), the error that reading
    reports once they are used up, and the outcome of each coming write.
    The record also keeps what the code did to the connection: how many
    times it read, every packet it handed to [writePacket], and whether it
    closed the connection. *)
Record packetConn : Type := {
  inbox : list (byte * bytes);
  inboxErr : error;
  nread : nat;
  written : list bytes;
  wscript : list (option error);
  connClosed : bool
}.

Definition packet_bytes (p : byte * bytes) : bytes := p.1 :: p.2.

(** [conn.readPacket()] *)
Definition conn_readPacket (c : packetConn) : packetConn * (byte * bytes + error) :=
  match inbox c with
  | p :: rest =>
      ({| inbox := rest; inboxErr := inboxErr c; nread := S (nread c);
          written := written c; wscript := wscript c;
          connClosed := connClosed c |}, inl p)
  | [] =>
      ({| inbox := []; inboxErr := inboxErr c; nread := S (nread c);
          written := written c; wscript := wscript c;
          connClosed := connClosed c |}, inr (inboxErr c))
  end.

(** [conn.writePacket(p)] *)
Definition conn_writePacket (c : packetConn) (p : bytes) : packetConn * option error :=
  ({| inbox := inbox c; inboxErr := inboxErr c; nread := nread c;
      written := written c ++ [p]; wscript := tail (wscript c);
      connClosed := connClosed c |}, default None (head (wscript c))).

(** [conn.Close()] *)
Definition conn_Close (c : packetConn) : packetConn :=
  {| inbox := inbox c; inboxErr := inboxErr c; nread := nread c;
     written := written c; wscript := wscript c; connClosed := true |}.

(** [keyingTransport], common.go:430: a packet connection that can also be
    told to change keys; the key changes it was told are kept in order. *)
Record keyingTransport : Type := {
  pconn : packetConn;
  keyChanges : list (Algorithms * kexResult)
}.

Definition on_pconn (f : packetConn → packetConn) (k : keyingTransport) : keyingTransport :=
  {| pconn := f (pconn k); keyChanges := keyChanges k |}.

Definition with_pconn (c : packetConn) (k : keyingTransport) : keyingTransport :=
  {| pconn := c; keyChanges := keyChanges k |}.

(** [conn.prepareKeyChange(algs, result)] *)
Definition conn_prepareKeyChange (k : keyingTransport) (algs : Algorithms)
    (result : kexResult) : keyingTransport :=
  {| pconn := pconn k; keyChanges := keyChanges k ++ [(algs, result)] |}.

(** A buffered Go channel held by value. *)
Record chan (A : Type) : Type := {
  chanBuf : list A;
  chanCap : nat;
  chanClosed : bool
}.
Arguments chanBuf {A} _.
Arguments chanCap {A} _.
Arguments chanClosed {A} _.

Definition make_chan {A} (cap : nat) : chan A :=
  {| chanBuf := []; chanCap := cap; chanClosed := false |}.

Definition close_chan {A} (c : chan A) : chan A :=
  {| chanBuf := chanBuf c; chanCap := chanCap c; chanClosed := true |}.

(** [c <- v]; [None] when the sender has to wait for room.  An unbuffered
    channel never has room in this embedding, where no receiver is
    waiting.  Go panics on a send to a closed channel; the embedded code
    closes a channel only after its last send to it. *)
Definition chan_send {A} (c : chan A) (v : A) : option (chan A) :=
  if decide (length (chanBuf c) < chanCap c)%nat
  then Some {| chanBuf := chanBuf c ++ [v]; chanCap := chanCap c;
               chanClosed := chanClosed c |}
  else None.

(** [v, ok := <-c]; [None] when the receiver has to wait: the channel is
    empty and still open. *)
Definition chan_recv {A} (c : chan A) : option (chan A * option A) :=
  match chanBuf c with
  | v :: rest =>
      Some ({| chanBuf := rest; chanCap := chanCap c;
               chanClosed := chanClosed c |}, Some v)
  | [] => if chanClosed c then Some (c, None) else None
  end.

(** *** Keys and key-exchange algorithms *)

(** Modelled from the spec: [PublicKey] and [Signer] (keys.go) are not among
    the sources; the specification treats keys as opaque capabilities.  The
    embedded code asks a public key for its algorithm name ([Type()]) and a
    signer for its public key. *)
Record PublicKey : Type := {
  keyType : string;
  keyBlob : bytes
}.

Record Signer : Type := {
  signerPublicKey : PublicKey
}.

Module handshakeMagics.
(** Modelled from the spec: [handshakeMagics] (kex.go) is not among the
    sources; section 3 of the specification names its four byte strings. *)
Record t : Type := {
  clientVersion : bytes;
  serverVersion : bytes;
  clientKexInit : bytes;
  serverKexInit : bytes
}.
End handshakeMagics.

(** Modelled from the spec: the [kexAlgorithm] interface (kex.go) is not
    among the sources.  Section 9 of the specification describes it as a
    capability with a client flow and a server flow, each run on the packet
    connection and giving a [KexResult] or an error. *)
Record kexAlgorithm : Type := {
  kex_Client : packetConn → option Reader → handshakeMagics.t → Config →
               packetConn * (kexResult + error);
  kex_Server : packetConn → option Reader → handshakeMagics.t →
               option Signer → Config → packetConn * (kexResult + error)
}.

(** What the embedded code takes from the rest of package [ssh]: the message
    type numbers (messages.go), the registry of cipher modes (cipher.go),
    the names of the key-exchange and host-key algorithms (kex.go, keys.go,
    certs.go), the wire format of KEXINIT (messages.go), the registry of
    key-exchange algorithms with [GetNew] applied (kex.go), and the parsing
    and checking of host keys and signatures (keys.go). *)
Class Externals : Type := {
  msgIgnore : byte;
  msgDebug : byte;
  msgKexInit : byte;
  msgNewKeys : byte;
  streamCipherMode : Type;
  cipherModes : gmap string streamCipherMode;
  kexAlgoCurve25519SHA256 : string;
  kexAlgoECDH256 : string;
  kexAlgoECDH384 : string;
  kexAlgoECDH521 : string;
  kexAlgoDH14SHA1 : string;
  kexAlgoDH1SHA1 : string;
  CertAlgoRSAv01 : string;
  CertAlgoDSAv01 : string;
  CertAlgoECDSA256v01 : string;
  CertAlgoECDSA384v01 : string;
  CertAlgoECDSA521v01 : string;
  CertAlgoED25519v01 : string;
  KeyAlgoECDSA256 : string;
  KeyAlgoECDSA384 : string;
  KeyAlgoECDSA521 : string;
  KeyAlgoRSA : string;
  KeyAlgoDSA : string;
  KeyAlgoED25519 : string;
  Marshal : KexInitMsg → bytes;
  Unmarshal : bytes → KexInitMsg + error;
  kexAlgoMap : gmap string (string → kexAlgorithm);
  ParsePublicKey : bytes → PublicKey + error;
  parseSignatureBody : bytes → bytes * bytes * bool;
  PublicKey_Verify : PublicKey → option bytes → bytes → option error
}.

(** *** The handshake transport (common.go:441-890) *)

(** [handshakeTransport], common.go:441.  [mu] and [cond] are the splitting
    of [writePacket] at its [Wait]; addresses are kept as text; [entropy] is
    what [crypto/rand] will deliver, sixteen bytes at a time, for the
    cookies of the KEXINIT messages this transport builds. *)
Record handshakeTransport : Type := {
  conn : keyingTransport;
  config : Config;
  serverVersion : bytes;
  clientVersion : bytes;
  hostKeys : list Signer;
  hostKeyAlgorithms : list string;
  incoming : chan (byte * bytes);
  readError : option error;
  hostKeyCallback : option (string → string → PublicKey → option error);
  dialAddress : string;
  remoteAddr : string;
  readSinceKex : Z;
  sentInitPacket : bytes;
  sentInitMsg : option KexInitMsg;
  writtenSinceKex : Z;
  writeError : option error;
  sessionID : option bytes;
  entropy : list bytes
}.

Definition set_conn (v : keyingTransport) (t : handshakeTransport) : handshakeTransport :=
  {| conn := v;
     config := config t;
     serverVersion := serverVersion t;
     clientVersion := clientVersion t;
     hostKeys := hostKeys t;
     hostKeyAlgorithms := hostKeyAlgorithms t;
     incoming := incoming t;
     readError := readError t;
     hostKeyCallback := hostKeyCallback t;
     dialAddress := dialAddress t;
     remoteAddr := remoteAddr t;
     readSinceKex := readSinceKex t;
     sentInitPacket := sentInitPacket t;
     sentInitMsg := sentInitMsg t;
     writtenSinceKex := writtenSinceKex t;
     writeError := writeError t;
     sessionID := sessionID t;
     entropy := entropy t |}.

Definition set_config (v : Config) (t : handshakeTransport) : handshakeTransport :=
  {| conn := conn t;
     config := v;
     serverVersion := serverVersion t;
     clientVersion := clientVersion t;
     hostKeys := hostKeys t;
     hostKeyAlgorithms := hostKeyAlgorithms t;
     incoming := incoming t;
     readError := readError t;
     hostKeyCallback := hostKeyCallback t;
     dialAddress := dialAddress t;
     remoteAddr := remoteAddr t;
     readSinceKex := readSinceKex t;
     sentInitPacket := sentInitPacket t;
     sentInitMsg := sentInitMsg t;
     writtenSinceKex := writtenSinceKex t;
     writeError := writeError t;
     sessionID := sessionID t;
     entropy := entropy t |}.

Definition set_incoming (v : chan (byte * bytes)) (t : handshakeTransport) : handshakeTransport :=
  {| conn := conn t;
     config := config t;
     serverVersion := serverVersion t;
     clientVersion := clientVersion t;
     hostKeys := hostKeys t;
     hostKeyAlgorithms := hostKeyAlgorithms t;
     incoming := v;
     readError := readError t;
     hostKeyCallback := hostKeyCallback t;
     dialAddress := dialAddress t;
     remoteAddr := remoteAddr t;
     readSinceKex := readSinceKex t;
     sentInitPacket := sentInitPacket t;
     sentInitMsg := sentInitMsg t;
     writtenSinceKex := writtenSinceKex t;
     writeError := writeError t;
     sessionID := sessionID t;
     entropy := entropy t |}.

Definition set_readError (v : option error) (t : handshakeTransport) : handshakeTransport :=
  {| conn := conn t;
     config := config t;
     serverVersion := serverVersion t;
     clientVersion := clientVersion t;
     hostKeys := hostKeys t;
     hostKeyAlgorithms := hostKeyAlgorithms t;
     incoming := incoming t;
     readError := v;
     hostKeyCallback := hostKeyCallback t;
     dialAddress := dialAddress t;
     remoteAddr := remoteAddr t;
     readSinceKex := readSinceKex t;
     sentInitPacket := sentInitPacket t;
     sentInitMsg := sentInitMsg t;
     writtenSinceKex := writtenSinceKex t;
     writeError := writeError t;
     sessionID := sessionID t;
     entropy := entropy t |}.

Definition set_readSinceKex (v : Z) (t : handshakeTransport) : handshakeTransport :=
  {| conn := conn t;
     config := config t;
     serverVersion := serverVersion t;
     clientVersion := clientVersion t;
     hostKeys := hostKeys t;
     hostKeyAlgorithms := hostKeyAlgorithms t;
     incoming := incoming t;
     readError := readError t;
     hostKeyCallback := hostKeyCallback t;
     dialAddress := dialAddress t;
     remoteAddr := remoteAddr t;
     readSinceKex := v;
     sentInitPacket := sentInitPacket t;
     sentInitMsg := sentInitMsg t;
     writtenSinceKex := writtenSinceKex t;
     writeError := writeError t;
     sessionID := sessionID t;
     entropy := entropy t |}.

Definition set_sentInitPacket (v : bytes) (t : handshakeTransport) : handshakeTransport :=
  {| conn := conn t;
     config := config t;
     serverVersion := serverVersion t;
     clientVersion := clientVersion t;
     hostKeys := hostKeys t;
     hostKeyAlgorithms := hostKeyAlgorithms t;
     incoming := incoming t;
     readError := readError t;
     hostKeyCallback := hostKeyCallback t;
     dialAddress := dialAddress t;
     remoteAddr := remoteAddr t;
     readSinceKex := readSinceKex t;
     sentInitPacket := v;
     sentInitMsg := sentInitMsg t;
     writtenSinceKex := writtenSinceKex t;
     writeError := writeError t;
     sessionID := sessionID t;
     entropy := entropy t |}.

Definition set_sentInitMsg (v : option KexInitMsg) (t : handshakeTransport) : handshakeTransport :=
  {| conn := conn t;
     config := config t;
     serverVersion := serverVersion t;
     clientVersion := clientVersion t;
     hostKeys := hostKeys t;
     hostKeyAlgorithms := hostKeyAlgorithms t;
     incoming := incoming t;
     readError := readError t;
     hostKeyCallback := hostKeyCallback t;
     dialAddress := dialAddress t;
     remoteAddr := remoteAddr t;
     readSinceKex := readSinceKex t;
     sentInitPacket := sentInitPacket t;
     sentInitMsg := v;
     writtenSinceKex := writtenSinceKex t;
     writeError := writeError t;
     sessionID := sessionID t;
     entropy := entropy t |}.

Definition set_writtenSinceKex (v : Z) (t : handshakeTransport) : handshakeTransport :=
  {| conn := conn t;
     config := config t;
     serverVersion := serverVersion t;
     clientVersion := clientVersion t;
     hostKeys := hostKeys t;
     hostKeyAlgorithms := hostKeyAlgorithms t;
     incoming := incoming t;
     readError := readError t;
     hostKeyCallback := hostKeyCallback t;
     dialAddress := dialAddress t;
     remoteAddr := remoteAddr t;
     readSinceKex := readSinceKex t;
     sentInitPacket := sentInitPacket t;
     sentInitMsg := sentInitMsg t;
     writtenSinceKex := v;
     writeError := writeError t;
     sessionID := sessionID t;
     entropy := entropy t |}.

Definition set_writeError (v : option error) (t : handshakeTransport) : handshakeTransport :=
  {| conn := conn t;
     config := config t;
     serverVersion := serverVersion t;
     clientVersion := clientVersion t;
     hostKeys := hostKeys t;
     hostKeyAlgorithms := hostKeyAlgorithms t;
     incoming := incoming t;
     readError := readError t;
     hostKeyCallback := hostKeyCallback t;
     dialAddress := dialAddress t;
     remoteAddr := remoteAddr t;
     readSinceKex := readSinceKex t;
     sentInitPacket := sentInitPacket t;
     sentInitMsg := sentInitMsg t;
     writtenSinceKex := writtenSinceKex t;
     writeError := v;
     sessionID := sessionID t;
     entropy := entropy t |}.

Definition set_sessionID (v : option bytes) (t : handshakeTransport) : handshakeTransport :=
  {| conn := conn t;
     config := config t;
     serverVersion := serverVersion t;
     clientVersion := clientVersion t;
     hostKeys := hostKeys t;
     hostKeyAlgorithms := hostKeyAlgorithms t;
     incoming := incoming t;
     readError := readError t;
     hostKeyCallback := hostKeyCallback t;
     dialAddress := dialAddress t;
     remoteAddr := remoteAddr t;
     readSinceKex := readSinceKex t;
     sentInitPacket := sentInitPacket t;
     sentInitMsg := sentInitMsg t;
     writtenSinceKex := writtenSinceKex t;
     writeError := writeError t;
     sessionID := v;
     entropy := entropy t |}.

Definition set_entropy (v : list bytes) (t : handshakeTransport) : handshakeTransport :=
  {| conn := conn t;
     config := config t;
     serverVersion := serverVersion t;
     clientVersion := clientVersion t;
     hostKeys := hostKeys t;
     hostKeyAlgorithms := hostKeyAlgorithms t;
     incoming := incoming t;
     readError := readError t;
     hostKeyCallback := hostKeyCallback t;
     dialAddress := dialAddress t;
     remoteAddr := remoteAddr t;
     readSinceKex := readSinceKex t;
     sentInitPacket := sentInitPacket t;
     sentInitMsg := sentInitMsg t;
     writtenSinceKex := writtenSinceKex t;
     writeError := writeError t;
     sessionID := sessionID t;
     entropy := v |}.

Section Transport.
Context `{Externals}.

(** [defaultKexAlgos], common.go:45. *)
Definition defaultKexAlgos : list string :=
  [kexAlgoCurve25519SHA256;
   kexAlgoECDH256; kexAlgoECDH384; kexAlgoECDH521;
   kexAlgoDH14SHA1; kexAlgoDH1SHA1].

(** [supportedHostKeyAlgos], common.go:66. *)
Definition supportedHostKeyAlgos : list string :=
  [CertAlgoRSAv01; CertAlgoDSAv01; CertAlgoECDSA256v01;
   CertAlgoECDSA384v01; CertAlgoECDSA521v01; CertAlgoED25519v01;
   KeyAlgoECDSA256; KeyAlgoECDSA384; KeyAlgoECDSA521;
   KeyAlgoRSA; KeyAlgoDSA;
   KeyAlgoED25519].

(** The loop of [SetDefaults] over [c.Ciphers], common.go:250: keep the
    names that have an entry in [cipherModes]. *)
Fixpoint SetDefaults_ciphers (cs : list string) : list string :=
  match cs with
  | [] => []
  | c :: cs' =>
      if decide (is_Some (cipherModes !! c))
      then c :: SetDefaults_ciphers cs'
      else SetDefaults_ciphers cs'
  end.

(** [SetDefaults], common.go:242. *)
Definition SetDefaults (c : Config) : Config :=
  let rand := match Rand c with None => Some rand_Reader | r => r end in
  let ciphers0 := match Ciphers c with None => Some defaultCiphers | cs => cs end in
  let ciphers := appended (SetDefaults_ciphers (elems ciphers0)) in
  let keyExchanges :=
    match KeyExchanges c with None => Some defaultKexAlgos | ks => ks end in
  let macs := match MACs c with None => Some supportedMACs | ms => ms end in
  let threshold :=
    if decide (RekeyThreshold c = 0) then 2 ^ 30 else RekeyThreshold c in
  let threshold :=
    if decide (threshold < minRekeyThreshold) then minRekeyThreshold else threshold in
  {| Rand := rand; RekeyThreshold := threshold; KeyExchanges := keyExchanges;
     Ciphers := ciphers; MACs := macs; ConnLog := ConnLog c;
     Verbose := Verbose c; GexMinBits := GexMinBits c;
     GexMaxBits := GexMaxBits c; GexPreferredBits := GexPreferredBits c;
     HelloOnly := HelloOnly c |}.

(** [newHandshakeTransport], common.go:484; starting the read loop is the
    part of its callers that belongs to the interleaving further down. *)
Definition newHandshakeTransport (c : keyingTransport) (cfg : Config)
    (clientVer serverVer : bytes) (rnd : list bytes) : handshakeTransport :=
  {| conn := c; config := cfg;
     serverVersion := serverVer; clientVersion := clientVer;
     hostKeys := []; hostKeyAlgorithms := [];
     incoming := make_chan 16; readError := None;
     hostKeyCallback := None; dialAddress := EmptyString;
     remoteAddr := EmptyString;
     readSinceKex := 0; sentInitPacket := []; sentInitMsg := None;
     writtenSinceKex := 0; writeError := None; sessionID := None;
     entropy := rnd |}.

(** [newClientTransport], common.go:496; [algos] is the client
    configuration's [HostKeyAlgorithms], nil when it was left out. *)
Definition newClientTransport (c : keyingTransport)
    (clientVer serverVer : bytes) (cfg : Config)
    (callback : option (string → string → PublicKey → option error))
    (algos : option (list string))
    (dialAddr addr : string) (rnd : list bytes) : handshakeTransport :=
  let t := newHandshakeTransport c cfg clientVer serverVer rnd in
  {| conn := conn t; config := config t;
     serverVersion := serverVersion t; clientVersion := clientVersion t;
     hostKeys := hostKeys t;
     hostKeyAlgorithms :=
       match algos with
       | Some l => l
       | None => supportedHostKeyAlgos
       end;
     incoming := incoming t; readError := readError t;
     hostKeyCallback := callback; dialAddress := dialAddr;
     remoteAddr := addr;
     readSinceKex := readSinceKex t; sentInitPacket := sentInitPacket t;
     sentInitMsg := sentInitMsg t; writtenSinceKex := writtenSinceKex t;
     writeError := writeError t; sessionID := sessionID t;
     entropy := entropy t |}.

(** [newServerTransport], common.go:511; [keys] is the server
    configuration's [hostKeys]. *)
Definition newServerTransport (c : keyingTransport)
    (clientVer serverVer : bytes) (cfg : Config) (keys : list Signer)
    (rnd : list bytes) : handshakeTransport :=
  let t := newHandshakeTransport c cfg clientVer serverVer rnd in
  {| conn := conn t; config := config t;
     serverVersion := serverVersion t; clientVersion := clientVersion t;
     hostKeys := keys;
     hostKeyAlgorithms := hostKeyAlgorithms t;
     incoming := incoming t; readError := readError t;
     hostKeyCallback := hostKeyCallback t; dialAddress := dialAddress t;
     remoteAddr := remoteAddr t;
     readSinceKex := readSinceKex t; sentInitPacket := sentInitPacket t;
     sentInitMsg := sentInitMsg t; writtenSinceKex := writtenSinceKex t;
     writeError := writeError t; sessionID := sessionID t;
     entropy := entropy t |}.

(** [keyChangeCategory], common.go:626. *)
Definition keyChangeCategory : Type := bool.
Definition firstKeyExchange : keyChangeCategory := true.
Definition subsequentKeyExchange : keyChangeCategory := false.

(** The cookie that [io.ReadFull(rand.Reader, msg.Cookie[:])] leaves in a
    fresh message: the next block of entropy, or the zero cookie the message
    was made with when the source fails (the error is dropped). *)
Definition zeroCookie : bytes := replicate 16%nat x00.

(** [sendKexInitLocked], common.go:672.  The results [(msg, packet, nil)]
    and [(nil, nil, err)] are the two sides of the sum. *)
Definition sendKexInitLocked (t : handshakeTransport) (isFirst : keyChangeCategory)
  : handshakeTransport * (KexInitMsg * bytes + error) :=
  match sentInitMsg t with
  | Some msg => (t, inl (msg, sentInitPacket t))
  | None =>
      let msg :=
        {| Cookie := default zeroCookie (head (entropy t));
           KexAlgos := elems (KeyExchanges (config t));
           ServerHostKeyAlgos :=
             if decide (0 < length (hostKeys t))%nat
             then map (λ k, keyType (signerPublicKey k)) (hostKeys t)
             else hostKeyAlgorithms t;
           CiphersClientServer := elems (Ciphers (config t));
           CiphersServerClient := elems (Ciphers (config t));
           MACsClientServer := elems (MACs (config t));
           MACsServerClient := elems (MACs (config t));
           CompressionClientServer := supportedCompressions;
           CompressionServerClient := supportedCompressions;
           LanguagesClientServer := [];
           LanguagesServerClient := [];
           FirstKexFollows := false |} in
      let t := set_entropy (tail (entropy t)) t in
      let packet := Marshal msg in
      let '(c, err) := conn_writePacket (pconn (conn t)) packet in
      let t := set_conn (with_pconn c (conn t)) t in
      match err with
      | Some e => (t, inr e)
      | None => (set_sentInitPacket packet (set_sentInitMsg (Some msg) t),
                 inl (msg, packet))
      end
  end.

(** What a call of [writePacket] has come to: it returned [err], its
    goroutine is parked in [t.cond.Wait()], or it panicked on [p[0]] of an
    empty packet (the deferred unlock releases the mutex). *)
Inductive wrote : Type :=
| Returned (err : option error)
| Parked
| Panicked.

(** [writePacket] from the head of its [for] loop on, common.go:722. *)
Definition writePacket_loop (t : handshakeTransport) (p : bytes)
  : handshakeTransport * wrote :=
  if bool_decide (is_Some (sentInitMsg t)) && bool_decide (writeError t = None)
  then (t, Parked)
  else
    match writeError t with
    | Some e => (t, Returned (Some e))
    | None =>
        let t :=
          set_writtenSinceKex (wrap64 (writtenSinceKex t + Z.of_nat (length p))) t in
        match first_byte p with
        | None => (t, Panicked)
        | Some b =>
            if decide (b = msgKexInit) then
              (t, Returned (Some (errors_New "ssh: only handshakeTransport can send kexInit")))
            else if decide (b = msgNewKeys) then
              (t, Returned (Some (errors_New "ssh: only handshakeTransport can send newKeys")))
            else
              let '(c, err) := conn_writePacket (pconn (conn t)) p in
              (set_conn (with_pconn c (conn t)) t, Returned err)
        end
    end.

(** [writePacket], common.go:715, up to the first [Wait] or the [return]. *)
Definition writePacket (t : handshakeTransport) (p : bytes)
  : handshakeTransport * wrote :=
  let t :=
    if decide (RekeyThreshold (config t) < writtenSinceKex t)
    then (sendKexInitLocked t subsequentKeyExchange).1
    else t in
  writePacket_loop t p.

(** [writePacket] resumed after a [Broadcast] woke the parked goroutine. *)
Definition writePacket_wake (t : handshakeTransport) (p : bytes)
  : handshakeTransport * wrote :=
  writePacket_loop t p.

(** [Close], common.go:740. *)
Definition Close (t : handshakeTransport) : handshakeTransport :=
  set_conn (on_pconn conn_Close (conn t)) t.

(** [verifyHostKeySignature], client.go:167. *)
Definition verifyHostKeySignature (hostKey : PublicKey) (result : kexResult)
  : option error :=
  let '(sig, rest, ok) := parseSignatureBody (Signature result) in
  if bool_decide (0 < length rest)%nat || negb ok
  then Some (errors_New "ssh: signature parse error")
  else PublicKey_Verify hostKey (H result) sig.

(** [server], common.go:855: the last host key of the agreed type signs. *)
Definition server (t : handshakeTransport) (kex : kexAlgorithm)
    (algs : Algorithms) (magics : handshakeMagics.t)
  : handshakeTransport * (kexResult + error) :=
  let hostKey :=
    fold_left
      (λ found k,
         if decide (HostKey algs = keyType (signerPublicKey k))
         then Some k else found)
      (hostKeys t) None in
  let '(c, r) :=
    kex_Server kex (pconn (conn t)) (Rand (config t)) magics hostKey (config t) in
  (set_conn (with_pconn c (conn t)) t, r).

(** [client], common.go:867. *)
Definition client (t : handshakeTransport) (kex : kexAlgorithm)
    (algs : Algorithms) (magics : handshakeMagics.t)
  : handshakeTransport * (kexResult + error) :=
  let '(c, r) :=
    kex_Client kex (pconn (conn t)) (Rand (config t)) magics (config t) in
  let t := set_conn (with_pconn c (conn t)) t in
  match r with
  | inr e => (t, inr e)
  | inl result =>
      match ParsePublicKey (HostKeyBlob result) with
      | inr e => (t, inr e)
      | inl hostKey =>
          match verifyHostKeySignature hostKey result with
          | Some e => (t, inr e)
          | None =>
              match hostKeyCallback t with
              | Some callback =>
                  match callback (dialAddress t) (remoteAddr t) hostKey with
                  | Some e => (t, inr e)
                  | None => (t, inl result)
                  end
              | None => (t, inl result)
              end
          end
      end
  end.

(** The condition of common.go:803.  [l[0]] is [head l]; the comparison of
    two heads is Go's comparison whenever both lists are non-empty, which
    they are after [findAgreedAlgorithms] succeeded. *)
Definition guessedWrong (otherInit clientInit serverInit : KexInitMsg) : bool :=
  FirstKexFollows otherInit
  && (bool_decide (head (KexAlgos clientInit) ≠ head (KexAlgos serverInit))
      || bool_decide (head (ServerHostKeyAlgos clientInit)
                      ≠ head (ServerHostKeyAlgos serverInit))).

(** common.go:803-809: read the packet of a wrong guess and drop it. *)
Definition skipGuessedPacket (t : handshakeTransport)
    (otherInit clientInit serverInit : KexInitMsg)
  : handshakeTransport * option error :=
  if guessedWrong otherInit clientInit serverInit then
    let '(c, r) := conn_readPacket (pconn (conn t)) in
    let t := set_conn (with_pconn c (conn t)) t in
    match r with
    | inr e => (t, Some e)
    | inl _ => (t, None)
    end
  else (t, None).

(** common.go:822-827: the key exchange in the role of this side. *)
Definition ranExchange (t : handshakeTransport) (kex : kexAlgorithm)
    (algs : Algorithms) (magics : handshakeMagics.t)
  : handshakeTransport * (kexResult + error) :=
  if decide (0 < length (hostKeys t))%nat
  then server t kex algs magics
  else client t kex algs magics.

(** common.go:837-842: fix the session identifier and hand the keys over. *)
Definition installKeys (t : handshakeTransport) (algs : Algorithms)
    (result : kexResult) : handshakeTransport :=
  let t :=
    match sessionID t with
    | None => set_sessionID (H result) t
    | Some _ => t
    end in
  set_conn
    (conn_prepareKeyChange (conn t) algs
       (kexResult_set_SessionID (sessionID t) result)) t.

(** common.go:843-852: exchange NEWKEYS. *)
Definition exchangeNewKeys (t : handshakeTransport)
  : handshakeTransport * option error :=
  let '(c, err) := conn_writePacket (pconn (conn t)) [msgNewKeys] in
  let t := set_conn (with_pconn c (conn t)) t in
  match err with
  | Some e => (t, Some e)
  | None =>
      let '(c, r) := conn_readPacket (pconn (conn t)) in
      let t := set_conn (with_pconn c (conn t)) t in
      match r with
      | inr e => (t, Some e)
      | inl packet =>
          if decide (packet.1 ≠ msgNewKeys)
          then (t, Some (unexpectedMessageError msgNewKeys packet.1))
          else (t, None)
      end
  end.

(** common.go:811-853: run the agreed key exchange, fix the session
    identifier, hand the keys over and exchange NEWKEYS. *)
Definition runKeyExchange (t : handshakeTransport) (algs : Algorithms)
    (magics : handshakeMagics.t) : handshakeTransport * option error :=
  match kexAlgoMap !! Kex algs with
  | None => (t, Some (UnexpectedKexAlgorithm (Kex algs)))
  | Some getNew =>
      let kex := getNew (Kex algs) in
      let t := set_config (logTo (log_DHKeyExchange (Kex algs)) (config t)) t in
      let '(t, r) := ranExchange t kex algs magics in
      let t :=
        if Verbose (config t)
        then set_config
               (logTo (log_Crypto (match r with inl res => Some res | inr _ => None end))
                  (config t)) t
        else t in
      match r with
      | inr e => (t, Some e)
      | inl result => exchangeNewKeys (installKeys t algs result)
      end
  end.

(** [enterKeyExchangeLocked], common.go:745. *)
Definition enterKeyExchangeLocked (t : handshakeTransport) (otherInitPacket : bytes)
  : handshakeTransport * option error :=
  let '(t, sent) := sendKexInitLocked t subsequentKeyExchange in
  match sent with
  | inr e => (t, Some e)
  | inl (myInit, myInitPacket) =>
      let t :=
        if Verbose (config t)
        then set_config (logTo (log_ClientKex myInit) (config t)) t
        else t in
      match Unmarshal otherInitPacket with
      | inr e => (t, Some e)
      | inl otherInit =>
          let t := set_config (logTo (log_ServerKex otherInit) (config t)) t in
          let isClient := bool_decide (length (hostKeys t) = 0%nat) in
          let magics :=
            {| handshakeMagics.clientVersion := clientVersion t;
               handshakeMagics.serverVersion := serverVersion t;
               handshakeMagics.clientKexInit :=
                 if isClient then myInitPacket else otherInitPacket;
               handshakeMagics.serverKexInit :=
                 if isClient then otherInitPacket else myInitPacket |} in
          let clientInit := if isClient then myInit else otherInit in
          let serverInit := if isClient then otherInit else myInit in
          match findAgreedAlgorithms clientInit serverInit with
          | inr e => (t, Some e)
          | inl algs =>
              let t :=
                set_config (logTo (log_AlgorithmSelection algs) (config t)) t in
              let '(t, err) := skipGuessedPacket t otherInit clientInit serverInit in
              match err with
              | Some e => (t, Some e)
              | None => runKeyExchange t algs magics
              end
          end
      end
  end.

(** [sendKexInit], common.go:638, from [t.mu.Lock()] to [t.mu.Unlock()]. *)
Definition sendKexInit (t : handshakeTransport) (isFirst : keyChangeCategory)
  : handshakeTransport * option error :=
  if negb isFirst || bool_decide (sessionID t = None) then
    let '(t, sent) := sendKexInitLocked t isFirst in
    (t, match sent with inr e => Some e | inl _ => None end)
  else (t, None).

(** [readPacket], common.go:529; [None] while the receive has to wait.  The
    read loop only ever queues packets that have a first byte. *)
Definition readPacket (t : handshakeTransport)
  : option (handshakeTransport * (byte * bytes + option error)) :=
  match chan_recv (incoming t) with
  | None => None
  | Some (ch, Some p) => Some (set_incoming ch t, inl p)
  | Some (ch, None) => Some (set_incoming ch t, inr (readError t))
  end.

(** The rest of [sendKexInit] for the first key exchange, common.go:652:
    wait for the packet that stands for the completed exchange. *)
Definition sendKexInit_await (t : handshakeTransport)
  : option (handshakeTransport * option error) :=
  match readPacket t with
  | None => None
  | Some (t, inr err) => Some (t, err)
  | Some (t, inl packet) =>
      if decide (packet.1 ≠ msgNewKeys)
      then Some (t, Some (unexpectedMessageError msgNewKeys packet.1))
      else Some (t, None)
  end.

(** [requestKeyChange], common.go:666. *)
Definition requestKeyChange (t : handshakeTransport)
  : handshakeTransport * option error :=
  sendKexInit t subsequentKeyExchange.

(** [readOnePacket], common.go:561-565: rekey when enough was read. *)
Definition readOnePacket_rekey (t : handshakeTransport)
  : handshakeTransport * option error :=
  if decide (RekeyThreshold (config t) < readSinceKex t)
  then requestKeyChange t
  else (t, None).

(** [readOnePacket], common.go:567-583: read a packet and count it. *)
Definition readOnePacket_read (t : handshakeTransport)
  : handshakeTransport * (byte * bytes + error) :=
  let '(c, r) := conn_readPacket (pconn (conn t)) in
  let t := set_conn (with_pconn c (conn t)) t in
  match r with
  | inr e => (t, inr e)
  | inl p =>
      (set_readSinceKex
         (wrap64 (readSinceKex t + Z.of_nat (length (packet_bytes p)))) t,
       inl p)
  end.

(** [readOnePacket], common.go:584-621, for a packet [p] that is a KEXINIT:
    the key exchange under the lock, the release of the writers, and the
    packet that stands for the exchange. *)
Definition readOnePacket_kex (t : handshakeTransport) (p : byte * bytes)
  : handshakeTransport * (byte * bytes + error) :=
  let firstKex := bool_decide (sessionID t = None) in
  let '(t, err) :=
    if negb (HelloOnly (config t)) then
      let '(t, err) := enterKeyExchangeLocked t (packet_bytes p) in
      match err with
      | Some e => (set_writeError (Some e) (Close t), Some e)
      | None => (t, None)
      end
    else (t, None) in
  let t := set_sentInitMsg None t in
  let t := set_sentInitPacket [] t in
  let t := set_writtenSinceKex 0 t in
  match err with
  | Some e => (t, inr e)
  | None =>
      let t := set_readSinceKex 0 t in
      (t, inl (if firstKex then (msgNewKeys, []) else (msgIgnore, [])))
  end.

(** [readOnePacket], common.go:560, run in one piece. *)
Definition readOnePacket (t : handshakeTransport)
  : handshakeTransport * (byte * bytes + error) :=
  let '(t, err) := readOnePacket_rekey t in
  match err with
  | Some e => (t, inr e)
  | None =>
      let '(t, r) := readOnePacket_read t in
      match r with
      | inr e => (t, inr e)
      | inl p =>
          if decide (p.1 ≠ msgKexInit) then (t, inl p)
          else readOnePacket_kex t p
      end
  end.

(** **** The goroutines around one transport *)

(** Where the goroutine of [readLoop] (common.go:537) stands between two
    of its steps.  A step is what the loop does without giving up the
    mutex or waiting: the rekey request at the top of [readOnePacket], the
    read from the connection, the key exchange with the release of the
    writers, the hand-over to [incoming], and the epilogue after the
    loop. *)
Inductive readerAt : Type :=
| AtLoop
| AtRead
| AtKex (p : byte * bytes)
| AtDeliver (p : byte * bytes)
| AtExit
| Exited.

(** A goroutine that called [writePacket p]: parked in [cond.Wait], woken
    by a [Broadcast] and waiting for the mutex, returned, or panicked. *)
Inductive writer : Type :=
| InWait (p : bytes)
| Woken (p : bytes)
| Done (err : option error)
| Crashed.

Definition writer_of (p : bytes) (w : wrote) : writer :=
  match w with
  | Returned err => Done err
  | Parked => InWait p
  | Panicked => Crashed
  end.

(** [t.cond.Broadcast()]: every parked writer is woken. *)
Definition Broadcast (ws : list writer) : list writer :=
  map (λ w, match w with InWait p => Woken p | _ => w end) ws.

Record system : Type := {
  transport : handshakeTransport;
  reader : readerAt;
  writers : list writer
}.

(** [readLoop], common.go:539-548: what the loop does with the result of
    [readOnePacket]. *)
Definition readLoop_next (t : handshakeTransport) (r : byte * bytes + error)
  : handshakeTransport * readerAt :=
  match r with
  | inr err =>
      (set_incoming (close_chan (incoming t)) (set_readError (Some err) t), AtExit)
  | inl p =>
      if bool_decide (p.1 = msgIgnore) || bool_decide (p.1 = msgDebug)
      then (t, AtLoop)
      else (t, AtDeliver p)
  end.

(** [readLoop], common.go:551-557: declare the writing side dead too. *)
Definition readLoop_exit (t : handshakeTransport) : handshakeTransport :=
  match writeError t with
  | None => set_writeError (readError t) t
  | Some _ => t
  end.

(** One step of the read loop; [None] when it cannot move: it has ended, or
    [incoming] is full. *)
Definition reader_step (s : system) : option system :=
  let t := transport s in
  match reader s with
  | AtLoop =>
      let '(t, err) := readOnePacket_rekey t in
      match err with
      | Some e =>
          let '(t, at_) := readLoop_next t (inr e) in
          Some {| transport := t; reader := at_; writers := writers s |}
      | None => Some {| transport := t; reader := AtRead; writers := writers s |}
      end
  | AtRead =>
      let '(t, r) := readOnePacket_read t in
      match r with
      | inr e =>
          let '(t, at_) := readLoop_next t (inr e) in
          Some {| transport := t; reader := at_; writers := writers s |}
      | inl p =>
          if decide (p.1 ≠ msgKexInit) then
            let '(t, at_) := readLoop_next t (inl p) in
            Some {| transport := t; reader := at_; writers := writers s |}
          else Some {| transport := t; reader := AtKex p; writers := writers s |}
      end
  | AtKex p =>
      let '(t, r) := readOnePacket_kex t p in
      let '(t, at_) := readLoop_next t r in
      Some {| transport := t; reader := at_; writers := Broadcast (writers s) |}
  | AtDeliver p =>
      match chan_send (incoming t) p with
      | Some ch =>
          Some {| transport := set_incoming ch t; reader := AtLoop;
                  writers := writers s |}
      | None => None
      end
  | AtExit =>
      Some {| transport := readLoop_exit t; reader := Exited;
              writers := Broadcast (writers s) |}
  | Exited => None
  end.

(** What the goroutines around a transport can do next. *)
Inductive action : Type :=
| ReaderStep
| CallWritePacket (p : bytes)
| ResumeWriter (i : nat)
| CallSendKexInit (isFirst : keyChangeCategory)
| CallReadPacket
| CallClose.

(** One step of the whole; [None] when the action cannot happen now. *)
Definition perform (a : action) (s : system) : option system :=
  match a with
  | ReaderStep => reader_step s
  | CallWritePacket p =>
      let '(t, w) := writePacket (transport s) p in
      Some {| transport := t; reader := reader s;
              writers := writers s ++ [writer_of p w] |}
  | ResumeWriter i =>
      match writers s !! i with
      | Some (Woken p) =>
          let '(t, w) := writePacket_wake (transport s) p in
          Some {| transport := t; reader := reader s;
                  writers := <[i := writer_of p w]> (writers s) |}
      | _ => None
      end
  | CallSendKexInit isFirst =>
      Some {| transport := (sendKexInit (transport s) isFirst).1;
              reader := reader s; writers := writers s |}
  | CallReadPacket =>
      match readPacket (transport s) with
      | Some (t, _) =>
          Some {| transport := t; reader := reader s; writers := writers s |}
      | None => None
      end
  | CallClose =>
      Some {| transport := Close (transport s); reader := reader s;
              writers := writers s |}
  end.

(** A run: the actions in order, each one possible when its turn comes. *)
Fixpoint run (actions : list action) (s : system) : option system :=
  match actions with
  | [] => Some s
  | a :: rest =>
      match perform a s with
      | Some s' => run rest s'
      | None => None
      end
  end.

(** A transport as its constructors leave it, with the read loop started
    and no writer yet. *)
Definition fresh (t : handshakeTransport) : Prop :=
  sentInitMsg t = None ∧ writeError t = None ∧ readError t = None
  ∧ sessionID t = None ∧ keyChanges (conn t) = [].

Definition start (t : handshakeTransport) : system :=
  {| transport := t; reader := AtLoop; writers := [] |}.

Definition reachable (s : system) : Prop :=
  ∃ t actions, fresh t ∧ run actions (start t) = Some s.

End Transport.

(** *** The channel-open registry of the client (client.go:18-47, 195-214) *)

(** Modelled from the spec: [NewChannel] (channel.go) is not among the
    sources; the specification treats it as an opaque handle that the core
    routes.  The registry asks it for its channel type and may reject it. *)
Record NewChannel : Type := {
  ChannelType : string;
  channelSerial : nat
}.

(** The one [RejectionReason] the registry uses. *)
Inductive RejectionReason : Type :=
| UnknownChannelType.

(** [Client], client.go:18, as far as the registry goes.  Go channels are
    references: [queues] holds every channel made so far, and a channel
    value is its position there.  [channelHandlers] is [None] for the nil
    map; a type missing from the map reads as the nil channel.  [rejected]
    keeps the calls of [Reject]. *)
Record Client : Type := {
  channelHandlers : option (gmap string nat);
  queues : list (chan NewChannel);
  rejected : list (NewChannel * RejectionReason * string)
}.

(** The part of [NewClient], client.go:50, that makes the registry. *)
Definition NewClient : Client :=
  {| channelHandlers := Some ∅; queues := []; rejected := [] |}.

(** [HandleChannelOpen], client.go:29; the result [None] is the nil
    channel. *)
Definition HandleChannelOpen (c : Client) (channelType : string)
  : Client * option nat :=
  match channelHandlers c with
  | None =>
      ({| channelHandlers := None;
          queues := queues c ++ [close_chan (make_chan 0)];
          rejected := rejected c |},
       Some (length (queues c)))
  | Some handlers =>
      match handlers !! channelType with
      | Some _ => (c, None)
      | None =>
          ({| channelHandlers := Some (<[channelType := length (queues c)]> handlers);
              queues := queues c ++ [make_chan 16];
              rejected := rejected c |},
           Some (length (queues c)))
      end
  end.

(** The body of the loop of [handleChannelOpens], client.go:197-205, for
    one channel-open [ch]; [None] while [handler <- ch] has to wait. *)
Definition handleChannelOpens_body (c : Client) (ch : NewChannel) : option Client :=
  match default ∅ (channelHandlers c) !! ChannelType ch with
  | Some handler =>
      match queues c !! handler with
      | Some q =>
          match chan_send q ch with
          | Some q' =>
              Some {| channelHandlers := channelHandlers c;
                      queues := <[handler := q']> (queues c);
                      rejected := rejected c |}
          | None => None
          end
      | None => None
      end
  | None =>
      Some {| channelHandlers := channelHandlers c; queues := queues c;
              rejected :=
                rejected c
                ++ [(ch, UnknownChannelType,
                     "unknown channel type: " +:+ ChannelType ch)] |}
  end.

(** The end of [handleChannelOpens], client.go:208-213: close every
    registered queue and clear the registry. *)
Definition handleChannelOpens_teardown (c : Client) : Client :=
  {| channelHandlers := None;
     queues :=
       foldr (λ entry qs, alter close_chan entry.2 qs) (queues c)
         (map_to_list (default ∅ (channelHandlers c)));
     rejected := rejected c |}.

(** [handleChannelOpens], client.go:195, on the channel-opens that arrive
    before [in] is closed; [None] when the goroutine is left waiting on a
    full queue. *)
Fixpoint handleChannelOpens (c : Client) (ins : list NewChannel) : option Client :=
  match ins with
  | [] => Some (handleChannelOpens_teardown c)
  | ch :: rest =>
      match handleChannelOpens_body c ch with
      | Some c' => handleChannelOpens c' rest
      | None => None
      end
  end.

(** *** Wire encoding helpers (common.go:300-329) *)

(** [byte(n)]: the low eight bits of an unsigned integer. *)
Definition to_byte (n : Z) : byte :=
  default x00 (Byte.of_N (Z.to_N (n mod 256))).

(** [appendU16], common.go:300. *)
Definition appendU16 (buf : bytes) (n : Z) : bytes :=
  buf ++ [to_byte (n ≫ 8); to_byte n].

(** [appendU32], common.go:304. *)
Definition appendU32 (buf : bytes) (n : Z) : bytes :=
  buf ++ [to_byte (n ≫ 24); to_byte (n ≫ 16); to_byte (n ≫ 8); to_byte n].

(** [appendU64], common.go:308. *)
Definition appendU64 (buf : bytes) (n : Z) : bytes :=
  buf ++ [to_byte (n ≫ 56); to_byte (n ≫ 48); to_byte (n ≫ 40); to_byte (n ≫ 32);
          to_byte (n ≫ 24); to_byte (n ≫ 16); to_byte (n ≫ 8); to_byte n].

(** [appendInt], common.go:314: [uint32(n)] keeps the low 32 bits of the
    [int]. *)
Definition appendInt (buf : bytes) (n : Z) : bytes :=
  appendU32 buf (wrap32 n).

(** [appendString], common.go:318; a Go string is its bytes. *)
Definition appendString (buf : bytes) (s : string) : bytes :=
  appendU32 buf (wrap32 (Z.of_nat (String.length s)))
    ++ String.list_byte_of_string s.

(** [appendBool], common.go:324. *)
Definition appendBool (buf : bytes) (b : bool) : bytes :=
  if b then buf ++ [x01] else buf ++ [x00].

(** *** The goroutines around one window (common.go:346-405) *)

(** [waitWriterBlocked], common.go:399, at the head of its loop: [true]
    when it returns, [false] when its goroutine parks in [w.Cond.Wait]. *)
Definition window_waitWriterBlocked (w : window) : bool :=
  negb (bool_decide (writeWaiters w = 0)).

(** Whether a call of [add] comes to its [w.Broadcast()], common.go:361:
    not for a zero adjustment, and not when the sum overflows. *)
Definition window_add_broadcasts (w : window) (n : Z) : bool :=
  negb (bool_decide (n = 0)) && negb (bool_decide (wrap32 (win w + n) < n)).

(** A goroutine that called [reserve want]: parked in [w.Wait], woken by a
    [Broadcast] and waiting for the lock, or returned. *)
Inductive reserver : Type :=
| Sleeping (want : Z)
| Awake (want : Z)
| Got (granted : Z) (err : option error).

Definition reserver_of (want : Z) (r : reserved) : reserver :=
  match r with
  | Granted granted err => Got granted err
  | Waiting => Sleeping want
  end.

(** [w.Broadcast()]: every parked goroutine is woken. *)
Definition wake (rs : list reserver) : list reserver :=
  map (λ r, match r with Sleeping want => Awake want | _ => r end) rs.

Record wsystem : Type := {
  wwindow : window;
  reservers : list reserver
}.

(** What the goroutines around a window can do next: call [add], [close]
    or [reserve], or go on in [reserve] after a wake-up. *)
Inductive waction : Type :=
| WAdd (n : Z)
| WClose
| WReserve (want : Z)
| WResume (i : nat).

(** One step of the whole; [None] when the action cannot happen now.
    [add] wakes the parked goroutines when it comes to its [Broadcast];
    [close] always does; [reserve] does on entry, common.go:381. *)
Definition wperform (a : waction) (s : wsystem) : option wsystem :=
  match a with
  | WAdd n =>
      Some {| wwindow := (window_add (wwindow s) n).1;
              reservers :=
                if window_add_broadcasts (wwindow s) n
                then wake (reservers s) else reservers s |}
  | WClose =>
      Some {| wwindow := window_close (wwindow s);
              reservers := wake (reservers s) |}
  | WReserve want =>
      let '(w, r) := window_reserve (wwindow s) want in
      Some {| wwindow := w;
              reservers := wake (reservers s) ++ [reserver_of want r] |}
  | WResume i =>
      match reservers s !! i with
      | Some (Awake want) =>
          let '(w, r) := window_reserve_wake (wwindow s) want in
          Some {| wwindow := w;
                  reservers := <[i := reserver_of want r]> (reservers s) |}
      | _ => None
      end
  end.

Fixpoint wrun (actions : list waction) (s : wsystem) : option wsystem :=
  match actions with
  | [] => Some s
  | a :: rest =>
      match wperform a s with
      | Some s' => wrun rest s'
      | None => None
      end
  end.

(** A window as its owner makes it, with [credit] to start with and nobody
    inside [reserve]. *)
Definition wstart (credit : Z) : wsystem :=
  {| wwindow := {| win := credit; writeWaiters := 0; closed := false |};
     reservers := [] |}.

(** *** The goroutines around the registry (client.go:29-47, 195-214) *)

(** What the goroutines of a client can do to the registry next: any of
    them may call [HandleChannelOpen]; the goroutine of
    [handleChannelOpens] takes the next channel-open from [in], or finds
    [in] closed and leaves its loop. *)
Inductive raction : Type :=
| CallHandleChannelOpen (channelType : string)
| Dispatch (ch : NewChannel)
| InClosed.

(** One step of the whole; [None] when the action cannot happen now: the
    dispatcher has to wait for room in a queue, or it has ended already,
    which is when the registry is cleared. *)
Definition rperform (a : raction) (c : Client) : option Client :=
  match a with
  | CallHandleChannelOpen channelType => Some (HandleChannelOpen c channelType).1
  | Dispatch ch =>
      match channelHandlers c with
      | Some _ => handleChannelOpens_body c ch
      | None => None
      end
  | InClosed =>
      match channelHandlers c with
      | Some _ => Some (handleChannelOpens_teardown c)
      | None => None
      end
  end.

Fixpoint rrun (actions : list raction) (c : Client) : option Client :=
  match actions with
  | [] => Some c
  | a :: rest =>
      match rperform a c with
      | Some c' => rrun rest c'
      | None => None
      end
  end.

(** *** The identification strings (client.go:98-143) *)

(** The first piece of [s] up to the separator, and what follows the
    separator when there is one. *)
Fixpoint cut (sep : ascii) (s : string) : string * option string :=
  match s with
  | EmptyString => (EmptyString, None)
  | String a rest =>
      if decide (a = sep) then (EmptyString, Some rest)
      else let '(piece, more) := cut sep rest in (String a piece, more)
  end.

(** [strings.SplitN(s, sep, n)] of Go's library, for a separator of one
    character and [n ≥ 0]: at most [n] pieces, the last one the unsplit
    rest; no piece at all for [n = 0]. *)
Fixpoint SplitN (s : string) (sep : ascii) (n : nat) : list string :=
  match n with
  | O => []
  | S n' =>
      match n' with
      | O => [s]
      | S _ =>
          match cut sep s with
          | (piece, Some rest) => piece :: SplitN rest sep n'
          | (piece, None) => [piece]
          end
      end
  end.

(** Modelled from the spec: the declaration of [EndpointId] (log.go) is not
    among the sources.  Section 3 of the specification gives the parts of
    an identification line, prefix, protocol version, software and
    comments; these are the four fields that [clientHandshake] assigns. *)
Record EndpointId : Type := {
  Raw : string;
  ProtoVersion : string;
  SoftwareVersion : string;
  Comment : string
}.

(** The block of [clientHandshake] that fills [ConnLog.ServerID] from the
    server's identification string, client.go:99-117, and [ConnLog.ClientID]
    from the client's, client.go:125-143.  [l !! i] is [l[i]]; [None] is the
    index-out-of-range panic. *)
Definition clientHandshake_EndpointId (version : string) : option EndpointId :=
  let splitId := SplitN version " "%char 2 in
  comment ←
    (if decide (length splitId = 2%nat) then splitId !! 1%nat
     else Some EmptyString);
  first ← splitId !! 0%nat;
  let splitGroup := SplitN first "-"%char 3 in
  prefix ← splitGroup !! 0%nat;
  if decide (prefix = "SSH") then
    proto ←
      (if decide (1 < length splitGroup)%nat then splitGroup !! 1%nat
       else Some EmptyString);
    software ←
      (if decide (length splitGroup = 3%nat) then splitGroup !! 2%nat
       else Some EmptyString);
    Some {| Raw := version; ProtoVersion := proto;
            SoftwareVersion := software; Comment := comment |}
  else
    Some {| Raw := version; ProtoVersion := EmptyString;
            SoftwareVersion := EmptyString; Comment := comment |}.

(** ** Part II: the notions of the specification *)

(** The lookups of one negotiation as the specification lists them: a
    category name and the list each side offers for it. *)
Definition category : Type := string * (KexInitMsg → list string).

(** The eight lookups of [findAgreedAlgorithms], in the order of the
    source. *)
Definition categories : list category :=
  [("key exchange", KexAlgos);
   ("host key", ServerHostKeyAlgos);
   ("client to server cipher", CiphersClientServer);
   ("server to client cipher", CiphersServerClient);
   ("client to server MAC", MACsClientServer);
   ("server to client MAC", MACsServerClient);
   ("client to server compression", CompressionClientServer);
   ("server to client compression", CompressionServerClient)].

(** A category fails when the two offers have no entry in common. *)
Definition disjointOffers (c s : KexInitMsg) (cat : category) : Prop :=
  ∀ x, x ∈ cat.2 c → x ∉ cat.2 s.

#[global] Instance disjointOffers_dec c s cat : Decision (disjointOffers c s cat).
Proof.
  unfold disjointOffers.
  refine (cast_if (decide (Forall (λ x, x ∉ cat.2 s) (cat.2 c))));
    rewrite Forall_forall in *; auto.
Defined.

(** The error of composing the lookups [cats] in order: the failure of the
    first category without a common entry, naming it and both offers. *)
Definition firstFailure (cats : list category) (c s : KexInitMsg) : option error :=
  (λ found : nat * category,
     NoCommonAlgorithm found.2.1 (found.2.2 c) (found.2.2 s))
    <$> list_find (disjointOffers c s) cats.

(** The entry of the client's list that comes first among those the server
    also offers. *)
Definition earliestCommon (client server : list string) (c : string) : Prop :=
  ∃ before after,
    client = before ++ c :: after ∧ c ∈ server ∧ ∀ x, x ∈ before → x ∉ server.

(** The error a negotiation ends with, if any. *)
Definition negotiationError (r : Algorithms + error) : option error :=
  match r with inr e => Some e | inl _ => None end.

(** A KEXINIT whose eight negotiated lists are [f 0] to [f 7], in the order
    of the message. *)
Definition offering (f : nat → list string) : KexInitMsg :=
  {| Cookie := [];
     KexAlgos := f 0%nat;
     ServerHostKeyAlgos := f 1%nat;
     CiphersClientServer := f 2%nat;
     CiphersServerClient := f 3%nat;
     MACsClientServer := f 4%nat;
     MACsServerClient := f 5%nat;
     CompressionClientServer := f 6%nat;
     CompressionServerClient := f 7%nat;
     LanguagesClientServer := [];
     LanguagesServerClient := [];
     FirstKexFollows := false |}.

(** A client that offers ["x"] everywhere, and a server that does too but
    for its [i]-th list, which is ["y"]. *)
Definition offersX : KexInitMsg := offering (λ _, ["x"]).

Definition offersXBut (i : nat) : KexInitMsg :=
  offering (λ j, if decide (j = i) then ["y"] else ["x"]).

(** The values of a [uint32]. *)
Definition is_uint32 (z : Z) : Prop := 0 ≤ z ≤ uint32_max.

(** The error [reserve] gives for a window in the state [w]. *)
Definition endOfStream (w : window) : option error :=
  if closed w then Some EOF else None.

Section TransportNotions.
Context `{Externals}.

(** The side whose KEXINIT counts as the client's: the transport is the
    client when it holds no host keys. *)
Definition clientInitOf (t : handshakeTransport) (myInit otherInit : KexInitMsg)
  : KexInitMsg :=
  if bool_decide (length (hostKeys t) = 0%nat) then myInit else otherInit.

Definition serverInitOf (t : handshakeTransport) (myInit otherInit : KexInitMsg)
  : KexInitMsg :=
  if bool_decide (length (hostKeys t) = 0%nat) then otherInit else myInit.

(** The magics of an exchange, by role. *)
Definition magicsOf (t : handshakeTransport) (myInitPacket otherInitPacket : bytes)
  : handshakeMagics.t :=
  {| handshakeMagics.clientVersion := clientVersion t;
     handshakeMagics.serverVersion := serverVersion t;
     handshakeMagics.clientKexInit :=
       if bool_decide (length (hostKeys t) = 0%nat)
       then myInitPacket else otherInitPacket;
     handshakeMagics.serverKexInit :=
       if bool_decide (length (hostKeys t) = 0%nat)
       then otherInitPacket else myInitPacket |}.

(** The specification's reading of a right guess: the peer's guess, which
    is the first name of its own lists, is the agreed key-exchange algorithm
    and the agreed host-key algorithm. *)
Definition guessMatchesAgreed (otherInit : KexInitMsg) (algs : Algorithms) : Prop :=
  head (KexAlgos otherInit) = Some (Kex algs)
  ∧ head (ServerHostKeyAlgos otherInit) = Some (HostKey algs).

(** The code's reading of a wrong guess: the two sides prefer different
    key-exchange algorithms or different host-key algorithms. *)
Definition preferencesDiffer (clientInit serverInit : KexInitMsg) : Prop :=
  head (KexAlgos clientInit) ≠ head (KexAlgos serverInit)
  ∨ head (ServerHostKeyAlgos clientInit) ≠ head (ServerHostKeyAlgos serverInit).

(** Every key-exchange algorithm of the registry gives an exchange hash
    with its result: [H] is not nil. *)
Definition hashesPresent : Prop :=
  ∀ name getNew name' c rnd magics cfg c' r,
    kexAlgoMap !! name = Some getNew →
    (kex_Client (getNew name') c rnd magics cfg = (c', inl r) → is_Some (H r))
    ∧ (∀ key, kex_Server (getNew name') c rnd magics key cfg = (c', inl r) →
              is_Some (H r)).

(** The session identifier and the key changes handed to the connection
    belong together: before the first exchange there is neither; after it
    the identifier is the exchange hash of the first key change, and every
    key change carries the identifier. *)
Definition sessionFixed (t : handshakeTransport) : Prop :=
  match sessionID t with
  | None => keyChanges (conn t) = []
  | Some sid =>
      (∃ first, head (keyChanges (conn t)) = Some first ∧ H first.2 = Some sid)
      ∧ ∀ change, change ∈ keyChanges (conn t) → SessionID change.2 = Some sid
  end.



(** A writer has to wait while a KEXINIT is outstanding and no write error
    is recorded. *)
Definition mustWait (t : handshakeTransport) : Prop :=
  is_Some (sentInitMsg t) ∧ writeError t = None.

(** What a step of the transport leaves alone. *)
Definition keepsErrors (t t' : handshakeTransport) : Prop :=
  writeError t' = writeError t ∧ readError t' = readError t.

Definition keepsSession (t t' : handshakeTransport) : Prop :=
  sessionID t' = sessionID t ∧ keyChanges (conn t') = keyChanges (conn t).

Definition keepsRole (t t' : handshakeTransport) : Prop :=
  hostKeys t' = hostKeys t ∧ clientVersion t' = clientVersion t
  ∧ serverVersion t' = serverVersion t.


End TransportNotions.

(** *** Notions for the wire encoding *)

(** The unsigned integer that a byte sequence spells, most significant byte
    first. *)
Definition bigEndian (bs : bytes) : Z :=
  fold_left (λ acc b, acc * 256 + Z.of_N (Byte.to_N b)) bs 0.

(** *** Further notions for the handshake transport *)

Section MoreTransportNotions.
Context `{Externals}.

(** What a step of the transport leaves alone of the reading side and of
    the host-key checking. *)
Definition keepsWiring (t t' : handshakeTransport) : Prop :=
  incoming t' = incoming t ∧ hostKeyCallback t' = hostKeyCallback t
  ∧ dialAddress t' = dialAddress t ∧ remoteAddr t' = remoteAddr t
  ∧ hostKeyAlgorithms t' = hostKeyAlgorithms t.

(** The message types the upper layers never get to see: KEXINIT is
    answered by the transport, IGNORE and DEBUG are dropped. *)
Definition hidden (b : byte) : Prop :=
  b = msgKexInit ∨ b = msgIgnore ∨ b = msgDebug.

(** Nothing hidden is queued for the upper layers or about to be. *)
Definition deliversOnlyVisible (s : system) : Prop :=
  (∀ p, p ∈ chanBuf (incoming (transport s)) → ¬ hidden p.1)
  ∧ (∀ p, reader s = AtDeliver p → ¬ hidden p.1).

(** [incoming] is closed exactly when the read loop has left its loop, and
    the read error is recorded exactly then. *)
Definition closedWhenEnded (s : system) : Prop :=
  match reader s with
  | AtExit | Exited =>
      chanClosed (incoming (transport s)) = true
      ∧ is_Some (readError (transport s))
  | _ =>
      chanClosed (incoming (transport s)) = false
      ∧ readError (transport s) = None
  end.

End MoreTransportNotions.

(** *** Notions for the goroutines around a window *)

(** The arguments of [add] and [reserve] are [uint32]. *)
Definition uint32Arguments (a : waction) : Prop :=
  match a with
  | WAdd n | WReserve n => is_uint32 n
  | _ => True
  end.

(** How many goroutines are inside [reserve]. *)
Definition inside (rs : list reserver) : Z :=
  foldr (λ r n, match r with Got _ _ => n | _ => 1 + n end) 0 rs.

(** What the calls of [reserve] that returned were granted in all. *)
Definition grantedTotal (rs : list reserver) : Z :=
  foldr (λ r n, match r with Got granted _ => granted + n | _ => n end) 0 rs.

Arguments inside : simpl never.
Arguments grantedTotal : simpl never.

(** What the calls of [add] along a run put into the window: the amounts
    of the calls that returned [true]. *)
Fixpoint addedTotal (actions : list waction) (s : wsystem) : Z :=
  match actions with
  | [] => 0
  | a :: rest =>
      match wperform a s with
      | Some s' =>
          match a with
          | WAdd n => if (window_add (wwindow s) n).2 then n else 0
          | _ => 0
          end + addedTotal rest s'
      | None => 0
      end
  end.

(** The state of the goroutines around a window fits the window: the
    credit is a [uint32], [writeWaiters] counts the goroutines inside
    [reserve], a goroutine sleeps only while the window is open and has no
    credit, a call that returned an error did so on a closed window, and
    the requests of the goroutines inside [reserve] are [uint32]s. *)
Definition windowInvariant (s : wsystem) : Prop :=
  is_uint32 (win (wwindow s))
  ∧ writeWaiters (wwindow s) = inside (reservers s)
  ∧ (∀ want, Sleeping want ∈ reservers s →
             win (wwindow s) = 0 ∧ closed (wwindow s) = false)
  ∧ (∀ granted err, Got granted err ∈ reservers s →
                    0 ≤ granted ∧ (err = None ∨ closed (wwindow s) = true))
  ∧ (∀ want, Sleeping want ∈ reservers s ∨ Awake want ∈ reservers s →
             is_uint32 want).

(** *** Notions for the registry *)

(** The registry and its queues fit together.  While the dispatcher runs,
    every queue made so far is open, has room for sixteen channel-opens,
    is registered for one channel type, and holds only channel-opens of
    that type; and no queue is registered for two types.  Once the
    dispatcher has ended, every queue is closed.  Every rejection names
    the channel type it rejected. *)
Definition registryOK (c : Client) : Prop :=
  match channelHandlers c with
  | Some handlers =>
      (∀ channelType i, handlers !! channelType = Some i →
                        is_Some (queues c !! i))
      ∧ (∀ i q, queues c !! i = Some q →
                chanClosed q = false ∧ chanCap q = 16%nat
                ∧ (length (chanBuf q) ≤ 16)%nat
                ∧ ∃ channelType,
                    handlers !! channelType = Some i
                    ∧ ∀ ch, ch ∈ chanBuf q → ChannelType ch = channelType)
      ∧ (∀ type1 type2 i, handlers !! type1 = Some i →
                          handlers !! type2 = Some i → type1 = type2)
  | None => ∀ q, q ∈ queues c → chanClosed q = true
  end
  ∧ ∀ ch reason message,
      (ch, reason, message) ∈ rejected c →
      message = "unknown channel type: " +:+ ChannelType ch.

(** *** Notions for the identification strings *)

(** The character [sep] does not occur in [s]. *)
Fixpoint lacks (sep : ascii) (s : string) : Prop :=
  match s with
  | EmptyString => True
  | String a rest => a ≠ sep ∧ lacks sep rest
  end.

(** *** Sample collaborators, for the examples *)

Module Sample.

(** A key exchange that sends and reads nothing; its exchange hash tells how
    many packets had been read when it ran. *)
Definition kex : kexAlgorithm :=
  let result (c : packetConn) :=
    {| H := Some [default x00 (Byte.of_N (N.of_nat (nread c)))];
       K := []; HostKeyBlob := []; Signature := []; SessionID := None |} in
  {| kex_Client := λ c _ _ _, (c, inl (result c));
     kex_Server := λ c _ _ _ _, (c, inl (result c)) |}.

(** The peer's KEXINIT of a plain exchange. *)
Definition peerInit : KexInitMsg :=
  {| Cookie := [];
     KexAlgos := ["curve25519-sha256@libssh.org"];
     ServerHostKeyAlgos := ["ssh-rsa"];
     CiphersClientServer := ["aes128-ctr"];
     CiphersServerClient := ["aes128-ctr"];
     MACsClientServer := ["hmac-sha1"];
     MACsServerClient := ["hmac-sha1"];
     CompressionClientServer := ["none"];
     CompressionServerClient := ["none"];
     LanguagesClientServer := [];
     LanguagesServerClient := [];
     FirstKexFollows := false |}.

(** The KEXINIT of a peer that guesses: it offers one key-exchange
    algorithm, which is not the first choice of the client below, and has
    sent the first packet of that exchange already. *)
Definition peerGuessing : KexInitMsg :=
  {| Cookie := [];
     KexAlgos := ["ecdh-sha2-nistp256"];
     ServerHostKeyAlgos := ["ssh-rsa"];
     CiphersClientServer := ["aes128-ctr"];
     CiphersServerClient := ["aes128-ctr"];
     MACsClientServer := ["hmac-sha1"];
     MACsServerClient := ["hmac-sha1"];
     CompressionClientServer := ["none"];
     CompressionServerClient := ["none"];
     LanguagesClientServer := [];
     LanguagesServerClient := [];
     FirstKexFollows := true |}.

(** Message numbers of RFC 4253, the cipher names of the package, a wire
    format that keeps only the cookie on the way out and tells the two peer
    messages apart by the second byte on the way in, and keys and signatures
    that always check. *)
Definition ext : Externals :=
  {| msgIgnore := x02;
     msgDebug := x04;
     msgKexInit := x14;
     msgNewKeys := x15;
     streamCipherMode := unit;
     cipherModes :=
       list_to_map
         ((λ name, (name, ()))
            <$> ["aes128-ctr"; "aes192-ctr"; "aes256-ctr";
                 "aes128-gcm@openssh.com"; "arcfour256"; "arcfour128";
                 "arcfour"; "aes128-cbc"; "3des-cbc"]);
     kexAlgoCurve25519SHA256 := "curve25519-sha256@libssh.org";
     kexAlgoECDH256 := "ecdh-sha2-nistp256";
     kexAlgoECDH384 := "ecdh-sha2-nistp384";
     kexAlgoECDH521 := "ecdh-sha2-nistp521";
     kexAlgoDH14SHA1 := "diffie-hellman-group14-sha1";
     kexAlgoDH1SHA1 := "diffie-hellman-group1-sha1";
     CertAlgoRSAv01 := "ssh-rsa-cert-v01@openssh.com";
     CertAlgoDSAv01 := "ssh-dss-cert-v01@openssh.com";
     CertAlgoECDSA256v01 := "ecdsa-sha2-nistp256-cert-v01@openssh.com";
     CertAlgoECDSA384v01 := "ecdsa-sha2-nistp384-cert-v01@openssh.com";
     CertAlgoECDSA521v01 := "ecdsa-sha2-nistp521-cert-v01@openssh.com";
     CertAlgoED25519v01 := "ssh-ed25519-cert-v01@openssh.com";
     KeyAlgoECDSA256 := "ecdsa-sha2-nistp256";
     KeyAlgoECDSA384 := "ecdsa-sha2-nistp384";
     KeyAlgoECDSA521 := "ecdsa-sha2-nistp521";
     KeyAlgoRSA := "ssh-rsa";
     KeyAlgoDSA := "ssh-dss";
     KeyAlgoED25519 := "ssh-ed25519";
     Marshal := λ msg, x14 :: Cookie msg;
     Unmarshal := λ p,
       match p with
       | _ :: x00 :: _ => inl peerInit
       | _ :: x01 :: _ => inl peerGuessing
       | _ => inr (External 1)
       end;
     kexAlgoMap :=
       {[ "curve25519-sha256@libssh.org" := λ _, kex;
          "ecdh-sha2-nistp256" := λ _, kex ]};
     ParsePublicKey := λ blob, inl {| keyType := "ssh-rsa"; keyBlob := blob |};
     parseSignatureBody := λ sig, (sig, [], true);
     PublicKey_Verify := λ _ _ _, None |}.

(** A configuration that asks for a cipher the package does not have. *)
Definition config0 : Config :=
  {| Rand := None; RekeyThreshold := 0; KeyExchanges := None;
     Ciphers := Some ["chacha20-poly1305@openssh.com"; "aes128-ctr"];
     MACs := None; ConnLog := None; Verbose := false;
     GexMinBits := 0; GexMaxBits := 0; GexPreferredBits := 0;
     HelloOnly := false |}.

(** A connection on which the peer sends [packets] and then hangs up. *)
Definition connOf (packets : list (byte * bytes)) : keyingTransport :=
  {| pconn :=
       {| inbox := packets; inboxErr := EOF; nread := 0; written := [];
          wscript := []; connClosed := false |};
     keyChanges := [] |}.

(** A client transport on that connection. *)
Definition clientOn (packets : list (byte * bytes)) : handshakeTransport :=
  @newClientTransport ext (connOf packets) [x43] [x53]
    (@SetDefaults ext config0) None None "host:22" "10.0.0.1:22" [].

(** The peer runs a first exchange, sends a data packet, and rekeys. *)
Definition twoExchanges : list (byte * bytes) :=
  [(x14, [x00]); (x15, []); (x5e, [x68; x69]); (x14, [x00]); (x15, [])].

(** The handshake caller sends KEXINIT; the read loop gets the peer's
    KEXINIT; a writer comes and has to wait; the read loop runs the first
    exchange and passes the marker on; the writer resumes; the read loop
    takes the data packet, then the second KEXINIT and the second
    exchange. *)
Definition schedule : list action :=
  [CallSendKexInit firstKeyExchange; ReaderStep; ReaderStep;
   CallWritePacket [x5e; x01]; ReaderStep; ResumeWriter 0; ReaderStep;
   CallReadPacket; ReaderStep; ReaderStep; ReaderStep; CallReadPacket;
   ReaderStep; ReaderStep; ReaderStep].

(** The same, and then the peer hangs up while a second writer waits for a
    third exchange that never comes. *)
Definition hangup : list action :=
  schedule ++ [ReaderStep; CallSendKexInit subsequentKeyExchange;
               CallWritePacket [x5e; x02]; ReaderStep; ReaderStep].

(** The states the two schedules lead to. *)
Definition afterRekey : system :=
  default (start (clientOn twoExchanges))
    (@run ext schedule (start (clientOn twoExchanges))).

Definition afterHangup : system :=
  default (start (clientOn twoExchanges))
    (@run ext hangup (start (clientOn twoExchanges))).

(** A peer that guesses: its KEXINIT, the first packet of the exchange it
    guessed, and NEWKEYS. *)
Definition guessedExchange : list (byte * bytes) :=
  [(x1e, [x01]); (x15, [])].

End Sample.

(** ** Part III: theorems *)

(** *** Negotiation *)

Lemma findCommon_server_Some c server x :
  findCommon_server c server = Some x ↔ x = c ∧ c ∈ server.
Proof.
  induction server as [|s server IH]; simpl.
  - split; [discriminate | intros [_ Hin]; inversion Hin].
  - destruct (decide (c = s)) as [->|Hne].
    + split; [intros [= <-]; split; [done | left] | intros [-> _]; done].
    + rewrite IH. split; intros [-> Hin]; split; try done.
      * by right.
      * inversion Hin; subst; [done | assumption].
Qed.

Lemma findCommon_server_None c server :
  findCommon_server c server = None ↔ c ∉ server.
Proof.
  destruct (findCommon_server c server) as [x|] eqn:E.
  - apply findCommon_server_Some in E as [_ Hin]. split; [discriminate | done].
  - split; [intros _ Hin | done].
    assert (findCommon_server c server = Some c) as E'
      by (by apply findCommon_server_Some).
    congruence.
Qed.

Lemma findCommon_client_Some client server c :
  findCommon_client client server = Some c ↔ earliestCommon client server c.
Proof.
  revert c. induction client as [|a client IH]; intros c; simpl.
  - split; [discriminate | intros (before & after & E & _)].
    by destruct before.
  - destruct (findCommon_server a server) as [x|] eqn:E.
    + apply findCommon_server_Some in E as [-> Hin]. split.
      * intros [= <-]. exists [], client. split_and!; [done | done |].
        intros x Hx. inversion Hx.
      * intros (before & after & Ecl & Hc & Hbefore).
        destruct before as [|b before]; simpl in Ecl.
        -- by injection Ecl as -> _.
        -- injection Ecl as -> _. exfalso. apply (Hbefore b); [left | done].
    + apply findCommon_server_None in E. rewrite IH. split.
      * intros (before & after & -> & Hc & Hbefore).
        exists (a :: before), after. split_and!; [done | done |].
        intros x Hx. inversion Hx; subst; [done | by apply Hbefore].
      * intros (before & after & Ecl & Hc & Hbefore).
        destruct before as [|b before]; simpl in Ecl.
        -- injection Ecl as -> _. done.
        -- injection Ecl as -> ->. exists before, after.
           split_and!; [done | done |].
           intros x Hx. apply Hbefore. by right.
Qed.

Lemma findCommon_client_None client server :
  findCommon_client client server = None ↔ ∀ x, x ∈ client → x ∉ server.
Proof.
  induction client as [|a client IH]; simpl.
  - split; [intros _ x Hx; inversion Hx | done].
  - destruct (findCommon_server a server) as [x|] eqn:E.
    + apply findCommon_server_Some in E as [-> Hin].
      split; [discriminate | intros Hall; exfalso].
      apply (Hall a); [left | done].
    + apply findCommon_server_None in E. rewrite IH. split.
      * intros Hall x Hx. inversion Hx; subst; [done | by apply Hall].
      * intros Hall x Hx. apply Hall. by right.
Qed.

Lemma earliestCommon_functional client server c c' :
  earliestCommon client server c → earliestCommon client server c' → c = c'.
Proof.
  intros Hc Hc'. apply findCommon_client_Some in Hc, Hc'. congruence.
Qed.

Lemma earliestCommon_permutation client server server' c :
  server' ≡ₚ server → earliestCommon client server c →
  earliestCommon client server' c.
Proof.
  intros Hperm (before & after & -> & Hc & Hbefore).
  exists before, after. split_and!; [done | by rewrite Hperm |].
  intros x Hx. rewrite Hperm. by apply Hbefore.
Qed.

(** C1.  When the two lists share an entry, [findCommon] succeeds with the
    entry that comes first in the client's list among those the server also
    offers, and it gives the same entry for every permutation of the
    server's list. *)
Theorem findCommon_earliest_in_client_order what client server :
  (∃ x, x ∈ client ∧ x ∈ server) →
  ∃ c,
    earliestCommon client server c
    ∧ findCommon what client server = inl c
    ∧ ∀ server', server' ≡ₚ server → findCommon what client server' = inl c.
Proof.
  intros (x & Hclient & Hserver).
  destruct (findCommon_client client server) as [c|] eqn:E.
  - exists c. assert (earliestCommon client server c) as Hc
      by (by apply findCommon_client_Some).
    split_and!; [done | by unfold findCommon; rewrite E |].
    intros server' Hperm. unfold findCommon.
    assert (findCommon_client client server' = Some c) as ->; [|done].
    apply findCommon_client_Some. by apply earliestCommon_permutation with server.
  - exfalso. eapply findCommon_client_None in E; eauto.
Qed.

Lemma findCommon_cases what client server :
  ((∀ x, x ∈ client → x ∉ server)
   ∧ findCommon what client server = inr (NoCommonAlgorithm what client server))
  ∨ (¬ (∀ x, x ∈ client → x ∉ server)
     ∧ ∃ c, findCommon what client server = inl c
            ∧ earliestCommon client server c).
Proof.
  unfold findCommon.
  destruct (findCommon_client client server) as [c|] eqn:E.
  - right. split.
    + intros Hall. apply findCommon_client_None in Hall. congruence.
    + exists c. split; [done | by apply findCommon_client_Some].
  - left. split; [by apply findCommon_client_None | done].
Qed.

Lemma firstFailure_cons cat cats c s :
  firstFailure (cat :: cats) c s =
    if decide (disjointOffers c s cat)
    then Some (NoCommonAlgorithm cat.1 (cat.2 c) (cat.2 s))
    else firstFailure cats c s.
Proof.
  unfold firstFailure. simpl.
  destruct (decide (disjointOffers c s cat)); [done |].
  by destruct (list_find (disjointOffers c s) cats) as [[? ?]|].
Qed.

Lemma firstFailure_names cats c s what client server :
  firstFailure cats c s = Some (NoCommonAlgorithm what client server) →
  what ∈ cats.*1.
Proof.
  unfold firstFailure. intros Hsome.
  destruct (list_find (disjointOffers c s) cats) as [[i cat]|] eqn:E;
    [|discriminate].
  simpl in Hsome. injection Hsome as <- _ _.
  apply list_find_Some in E as (Hcat & _ & _).
  apply list_elem_of_fmap. exists cat. split; [done |].
  by eapply list_elem_of_lookup_2.
Qed.

(** One lookup of [findAgreedAlgorithms] against its entry of
    [categories]. *)
Local Ltac lookup_step c s what sel :=
  let Hdisjoint := fresh "Hdisjoint" in
  let Hcommon := fresh "Hcommon" in
  rewrite firstFailure_cons; simpl;
  destruct (findCommon_cases what (sel c) (sel s))
    as [[Hdisjoint ->]|[Hcommon (? & -> & ?)]];
  [ rewrite decide_True by exact Hdisjoint; reflexivity
  | rewrite decide_False by exact Hcommon ].

Lemma findAgreedAlgorithms_lookups c s :
  match firstFailure categories c s with
  | Some e => findAgreedAlgorithms c s = inr e
  | None =>
      ∃ algs,
        findAgreedAlgorithms c s = inl algs
        ∧ earliestCommon (KexAlgos c) (KexAlgos s) (Kex algs)
        ∧ earliestCommon (ServerHostKeyAlgos c) (ServerHostKeyAlgos s) (HostKey algs)
        ∧ earliestCommon (CiphersClientServer c) (CiphersClientServer s)
            (Cipher (W algs))
        ∧ earliestCommon (CiphersServerClient c) (CiphersServerClient s)
            (Cipher (R algs))
        ∧ earliestCommon (MACsClientServer c) (MACsClientServer s) (MAC (W algs))
        ∧ earliestCommon (MACsServerClient c) (MACsServerClient s) (MAC (R algs))
        ∧ earliestCommon (CompressionClientServer c) (CompressionClientServer s)
            (Compression (W algs))
        ∧ earliestCommon (CompressionServerClient c) (CompressionServerClient s)
            (Compression (R algs))
  end.
Proof.
  unfold categories, findAgreedAlgorithms.
  lookup_step c s "key exchange" KexAlgos.
  lookup_step c s "host key" ServerHostKeyAlgos.
  lookup_step c s "client to server cipher" CiphersClientServer.
  lookup_step c s "server to client cipher" CiphersServerClient.
  lookup_step c s "client to server MAC" MACsClientServer.
  lookup_step c s "server to client MAC" MACsServerClient.
  lookup_step c s "client to server compression" CompressionClientServer.
  lookup_step c s "server to client compression" CompressionServerClient.
  eexists. split; [reflexivity |]. simpl. by split_and!.
Qed.

(** C8, as the code has it.  [findAgreedAlgorithms] composes eight lookups,
    in the order key exchange, host key, cipher client to server, cipher
    server to client, MAC client to server, MAC server to client,
    compression client to server, compression server to client.  It fails
    on the first of them without a common entry, with the error of
    [findCommon] that names that category and both offered lists, and
    otherwise every field of the result is the earliest entry of the
    client's list that the server offers too. *)
Theorem findAgreedAlgorithms_eight_lookups c s :
  length categories = 8%nat
  ∧ match firstFailure categories c s with
    | Some e =>
        findAgreedAlgorithms c s = inr e
        ∧ ∃ cat, cat ∈ categories
                 ∧ e = NoCommonAlgorithm cat.1 (cat.2 c) (cat.2 s)
    | None =>
        ∃ algs,
          findAgreedAlgorithms c s = inl algs
          ∧ earliestCommon (KexAlgos c) (KexAlgos s) (Kex algs)
          ∧ earliestCommon (ServerHostKeyAlgos c) (ServerHostKeyAlgos s) (HostKey algs)
          ∧ earliestCommon (CiphersClientServer c) (CiphersClientServer s)
              (Cipher (W algs))
          ∧ earliestCommon (CiphersServerClient c) (CiphersServerClient s)
              (Cipher (R algs))
          ∧ earliestCommon (MACsClientServer c) (MACsClientServer s) (MAC (W algs))
          ∧ earliestCommon (MACsServerClient c) (MACsServerClient s) (MAC (R algs))
          ∧ earliestCommon (CompressionClientServer c) (CompressionClientServer s)
              (Compression (W algs))
          ∧ earliestCommon (CompressionServerClient c) (CompressionServerClient s)
              (Compression (R algs))
    end.
Proof.
  split; [reflexivity |].
  pose proof (findAgreedAlgorithms_lookups c s) as Hlookups.
  destruct (firstFailure categories c s) as [e|] eqn:Hfirst; [|exact Hlookups].
  split; [exact Hlookups |].
  unfold firstFailure in Hfirst.
  destruct (list_find (disjointOffers c s) categories) as [[i cat]|] eqn:Hfind;
    [|discriminate].
  injection Hfirst as <-. exists cat. split; [|done].
  apply list_find_Some in Hfind as (Hcat & _ & _).
  by eapply list_elem_of_lookup_2.
Qed.

(** C8, as the specification words it, does not hold: no seven lookups composed in
    order give the errors of [findAgreedAlgorithms].  Each of the eight
    categories is the one named in the error of some negotiation. *)
Lemma findAgreedAlgorithms_not_seven_lookups :
  ¬ ∃ cats : list category,
      length cats = 7%nat
      ∧ ∀ c s, negotiationError (findAgreedAlgorithms c s) = firstFailure cats c s.
Proof.
  intros (cats & Hlen & Hsame).
  assert (categories.*1 ⊆+ cats.*1) as Hsub.
  { apply NoDup_submseteq.
    - unfold categories. simpl. by apply (bool_decide_unpack _); vm_compute.
    - intros what Hwhat.
      assert (∃ i, negotiationError (findAgreedAlgorithms offersX (offersXBut i))
                   = Some (NoCommonAlgorithm what ["x"] ["y"])) as [i Hi].
      { unfold categories in Hwhat. simpl in Hwhat.
        repeat (apply elem_of_cons in Hwhat as [->|Hwhat]).
        - by exists 0%nat.
        - by exists 1%nat.
        - by exists 2%nat.
        - by exists 3%nat.
        - by exists 4%nat.
        - by exists 5%nat.
        - by exists 6%nat.
        - by exists 7%nat.
        - inversion Hwhat. }
      rewrite Hsame in Hi. by eapply firstFailure_names. }
  apply submseteq_length in Hsub.
  rewrite !length_fmap in Hsub. unfold category in *. simpl in Hsub. lia.
Qed.

(** *** The flow-control window *)

Lemma wrap32_small z : is_uint32 z → wrap32 z = z.
Proof. unfold is_uint32, uint32_max, wrap32. intros ?. apply Z.mod_small. lia. Qed.

Lemma wrap32_overflow c n :
  is_uint32 c → is_uint32 n → (wrap32 (c + n) < n ↔ uint32_max < c + n).
Proof.
  unfold is_uint32, uint32_max, wrap32. intros Hc Hn.
  destruct (decide (c + n < 2 ^ 32)) as [Hlt|Hge].
  - rewrite Z.mod_small by lia. lia.
  - replace (c + n) with ((c + n - 2 ^ 32) + 1 * 2 ^ 32) by lia.
    rewrite Z.mod_add by lia. rewrite Z.mod_small by lia. lia.
Qed.

Lemma window_add_zero w : window_add w 0 = (w, true).
Proof. unfold window_add. by rewrite decide_True. Qed.

Lemma window_add_overflow w n :
  is_uint32 (win w) → is_uint32 n → uint32_max < win w + n →
  window_add w n = (w, false).
Proof.
  intros Hw Hn Hover. unfold window_add.
  assert (n ≠ 0) by (unfold is_uint32 in *; lia).
  rewrite decide_False by done.
  rewrite decide_True; [done | by apply wrap32_overflow].
Qed.

Lemma window_add_fits w n :
  is_uint32 (win w) → is_uint32 n → win w + n ≤ uint32_max →
  ∃ w', window_add w n = (w', true)
        ∧ win w' = win w + n
        ∧ closed w' = closed w ∧ writeWaiters w' = writeWaiters w.
Proof.
  intros Hw Hn Hfits. unfold window_add.
  destruct (decide (n = 0)) as [->|Hne].
  - exists w. split_and!; [done | lia | done | done].
  - rewrite decide_False by (rewrite wrap32_overflow by done; lia).
    eexists. split_and!; [done | simpl | done | done].
    apply wrap32_small. unfold is_uint32 in *. lia.
Qed.

(** C6.  [add 0] succeeds and changes nothing; an amount that would take
    the credit past 2^32 - 1 is refused and the window is left as it was;
    any other amount is added to the credit. *)
Theorem window_add_credit w n :
  is_uint32 (win w) → is_uint32 n →
  (n = 0 → window_add w n = (w, true))
  ∧ (uint32_max < win w + n → window_add w n = (w, false))
  ∧ (win w + n ≤ uint32_max →
     ∃ w', window_add w n = (w', true)
           ∧ win w' = win w + n
           ∧ closed w' = closed w ∧ writeWaiters w' = writeWaiters w).
Proof.
  intros Hw Hn. split_and!.
  - intros ->. apply window_add_zero.
  - by apply window_add_overflow.
  - by apply window_add_fits.
Qed.

Lemma window_reserve_loop_waits w want :
  win w = 0 → closed w = false → window_reserve_loop w want = (w, Waiting).
Proof.
  intros Hwin Hopen. unfold window_reserve_loop.
  by rewrite Hopen, bool_decide_eq_true_2.
Qed.

Lemma window_reserve_loop_grants w want :
  is_uint32 (win w) → is_uint32 want →
  win w ≠ 0 ∨ closed w = true →
  window_reserve_loop w want =
    ({| win := win w - Z.min want (win w);
        writeWaiters := writeWaiters w - 1;
        closed := closed w |},
     Granted (Z.min want (win w)) (endOfStream w)).
Proof.
  intros Hw Hwant Hgo. unfold window_reserve_loop, endOfStream.
  assert (bool_decide (win w = 0) && negb (closed w) = false) as ->.
  { destruct Hgo as [Hne| ->].
    - by rewrite bool_decide_eq_false_2.
    - apply andb_false_r. }
  assert ((if decide (win w < want) then win w else want) = Z.min want (win w))
    as -> by (case_decide; lia).
  rewrite wrap32_small; [done |]. unfold is_uint32 in *. lia.
Qed.

(** C5.  With credit, [reserve] does not wait: it grants the smaller of the
    request and the credit and takes it off the credit.  Without credit on
    an open window it waits, and a caller woken in such a state waits
    again; once [add] has given credit or [close] has closed the window,
    the woken caller returns.  Whenever the call returns, the error is the
    end-of-stream error exactly when the window is closed, and a closed
    window without credit gives zero and that error. *)
Theorem window_reserve_grant w want :
  is_uint32 (win w) → is_uint32 want →
  (0 < win w →
   ∃ w', window_reserve w want = (w', Granted (Z.min want (win w)) (endOfStream w))
         ∧ win w' = win w - Z.min want (win w)
         ∧ closed w' = closed w ∧ writeWaiters w' = writeWaiters w)
  ∧ (win w = 0 → closed w = false →
     (∃ w1, window_reserve w want = (w1, Waiting)
            ∧ win w1 = 0 ∧ closed w1 = false
            ∧ writeWaiters w1 = writeWaiters w + 1)
     ∧ window_reserve_wake w want = (w, Waiting)
     ∧ (∀ n, is_uint32 n → 0 < n →
          ∃ w2 w3, window_add w n = (w2, true)
                   ∧ window_reserve_wake w2 want
                     = (w3, Granted (Z.min want n) None)
                   ∧ win w3 = n - Z.min want n)
     ∧ (∃ w3, window_reserve_wake (window_close w) want
              = (w3, Granted 0 (Some EOF))
              ∧ win w3 = 0 ∧ closed w3 = true))
  ∧ (win w = 0 → closed w = true →
     ∃ w', window_reserve w want = (w', Granted 0 (Some EOF)) ∧ win w' = 0)
  ∧ (∀ w' granted err,
       window_reserve w want = (w', Granted granted err)
       ∨ window_reserve_wake w want = (w', Granted granted err) →
       (err = Some EOF ↔ closed w' = true)).
Proof.
  intros Hw Hwant. split_and!.
  - intros Hpos. unfold window_reserve.
    rewrite window_reserve_loop_grants; simpl; [| done | done | left; lia].
    eexists. split_and!; [done | done | done | simpl; lia].
  - intros Hzero Hopen. split_and!.
    + unfold window_reserve. rewrite window_reserve_loop_waits by done.
      eexists. by split_and!.
    + by apply window_reserve_loop_waits.
    + intros n Hn Hpos.
      destruct (window_add_fits w n) as (w2 & Hadd & Hwin2 & Hclosed2 & _);
        [done | done | unfold is_uint32 in *; lia |].
      exists w2. eexists. split; [exact Hadd |].
      unfold window_reserve_wake.
      rewrite window_reserve_loop_grants;
        [| rewrite Hwin2, Hzero; by rewrite Z.add_0_l | done | left; lia].
      unfold endOfStream. rewrite Hclosed2, Hopen, Hwin2, Hzero, Z.add_0_l.
      by split.
    + unfold window_reserve_wake, window_close.
      rewrite window_reserve_loop_grants; simpl; [| done | done | by right].
      unfold endOfStream. simpl. rewrite Hzero.
      assert (Z.min want 0 = 0) as -> by (unfold is_uint32 in *; lia).
      eexists. by split_and!.
  - intros Hzero Hclosed. unfold window_reserve.
    rewrite window_reserve_loop_grants; simpl; [| done | done | by right].
    unfold endOfStream. simpl. rewrite Hclosed, Hzero.
    assert (Z.min want 0 = 0) as -> by (unfold is_uint32 in *; lia).
    eexists. by split.
  - intros w' granted err Hret.
    assert (∃ w0, closed w0 = closed w
                  ∧ window_reserve_loop w0 want = (w', Granted granted err))
      as (w0 & Hsame & Hloop).
    { destruct Hret as [Hret|Hret]; eexists; (split; [|exact Hret]); done. }
    unfold window_reserve_loop in Hloop.
    destruct (bool_decide (win w0 = 0) && negb (closed w0)); [discriminate |].
    injection Hloop as <- _ <-. simpl.
    destruct (closed w0); split; (done || discriminate).
Qed.

(** *** The handshake transport *)

Section TransportFacts.
Context `{Externals}.

Lemma sendKexInitLocked_outstanding t isFirst msg :
  sentInitMsg t = Some msg →
  sendKexInitLocked t isFirst = (t, inl (msg, sentInitPacket t)).
Proof. intros Hsent. unfold sendKexInitLocked. by rewrite Hsent. Qed.

Lemma sendKexInitLocked_keeps t isFirst :
  let t' := (sendKexInitLocked t isFirst).1 in
  keepsErrors t t' ∧ keepsSession t t' ∧ keepsRole t t'
  ∧ (is_Some (sentInitMsg t) → is_Some (sentInitMsg t')).
Proof.
  unfold sendKexInitLocked, keepsErrors, keepsSession, keepsRole.
  destruct (sentInitMsg t) as [msg|] eqn:Hsent; simpl.
  - rewrite Hsent. by split_and!.
  - repeat case_match; simpl; split_and!; try done; by intros [? ?].
Qed.

Lemma sendKexInit_keeps t isFirst :
  let t' := (sendKexInit t isFirst).1 in
  keepsErrors t t' ∧ keepsSession t t' ∧ keepsRole t t'
  ∧ (is_Some (sentInitMsg t) → is_Some (sentInitMsg t')).
Proof.
  unfold sendKexInit. destruct (negb isFirst || bool_decide (sessionID t = None)).
  - pose proof (sendKexInitLocked_keeps t isFirst) as Hkeeps.
    by destruct (sendKexInitLocked t isFirst).
  - simpl. by split_and!.
Qed.



Lemma writePacket_loop_keeps t p :
  let t' := (writePacket_loop t p).1 in
  keepsErrors t t' ∧ keepsSession t t' ∧ keepsRole t t'
  ∧ sentInitMsg t' = sentInitMsg t.
Proof.
  unfold writePacket_loop, keepsErrors, keepsSession, keepsRole.
  repeat case_match; simpl; by split_and!.
Qed.


Lemma writePacket_keeps t p :
  let t' := (writePacket t p).1 in
  keepsErrors t t' ∧ keepsSession t t' ∧ keepsRole t t'
  ∧ (is_Some (sentInitMsg t) → is_Some (sentInitMsg t')).
Proof.
  unfold writePacket.
  set (t1 := if decide _ then _ else t).
  assert (keepsErrors t t1 ∧ keepsSession t t1 ∧ keepsRole t t1
          ∧ (is_Some (sentInitMsg t) → is_Some (sentInitMsg t1)))
    as (He & Hs & Hr & Hsent).
  { subst t1. case_decide; [apply sendKexInitLocked_keeps |].
    unfold keepsErrors, keepsSession, keepsRole. by split_and!. }
  destruct (writePacket_loop_keeps t1 p) as (He' & Hs' & Hr' & Hsent').
  unfold keepsErrors, keepsSession, keepsRole in *. simpl.
  destruct_and!. split_and!; try congruence.
  intros ?. rewrite Hsent'. auto.
Qed.

Lemma skipGuessedPacket_keeps t otherInit clientInit serverInit :
  let t' := (skipGuessedPacket t otherInit clientInit serverInit).1 in
  keepsErrors t t' ∧ keepsSession t t' ∧ keepsRole t t'
  ∧ sentInitMsg t' = sentInitMsg t.
Proof.
  unfold skipGuessedPacket, keepsErrors, keepsSession, keepsRole.
  repeat case_match; simpl; by split_and!.
Qed.

Lemma client_keeps t kex algs magics :
  let t' := (client t kex algs magics).1 in
  keepsErrors t t' ∧ keepsSession t t' ∧ keepsRole t t'
  ∧ sentInitMsg t' = sentInitMsg t ∧ config t' = config t.
Proof.
  unfold client, keepsErrors, keepsSession, keepsRole.
  repeat case_match; simpl; by split_and!.
Qed.

Lemma server_keeps t kex algs magics :
  let t' := (server t kex algs magics).1 in
  keepsErrors t t' ∧ keepsSession t t' ∧ keepsRole t t'
  ∧ sentInitMsg t' = sentInitMsg t ∧ config t' = config t.
Proof.
  unfold server, keepsErrors, keepsSession, keepsRole.
  repeat case_match; simpl; by split_and!.
Qed.

Lemma client_result t kex algs magics t' r :
  client t kex algs magics = (t', inl r) →
  ∃ c', kex_Client kex (pconn (conn t)) (Rand (config t)) magics (config t)
        = (c', inl r).
Proof.
  unfold client. intros Hclient.
  destruct (kex_Client kex _ _ _ _) as [c' [r'|e]]; [|discriminate].
  exists c'. repeat case_match; by simplify_eq.
Qed.

Lemma server_result t kex algs magics t' r :
  server t kex algs magics = (t', inl r) →
  ∃ c' key, kex_Server kex (pconn (conn t)) (Rand (config t)) magics key (config t)
            = (c', inl r).
Proof.
  unfold server. intros Hserver.
  destruct (kex_Server kex _ _ _ _ _) as [c' r'] eqn:E.
  injection Hserver as _ ->. eauto.
Qed.

Lemma sessionFixed_keeps t t' :
  keepsSession t t' → sessionFixed t → sessionFixed t'.
Proof. unfold keepsSession, sessionFixed. by intros [-> ->]. Qed.

Lemma ranExchange_keeps t kex algs magics :
  let t' := (ranExchange t kex algs magics).1 in
  keepsErrors t t' ∧ keepsSession t t' ∧ keepsRole t t'
  ∧ sentInitMsg t' = sentInitMsg t ∧ config t' = config t.
Proof.
  unfold ranExchange. case_decide; [apply server_keeps | apply client_keeps].
Qed.

Lemma ranExchange_hash t name getNew algs magics t' r :
  hashesPresent → kexAlgoMap !! name = Some getNew →
  ranExchange t (getNew (Kex algs)) algs magics = (t', inl r) →
  is_Some (H r).
Proof.
  intros Hhash Hreg. unfold ranExchange. case_decide; intros Hran.
  - apply server_result in Hran as (c' & key & Hkex).
    edestruct (Hhash name getNew) as [_ Hserver]; [done |]. by eapply Hserver.
  - apply client_result in Hran as (c' & Hkex).
    edestruct (Hhash name getNew) as [Hclient _]; [done |]. by eapply Hclient.
Qed.

Lemma installKeys_keeps t algs result :
  let t' := installKeys t algs result in
  keepsErrors t t' ∧ keepsRole t t' ∧ sentInitMsg t' = sentInitMsg t
  ∧ config t' = config t ∧ pconn (conn t') = pconn (conn t).
Proof.
  unfold installKeys, keepsErrors, keepsRole.
  destruct (sessionID t); simpl; by split_and!.
Qed.

Lemma installKeys_sessionID t algs result sid :
  sessionID t = Some sid → sessionID (installKeys t algs result) = Some sid.
Proof. intros Hsid. unfold installKeys. by rewrite Hsid. Qed.

Lemma installKeys_first t algs result :
  sessionID t = None → sessionID (installKeys t algs result) = H result.
Proof. intros Hsid. unfold installKeys. by rewrite Hsid. Qed.

Lemma installKeys_keyChanges t algs result :
  keyChanges (conn (installKeys t algs result))
  = keyChanges (conn t)
    ++ [(algs, kexResult_set_SessionID
                 (sessionID (installKeys t algs result)) result)].
Proof. unfold installKeys. by destruct (sessionID t). Qed.

Lemma installKeys_sessionFixed t algs result :
  is_Some (H result) → sessionFixed t → sessionFixed (installKeys t algs result).
Proof.
  intros [h Hh] Hfixed. unfold sessionFixed in *.
  rewrite installKeys_keyChanges.
  destruct (sessionID t) as [sid|] eqn:Hsid.
  - rewrite (installKeys_sessionID _ _ _ sid) by done.
    destruct Hfixed as [(first & Hfirst & Hhash) Hall]. split.
    + exists first. split; [|done].
      destruct (keyChanges (conn t)); [discriminate | done].
    + intros change [Hin| ->%list_elem_of_singleton]%elem_of_app; [auto | done].
  - rewrite installKeys_first by done. rewrite Hfixed, Hh. simpl. split.
    + eexists. split; [done | done].
    + by intros change ->%list_elem_of_singleton.
Qed.

Lemma exchangeNewKeys_keeps t :
  let t' := (exchangeNewKeys t).1 in
  keepsErrors t t' ∧ keepsSession t t' ∧ keepsRole t t'
  ∧ sentInitMsg t' = sentInitMsg t ∧ config t' = config t.
Proof.
  unfold exchangeNewKeys, keepsErrors, keepsSession, keepsRole.
  repeat case_match; simpl; by split_and!.
Qed.

Lemma logged_keeps f t :
  let t' := set_config (logTo f (config t)) t in
  keepsErrors t t' ∧ keepsSession t t' ∧ keepsRole t t'
  ∧ sentInitMsg t' = sentInitMsg t ∧ conn t' = conn t
  ∧ HelloOnly (config t') = HelloOnly (config t)
  ∧ Verbose (config t') = Verbose (config t).
Proof.
  unfold logTo, keepsErrors, keepsSession, keepsRole.
  destruct (ConnLog (config t)); simpl; by split_and!.
Qed.

Lemma runKeyExchange_keeps t algs magics :
  let t' := (runKeyExchange t algs magics).1 in
  keepsErrors t t' ∧ keepsRole t t' ∧ sentInitMsg t' = sentInitMsg t.
Proof.
  unfold runKeyExchange.
  destruct (kexAlgoMap !! Kex algs) as [getNew|]; [|by unfold keepsErrors, keepsRole].
  simpl.
  pose proof (logged_keeps (log_DHKeyExchange (Kex algs)) t) as Hlog.
  set (t1 := set_config _ t) in *.
  pose proof (ranExchange_keeps t1 (getNew (Kex algs)) algs magics) as Hran.
  destruct (ranExchange t1 _ algs magics) as [t2 r]. simpl in Hran.
  set (t3 := if Verbose (config t2) then _ else t2).
  assert (keepsErrors t2 t3 ∧ keepsRole t2 t3 ∧ sentInitMsg t3 = sentInitMsg t2)
    as Hverbose.
  { subst t3. destruct (Verbose (config t2)).
    - pose proof (logged_keeps
        (log_Crypto (match r with inl res => Some res | inr _ => None end)) t2).
      simpl in *. by destruct_and!.
    - by unfold keepsErrors, keepsRole. }
  destruct r as [result|e]; simpl.
  - pose proof (installKeys_keeps t3 algs result) as Hinst.
    pose proof (exchangeNewKeys_keeps (installKeys t3 algs result)) as Hnew.
    unfold keepsErrors, keepsSession, keepsRole in *. simpl in *.
    destruct_and!. split_and!; congruence.
  - unfold keepsErrors, keepsSession, keepsRole in *. simpl in *.
    destruct_and!. split_and!; congruence.
Qed.

Lemma runKeyExchange_session t algs magics :
  let t' := (runKeyExchange t algs magics).1 in
  (∀ sid, sessionID t = Some sid → sessionID t' = Some sid)
  ∧ (hashesPresent → sessionFixed t → sessionFixed t').
Proof.
  unfold runKeyExchange.
  destruct (kexAlgoMap !! Kex algs) as [getNew|] eqn:Hreg; [|done].
  simpl.
  pose proof (logged_keeps (log_DHKeyExchange (Kex algs)) t) as Hlog.
  set (t1 := set_config _ t) in *.
  pose proof (ranExchange_keeps t1 (getNew (Kex algs)) algs magics) as Hran.
  destruct (ranExchange t1 _ algs magics) as [t2 r] eqn:Eran. simpl in Hran.
  set (t3 := if Verbose (config t2) then _ else t2).
  assert (keepsSession t2 t3) as Hverbose.
  { subst t3. destruct (Verbose (config t2)).
    - pose proof (logged_keeps
        (log_Crypto (match r with inl res => Some res | inr _ => None end)) t2).
      simpl in *. by destruct_and!.
    - by unfold keepsSession. }
  assert (keepsSession t t3) as Hsame.
  { unfold keepsSession in *. simpl in *. destruct_and!. split; congruence. }
  destruct r as [result|e]; simpl.
  - pose proof (exchangeNewKeys_keeps (installKeys t3 algs result)) as Hnew.
    simpl in Hnew. destruct Hnew as (_ & Hnew & _). split.
    + intros sid Hsid. destruct Hnew as [-> _].
      apply installKeys_sessionID. destruct Hsame as [-> _]. done.
    + intros Hhash Hfixed. eapply sessionFixed_keeps; [exact Hnew |].
      apply installKeys_sessionFixed.
      * by eapply ranExchange_hash.
      * by eapply sessionFixed_keeps.
  - split.
    + intros sid Hsid. destruct Hsame as [-> _]. done.
    + intros _ Hfixed. by eapply sessionFixed_keeps.
Qed.

Lemma enterKeyExchangeLocked_keeps t otherInitPacket :
  let t' := (enterKeyExchangeLocked t otherInitPacket).1 in
  keepsErrors t t' ∧ keepsRole t t'.
Proof.
  unfold enterKeyExchangeLocked.
  pose proof (sendKexInitLocked_keeps t subsequentKeyExchange) as Hsend.
  destruct (sendKexInitLocked t subsequentKeyExchange) as [t1 [[myInit myPacket]|e]];
    simpl in Hsend; [|by destruct_and!].
  set (t2 := if Verbose (config t1) then _ else t1).
  assert (keepsErrors t1 t2 ∧ keepsRole t1 t2) as Hverbose.
  { subst t2. destruct (Verbose (config t1)).
    - pose proof (logged_keeps (log_ClientKex myInit) t1). simpl in *.
      by destruct_and!.
    - by unfold keepsErrors, keepsRole. }
  assert (keepsErrors t t2 ∧ keepsRole t t2) as Hsofar.
  { unfold keepsErrors, keepsRole in *. destruct_and!. split_and!; congruence. }
  clearbody t2. clear Hsend Hverbose.
  destruct (Unmarshal otherInitPacket) as [otherInit|e]; [|done].
  pose proof (logged_keeps (log_ServerKex otherInit) t2) as Hlog.
  set (t3 := set_config _ t2) in *. simpl in Hlog.
  destruct (findAgreedAlgorithms _ _) as [algs|e].
  2:{ simpl. unfold keepsErrors, keepsRole in *. destruct_and!.
      split_and!; congruence. }
  pose proof (logged_keeps (log_AlgorithmSelection algs) t3) as Hlog'.
  set (t4 := set_config _ t3) in *. simpl in Hlog'.
  match goal with
  | |- context [skipGuessedPacket t4 ?o ?c ?s] =>
      pose proof (skipGuessedPacket_keeps t4 o c s) as Hskip;
      destruct (skipGuessedPacket t4 o c s) as [t5 [e|]]
  end; simpl in Hskip.
  - simpl. unfold keepsErrors, keepsRole in *. destruct_and!.
    split_and!; congruence.
  - match goal with
    | |- context [runKeyExchange t5 algs ?m] =>
        pose proof (runKeyExchange_keeps t5 algs m) as Hrun
    end.
    cbv zeta in Hrun. unfold keepsErrors, keepsRole in *. destruct_and!.
    split_and!; congruence.
Qed.

Lemma enterKeyExchangeLocked_session t otherInitPacket :
  let t' := (enterKeyExchangeLocked t otherInitPacket).1 in
  (∀ sid, sessionID t = Some sid → sessionID t' = Some sid)
  ∧ (hashesPresent → sessionFixed t → sessionFixed t').
Proof.
  unfold enterKeyExchangeLocked.
  pose proof (sendKexInitLocked_keeps t subsequentKeyExchange) as Hsend.
  destruct (sendKexInitLocked t subsequentKeyExchange) as [t1 [[myInit myPacket]|e]];
    simpl in Hsend.
  2:{ destruct Hsend as (_ & Hsend & _). simpl. split.
      - intros sid Hsid. destruct Hsend as [-> _]. done.
      - intros _. by apply sessionFixed_keeps. }
  set (t2 := if Verbose (config t1) then _ else t1).
  assert (keepsSession t1 t2) as Hverbose.
  { subst t2. destruct (Verbose (config t1)).
    - pose proof (logged_keeps (log_ClientKex myInit) t1). simpl in *.
      by destruct_and!.
    - by unfold keepsSession. }
  assert (keepsSession t t2) as Hsofar.
  { unfold keepsSession in *. destruct_and!. split_and!; congruence. }
  clearbody t2. clear Hsend Hverbose.
  assert (∀ tx (e : error), keepsSession t tx →
            (∀ sid, sessionID t = Some sid → sessionID (tx, Some e).1 = Some sid)
            ∧ (hashesPresent → sessionFixed t → sessionFixed (tx, Some e).1))
    as Hfail.
  { intros tx e Hkeeps. simpl. split.
    - intros sid Hsid. destruct Hkeeps as [-> _]. done.
    - intros _. by apply sessionFixed_keeps. }
  destruct (Unmarshal otherInitPacket) as [otherInit|e]; [|by apply Hfail].
  pose proof (logged_keeps (log_ServerKex otherInit) t2) as Hlog.
  set (t3 := set_config _ t2) in *. simpl in Hlog.
  assert (keepsSession t t3) as Hsofar3.
  { unfold keepsSession in *. destruct_and!. split_and!; congruence. }
  destruct (findAgreedAlgorithms _ _) as [algs|e]; [|by apply Hfail].
  pose proof (logged_keeps (log_AlgorithmSelection algs) t3) as Hlog'.
  set (t4 := set_config _ t3) in *. simpl in Hlog'.
  match goal with
  | |- context [skipGuessedPacket t4 ?o ?c ?s] =>
      pose proof (skipGuessedPacket_keeps t4 o c s) as Hskip;
      destruct (skipGuessedPacket t4 o c s) as [t5 [e|]]
  end; simpl in Hskip.
  - apply Hfail. unfold keepsSession in *. destruct_and!. split_and!; congruence.
  - assert (keepsSession t t5) as Hsofar5.
    { unfold keepsSession in *. destruct_and!. split_and!; congruence. }
    match goal with
    | |- context [runKeyExchange t5 algs ?m] =>
        pose proof (runKeyExchange_session t5 algs m) as [Hsid Hfixed]
    end.
    split.
    + intros sid Hsid0. apply Hsid. destruct Hsofar5 as [-> _]. done.
    + intros Hhash Hfixed0. apply Hfixed; [done |].
      by eapply sessionFixed_keeps.
Qed.

Lemma readOnePacket_rekey_keeps t :
  let t' := (readOnePacket_rekey t).1 in
  keepsErrors t t' ∧ keepsSession t t' ∧ keepsRole t t'
  ∧ (is_Some (sentInitMsg t) → is_Some (sentInitMsg t')).
Proof.
  unfold readOnePacket_rekey, requestKeyChange. case_decide.
  - apply sendKexInit_keeps.
  - unfold keepsErrors, keepsSession, keepsRole. by split_and!.
Qed.

Lemma readOnePacket_read_keeps t :
  let t' := (readOnePacket_read t).1 in
  keepsErrors t t' ∧ keepsSession t t' ∧ keepsRole t t'
  ∧ sentInitMsg t' = sentInitMsg t.
Proof.
  unfold readOnePacket_read, keepsErrors, keepsSession, keepsRole.
  repeat case_match; simpl; by split_and!.
Qed.

Lemma readOnePacket_kex_errors t p :
  let t' := (readOnePacket_kex t p).1 in
  readError t' = readError t
  ∧ sentInitMsg t' = None
  ∧ match (readOnePacket_kex t p).2 with
    | inl _ => writeError t' = writeError t
    | inr e => writeError t' = Some e
    end.
Proof.
  unfold readOnePacket_kex.
  destruct (negb (HelloOnly (config t))); [|by split_and!].
  pose proof (enterKeyExchangeLocked_keeps t (packet_bytes p)) as Hkeeps.
  destruct (enterKeyExchangeLocked t (packet_bytes p)) as [t1 [e|]];
    cbv zeta in Hkeeps; unfold keepsErrors in Hkeeps; simpl in *;
    destruct_and!; by split_and!.
Qed.

Lemma readOnePacket_kex_session t p :
  let t' := (readOnePacket_kex t p).1 in
  (∀ sid, sessionID t = Some sid → sessionID t' = Some sid)
  ∧ (hashesPresent → sessionFixed t → sessionFixed t').
Proof.
  unfold readOnePacket_kex.
  destruct (negb (HelloOnly (config t))).
  - pose proof (enterKeyExchangeLocked_session t (packet_bytes p)) as Hsession.
    destruct (enterKeyExchangeLocked t (packet_bytes p)) as [t1 [e|]];
      cbv zeta in Hsession; simpl in *; exact Hsession.
  - simpl. by split.
Qed.

Lemma readLoop_next_keeps t r :
  let t' := (readLoop_next t r).1 in
  writeError t' = writeError t ∧ keepsSession t t'
  ∧ sentInitMsg t' = sentInitMsg t
  ∧ match r with
    | inr e => readError t' = Some e ∧ (readLoop_next t r).2 = AtExit
    | inl p =>
        t' = t ∧ ((readLoop_next t r).2 = AtLoop ∨ (readLoop_next t r).2 = AtDeliver p)
    end.
Proof.
  unfold readLoop_next, keepsSession. destruct r as [p|e]; simpl.
  - case_match; simpl; split_and!; auto.
  - by split_and!.
Qed.


Lemma sessionFixed_fresh t : fresh t → sessionFixed t.
Proof. intros (_ & _ & _ & Hsid & Hchanges). unfold sessionFixed. by rewrite Hsid. Qed.

Lemma readPacket_keeps t t' r :
  readPacket t = Some (t', r) →
  keepsErrors t t' ∧ keepsSession t t' ∧ sentInitMsg t' = sentInitMsg t.
Proof.
  unfold readPacket, keepsErrors, keepsSession.
  destruct (chan_recv (incoming t)) as [[ch [p|]]|]; intros [= <- _]; simpl;
    by split_and!.
Qed.

(** What every step keeps of a transport: the write error unless the read
    loop records one, and the session. *)
Lemma reader_step_session s s' :
  reader_step s = Some s' →
  (∀ sid, sessionID (transport s) = Some sid → sessionID (transport s') = Some sid)
  ∧ (hashesPresent → sessionFixed (transport s) → sessionFixed (transport s')).
Proof.
  assert (∀ t t', keepsSession t t' →
            (∀ sid, sessionID t = Some sid → sessionID t' = Some sid)
            ∧ (hashesPresent → sessionFixed t → sessionFixed t')) as Hkeeps.
  { intros t t' Hk. split.
    - intros sid. by destruct Hk as [-> _].
    - intros _. by apply sessionFixed_keeps. }
  unfold reader_step. destruct (reader s) as [| |p|p| |].
  - pose proof (readOnePacket_rekey_keeps (transport s)) as Hrekey.
    destruct (readOnePacket_rekey (transport s)) as [t1 [e|]];
      cbv zeta in Hrekey; simpl in Hrekey; destruct Hrekey as (_ & Hrekey & _).
    + pose proof (readLoop_next_keeps t1 (inr e)) as Hnext.
      destruct (readLoop_next t1 (inr e)) as [t2 at_].
      cbv zeta in Hnext; simpl in Hnext. destruct Hnext as (_ & Hnext & _).
      intros [= <-]. cbn [transport]. apply Hkeeps.
      unfold keepsSession in *. destruct_and!. split; congruence.
    + intros [= <-]. cbn [transport]. apply Hkeeps; by unfold keepsSession.
  - pose proof (readOnePacket_read_keeps (transport s)) as Hread.
    destruct (readOnePacket_read (transport s)) as [t1 r];
      cbv zeta in Hread; simpl in Hread; destruct Hread as (_ & Hread & _).
    assert (∀ r' t2 at_, readLoop_next t1 r' = (t2, at_) →
              keepsSession (transport s) t2) as Hnext.
    { intros r' t2 at_ Heq.
      pose proof (readLoop_next_keeps t1 r') as Hnext. rewrite Heq in Hnext.
      cbv zeta in Hnext; simpl in Hnext. destruct Hnext as (_ & Hnext & _).
      unfold keepsSession in *. destruct_and!. split; congruence. }
    destruct r as [p|e].
    + case_decide.
      * destruct (readLoop_next t1 (inl p)) as [t2 at_] eqn:Heq.
        intros [= <-]. cbn [transport]. apply Hkeeps. by eapply Hnext.
      * intros [= <-]. cbn [transport]. apply Hkeeps; by unfold keepsSession.
    + destruct (readLoop_next t1 (inr e)) as [t2 at_] eqn:Heq.
      intros [= <-]. cbn [transport]. apply Hkeeps. by eapply Hnext.
  - pose proof (readOnePacket_kex_session (transport s) p) as Hkex.
    destruct (readOnePacket_kex (transport s) p) as [t1 r].
    cbv zeta in Hkex; simpl in Hkex.
    pose proof (readLoop_next_keeps t1 r) as Hnext.
    destruct (readLoop_next t1 r) as [t2 at_].
    cbv zeta in Hnext; simpl in Hnext. destruct Hnext as (_ & Hnext & _).
    intros [= <-]. cbn [transport]. destruct (Hkeeps t1 t2 Hnext) as [Hsid Hfixed].
    destruct Hkex as [Hsid' Hfixed']. split; auto.
  - destruct (chan_send _ _); [|discriminate].
    intros [= <-]. cbn [transport]. apply Hkeeps; by unfold keepsSession.
  - intros [= <-]. cbn [transport]. apply Hkeeps.
    unfold readLoop_exit, keepsSession. by destruct (writeError (transport s)).
  - discriminate.
Qed.

Lemma perform_session a s s' :
  perform a s = Some s' →
  (∀ sid, sessionID (transport s) = Some sid → sessionID (transport s') = Some sid)
  ∧ (hashesPresent → sessionFixed (transport s) → sessionFixed (transport s')).
Proof.
  assert (∀ t t', keepsSession t t' →
            (∀ sid, sessionID t = Some sid → sessionID t' = Some sid)
            ∧ (hashesPresent → sessionFixed t → sessionFixed t')) as Hkeeps.
  { intros t t' Hk. split.
    - intros sid. by destruct Hk as [-> _].
    - intros _. by apply sessionFixed_keeps. }
  destruct a as [|p|i|isFirst| |]; simpl.
  - apply reader_step_session.
  - pose proof (writePacket_keeps (transport s) p) as Hwrite.
    destruct (writePacket (transport s) p) as [t1 w].
    intros [= <-]. cbn [transport]. apply Hkeeps. apply Hwrite.
  - destruct (writers s !! i) as [[| p | |]|]; try discriminate.
    unfold writePacket_wake.
    pose proof (writePacket_loop_keeps (transport s) p) as Hwrite.
    destruct (writePacket_loop (transport s) p) as [t1 w].
    intros [= <-]. cbn [transport]. apply Hkeeps. apply Hwrite.
  - intros [= <-]. cbn [transport]. apply Hkeeps. apply sendKexInit_keeps.
  - destruct (readPacket (transport s)) as [[t1 r]|] eqn:Hread; [|discriminate].
    intros [= <-]. cbn [transport]. apply Hkeeps. by eapply readPacket_keeps.
  - intros [= <-]. cbn [transport]. apply Hkeeps; by unfold keepsSession.
Qed.

Lemma run_session actions s s' :
  run actions s = Some s' →
  (∀ sid, sessionID (transport s) = Some sid → sessionID (transport s') = Some sid)
  ∧ (hashesPresent → sessionFixed (transport s) → sessionFixed (transport s')).
Proof.
  revert s. induction actions as [|a actions IH]; intros s; simpl.
  - by intros [= <-].
  - destruct (perform a s) as [s1|] eqn:Hstep; [|discriminate].
    intros Hrun. apply perform_session in Hstep as [Hsid Hfixed].
    apply IH in Hrun as [Hsid' Hfixed']. split; auto.
Qed.







Lemma reachable_run s actions s' :
  reachable s → run actions s = Some s' → reachable s'.
Proof.
  intros (t & before & Hfresh & Hrun) Hmore.
  exists t, (before ++ actions). split; [done |].
  revert Hrun. generalize (start t).
  induction before as [|a before IH]; intros s0; simpl.
  - by intros [= ->].
  - destruct (perform a s0); [apply IH | discriminate].
Qed.




Lemma sendKexInitLocked_inbox t isFirst :
  inbox (pconn (conn (sendKexInitLocked t isFirst).1)) = inbox (pconn (conn t)).
Proof.
  unfold sendKexInitLocked. destruct (sentInitMsg t); [done |].
  simpl. by destruct (default None (head (wscript (pconn (conn t))))).
Qed.

Lemma readOnePacket_rekey_inbox t :
  inbox (pconn (conn (readOnePacket_rekey t).1)) = inbox (pconn (conn t)).
Proof.
  unfold readOnePacket_rekey, requestKeyChange, sendKexInit.
  case_decide; [|done]. simpl.
  pose proof (sendKexInitLocked_inbox t subsequentKeyExchange) as Hinbox.
  by destruct (sendKexInitLocked t subsequentKeyExchange).
Qed.






Lemma writePacket_loop_refuses t p b :
  first_byte p = Some b → b = msgKexInit ∨ b = msgNewKeys →
  ∃ t' w, writePacket_loop t p = (t', w)
          ∧ conn t' = conn t
          ∧ (mustWait t → w = Parked)
          ∧ (¬ mustWait t → ∃ e, w = Returned (Some e)).
Proof.
  intros Hb Hkind. unfold writePacket_loop, mustWait.
  destruct (bool_decide (is_Some (sentInitMsg t))) eqn:Hsent;
    destruct (bool_decide (writeError t = None)) eqn:Herr; simpl.
  - apply bool_decide_eq_true_1 in Hsent, Herr.
    eexists _, _. split_and!; [done | done | done |]. by intros [].
  - apply bool_decide_eq_false_1 in Herr.
    destruct (writeError t) as [e|]; [|done].
    eexists _, _. split_and!; [done | done | by intros [_ ?] | eauto].
  - apply bool_decide_eq_false_1 in Hsent. apply bool_decide_eq_true_1 in Herr.
    rewrite Herr, Hb.
    destruct (decide (b = msgKexInit)).
    + eexists _, _. split_and!; [done | done | by intros [? _] | eauto].
    + destruct Hkind as [?|Hnew]; [done |]. rewrite decide_True by done.
      eexists _, _. split_and!; [done | done | by intros [? _] | eauto].
  - apply bool_decide_eq_false_1 in Herr.
    destruct (writeError t) as [e|]; [|done].
    eexists _, _. split_and!; [done | done | by intros [_ ?] | eauto].
Qed.

(** The transport after the rekey request that [writePacket] may make
    before it looks at the packet. *)
Lemma sendKexInitLocked_written t isFirst :
  let t' := (sendKexInitLocked t isFirst).1 in
  written (pconn (conn t')) = written (pconn (conn t))
  ∨ ∃ msg, written (pconn (conn t')) = written (pconn (conn t)) ++ [Marshal msg].
Proof.
  unfold sendKexInitLocked. destruct (sentInitMsg t); simpl; [by left |].
  right. repeat case_match; simpl; eauto.
Qed.

(** C4.  A packet that starts with the KEXINIT or NEWKEYS message type is
    never handed to the connection by [writePacket]: the call, on entry and
    on every wake-up, waits as long as it has to and then returns an error.
    The only thing it may write is the transport's own KEXINIT, sent by
    [sendKexInitLocked] when the rekey threshold is passed. *)
Theorem writePacket_refuses_kexinit_and_newkeys t p b :
  first_byte p = Some b → b = msgKexInit ∨ b = msgNewKeys →
  let rekeyed :=
    if decide (RekeyThreshold (config t) < writtenSinceKex t)
    then (sendKexInitLocked t subsequentKeyExchange).1 else t in
  (∃ t' w, writePacket t p = (t', w)
           ∧ conn t' = conn rekeyed
           ∧ (mustWait rekeyed → w = Parked)
           ∧ (¬ mustWait rekeyed → ∃ e, w = Returned (Some e)))
  ∧ (written (pconn (conn rekeyed)) = written (pconn (conn t))
     ∨ ∃ msg, written (pconn (conn rekeyed))
              = written (pconn (conn t)) ++ [Marshal msg])
  ∧ (∃ t' w, writePacket_wake t p = (t', w)
             ∧ conn t' = conn t
             ∧ (mustWait t → w = Parked)
             ∧ (¬ mustWait t → ∃ e, w = Returned (Some e))).
Proof.
  intros Hb Hkind rekeyed. split_and!.
  - unfold writePacket. fold rekeyed. by eapply writePacket_loop_refuses.
  - subst rekeyed. case_decide; [apply sendKexInitLocked_written | by left].
  - unfold writePacket_wake. by eapply writePacket_loop_refuses.
Qed.

(** C2.  With key-exchange algorithms that give an exchange hash, in every
    state the goroutines can reach the session identifier and the key
    changes belong together: there is no identifier before the first key
    change, and afterwards the identifier is the exchange hash of the first
    key change.  Once it is set it stays: whatever happens next, rekeys
    included, the identifier is the same and every key change handed to
    the connection carries it. *)
Theorem sessionID_fixed_by_first_exchange s :
  hashesPresent → reachable s →
  sessionFixed (transport s)
  ∧ ∀ sid actions s',
      sessionID (transport s) = Some sid → run actions s = Some s' →
      sessionID (transport s') = Some sid
      ∧ (∃ first, head (keyChanges (conn (transport s'))) = Some first
                  ∧ H first.2 = Some sid)
      ∧ ∀ change, change ∈ keyChanges (conn (transport s')) →
                  SessionID change.2 = Some sid.
Proof.
  intros Hhash (t & before & Hfresh & Hrun).
  assert (sessionFixed (transport s)) as Hfixed.
  { apply run_session in Hrun as [_ Hfixed].
    apply Hfixed; [done | by apply sessionFixed_fresh]. }
  split; [done |].
  intros sid actions s' Hsid Hmore.
  apply run_session in Hmore as [Hstable Hfixed'].
  specialize (Hstable sid Hsid). specialize (Hfixed' Hhash Hfixed).
  unfold sessionFixed in Hfixed'. rewrite Hstable in Hfixed'.
  by split.
Qed.

Lemma earliestCommon_heads client server c :
  earliestCommon client server c → is_Some (head client) ∧ is_Some (head server).
Proof.
  intros (before & after & -> & Hin & _). split.
  - by destruct before.
  - destruct server; [inversion Hin | done].
Qed.

Lemma findAgreedAlgorithms_heads c s algs :
  findAgreedAlgorithms c s = inl algs →
  is_Some (head (KexAlgos c)) ∧ is_Some (head (KexAlgos s))
  ∧ is_Some (head (ServerHostKeyAlgos c)) ∧ is_Some (head (ServerHostKeyAlgos s)).
Proof.
  intros Hagreed.
  pose proof (findAgreedAlgorithms_lookups c s) as Hlookups.
  rewrite Hagreed in Hlookups.
  destruct (firstFailure categories c s); [discriminate |].
  destruct Hlookups as (algs' & _ & Hkex & Hhost & _).
  apply earliestCommon_heads in Hkex as [? ?].
  apply earliestCommon_heads in Hhost as [? ?]. done.
Qed.

Lemma skipGuessedPacket_reads t otherInit clientInit serverInit :
  let t' := (skipGuessedPacket t otherInit clientInit serverInit).1 in
  let extra := guessedWrong otherInit clientInit serverInit in
  nread (pconn (conn t')) = (nread (pconn (conn t)) + (if extra then 1 else 0))%nat
  ∧ inbox (pconn (conn t'))
    = (if extra then tail (inbox (pconn (conn t))) else inbox (pconn (conn t)))
  ∧ written (pconn (conn t')) = written (pconn (conn t))
  ∧ match (skipGuessedPacket t otherInit clientInit serverInit).2 with
    | None => extra = true → inbox (pconn (conn t)) ≠ []
    | Some e => extra = true ∧ inbox (pconn (conn t)) = []
    end.
Proof.
  unfold skipGuessedPacket.
  destruct (guessedWrong otherInit clientInit serverInit); simpl.
  - unfold conn_readPacket.
    destruct (inbox (pconn (conn t))) as [|p rest]; simpl;
      split_and!; try done; lia.
  - split_and!; try done; lia.
Qed.

(** C7, as the code has it.  Once this side's KEXINIT is out, the peer's is
    parsed and the algorithms are agreed, the key exchange proper starts
    after exactly one more packet was read and dropped when the peer's
    KEXINIT has the first-kex-packet-follows flag and the two sides list a
    different key-exchange algorithm first or a different host-key
    algorithm first, and after no further read otherwise.  When this side's
    KEXINIT cannot be sent, the peer's cannot be parsed, or no algorithms
    are agreed, nothing is read. *)
Theorem enterKeyExchangeLocked_drops_wrong_guess t otherInitPacket :
  let sent := sendKexInitLocked t subsequentKeyExchange in
  let done := enterKeyExchangeLocked t otherInitPacket in
  match sent.2, Unmarshal otherInitPacket with
  | inl (myInit, myInitPacket), inl otherInit =>
      let clientInit := clientInitOf t myInit otherInit in
      let serverInit := serverInitOf t myInit otherInit in
      match findAgreedAlgorithms clientInit serverInit with
      | inl algs =>
          ∃ clientKex serverKex clientHostKey serverHostKey t2,
            KexAlgos clientInit !! 0%nat = Some clientKex
            ∧ KexAlgos serverInit !! 0%nat = Some serverKex
            ∧ ServerHostKeyAlgos clientInit !! 0%nat = Some clientHostKey
            ∧ ServerHostKeyAlgos serverInit !! 0%nat = Some serverHostKey
            ∧ let extra :=
                FirstKexFollows otherInit
                && (bool_decide (clientKex ≠ serverKex)
                    || bool_decide (clientHostKey ≠ serverHostKey)) in
              (extra = true ↔
               FirstKexFollows otherInit = true
               ∧ preferencesDiffer clientInit serverInit)
              ∧ nread (pconn (conn t2))
                = (nread (pconn (conn sent.1)) + (if extra then 1 else 0))%nat
              ∧ inbox (pconn (conn t2))
                = (if extra then tail (inbox (pconn (conn sent.1)))
                   else inbox (pconn (conn sent.1)))
              ∧ written (pconn (conn t2)) = written (pconn (conn sent.1))
              ∧ (done = runKeyExchange t2 algs (magicsOf t myInitPacket otherInitPacket)
                 ∨ (extra = true ∧ inbox (pconn (conn sent.1)) = []
                    ∧ done = (t2, Some (inboxErr (pconn (conn sent.1))))))
      | inr e => done.2 = Some e ∧ pconn (conn done.1) = pconn (conn sent.1)
      end
  | inl _, inr e => done.2 = Some e ∧ pconn (conn done.1) = pconn (conn sent.1)
  | inr e, _ => done.2 = Some e ∧ pconn (conn done.1) = pconn (conn sent.1)
  end.
Proof.
  cbv zeta. unfold enterKeyExchangeLocked.
  pose proof (sendKexInitLocked_keeps t subsequentKeyExchange) as Hsend.
  destruct (sendKexInitLocked t subsequentKeyExchange) as [t1 [[myInit myPacket]|e]];
    cbv zeta in Hsend; simpl in Hsend; simpl; [|done].
  destruct Hsend as (_ & _ & (Hkeys & Hcv & Hsv) & _).
  set (t2 := if Verbose (config t1) then _ else t1).
  assert (conn t2 = conn t1 ∧ hostKeys t2 = hostKeys t1
          ∧ clientVersion t2 = clientVersion t1
          ∧ serverVersion t2 = serverVersion t1) as (Hconn2 & Hkeys2 & Hcv2 & Hsv2).
  { subst t2. destruct (Verbose (config t1)); [|done].
    unfold logTo. by destruct (ConnLog (config t1)). }
  clearbody t2.
  destruct (Unmarshal otherInitPacket) as [otherInit|e];
    [|simpl; by rewrite Hconn2].
  set (t3 := set_config _ t2).
  assert (conn t3 = conn t2 ∧ hostKeys t3 = hostKeys t2
          ∧ clientVersion t3 = clientVersion t2
          ∧ serverVersion t3 = serverVersion t2) as (Hconn3 & Hkeys3 & Hcv3 & Hsv3).
  { subst t3. unfold logTo. by destruct (ConnLog (config t2)). }
  clearbody t3.
  unfold clientInitOf, serverInitOf, magicsOf.
  rewrite ?Hkeys3, ?Hkeys2, ?Hkeys, ?Hcv3, ?Hcv2, ?Hcv, ?Hsv3, ?Hsv2, ?Hsv.
  set (clientInit := if bool_decide _ then myInit else otherInit).
  set (serverInit := if bool_decide _ then otherInit else myInit).
  destruct (findAgreedAlgorithms clientInit serverInit) as [algs|e] eqn:Hagreed;
    [|simpl; by rewrite Hconn3, Hconn2].
  apply findAgreedAlgorithms_heads in Hagreed
    as ([ck Hck] & [sk Hsk] & [ch Hch] & [sh Hsh]).
  set (t4 := set_config _ t3).
  assert (conn t4 = conn t1) as Hconn4.
  { subst t4. unfold logTo. destruct (ConnLog (config t3)); simpl; congruence. }
  clearbody t4.
  pose proof (skipGuessedPacket_reads t4 otherInit clientInit serverInit) as Hskip.
  cbv zeta in Hskip. rewrite Hconn4 in Hskip.
  assert (guessedWrong otherInit clientInit serverInit
          = FirstKexFollows otherInit
            && (bool_decide (ck ≠ sk) || bool_decide (ch ≠ sh))) as Hguess.
  { unfold guessedWrong. rewrite Hck, Hsk, Hch, Hsh. f_equal. f_equal.
    - apply bool_decide_ext. split; congruence.
    - apply bool_decide_ext. split; congruence. }
  rewrite Hguess in Hskip.
  assert (FirstKexFollows otherInit
          && (bool_decide (ck ≠ sk) || bool_decide (ch ≠ sh)) = true
          ↔ FirstKexFollows otherInit = true
            ∧ preferencesDiffer clientInit serverInit) as Hdiffer.
  { unfold preferencesDiffer. rewrite Hck, Hsk, Hch, Hsh.
    rewrite andb_true_iff, orb_true_iff, !bool_decide_eq_true.
    split; intros [Hflag [Hkex|Hhost]]; (split; [exact Hflag |]);
      ((left; congruence) || (right; congruence)). }
  destruct (skipGuessedPacket t4 otherInit clientInit serverInit) as [t5 [e|]]
    eqn:Hskipped; simpl in Hskip;
    destruct Hskip as (Hnread & Hinbox & Hwritten & Hcase).
  - exists ck, sk, ch, sh, t5. rewrite <- !head_lookup.
    split_and!; try done. right. destruct Hcase as [Hextra Hempty].
    split_and!; [done | done |].
    unfold skipGuessedPacket in Hskipped. rewrite Hguess, Hextra in Hskipped.
    unfold conn_readPacket in Hskipped. rewrite Hconn4, Hempty in Hskipped.
    simpl in Hskipped. by injection Hskipped as <- <-.
  - exists ck, sk, ch, sh, t5. rewrite <- !head_lookup.
    split_and!; try done. by left.
Qed.

(** C10.  [SetDefaults] keeps, in their order, exactly the cipher names that
    have an entry in [cipherModes], of the caller's list when there is one
    and of the default list otherwise; and the KEXINIT that a transport with
    such a configuration builds offers these names, in both directions, and
    no other cipher. *)
Theorem SetDefaults_offers_registered_ciphers_only c t isFirst :
  config t = SetDefaults c → sentInitMsg t = None →
  let offered :=
    filter (λ name, is_Some (cipherModes !! name))
      (default defaultCiphers (Ciphers c)) in
  elems (Ciphers (SetDefaults c)) = offered
  ∧ (∀ name, name ∈ offered → is_Some (cipherModes !! name))
  ∧ match sendKexInitLocked t isFirst with
    | (t', inl (msg, packet)) =>
        CiphersClientServer msg = offered
        ∧ CiphersServerClient msg = offered
        ∧ packet = Marshal msg
        ∧ written (pconn (conn t')) = written (pconn (conn t)) ++ [packet]
    | (t', inr _) => sentInitMsg t' = None
    end.
Proof.
  intros Hconfig Hsent offered.
  assert (∀ l, SetDefaults_ciphers l
               = filter (λ name, is_Some (cipherModes !! name)) l) as Hfilter.
  { induction l as [|name l IH]; [done |]. simpl.
    rewrite filter_cons, IH. by destruct (decide (is_Some (cipherModes !! name))). }
  assert (elems (Ciphers (SetDefaults c)) = offered) as Hciphers.
  { unfold SetDefaults. simpl. rewrite Hfilter. subst offered.
    assert (elems (match Ciphers c with
                   | Some cs => Some cs
                   | None => Some defaultCiphers
                   end) = default defaultCiphers (Ciphers c)) as ->
      by (by destruct (Ciphers c)).
    by destruct (filter _ _). }
  split_and!; [done | |].
  - intros name Hin. subst offered. by apply list_elem_of_filter in Hin as [? _].
  - unfold sendKexInitLocked. rewrite Hsent, Hconfig, Hciphers. simpl.
    destruct (default None (head (wscript (pconn (conn t))))); simpl; [done |].
    by split_and!.
Qed.

End TransportFacts.

(** *** The channel-open registry *)

Lemma handleChannelOpens_clears c ins c' :
  handleChannelOpens c ins = Some c' → channelHandlers c' = None.
Proof.
  revert c. induction ins as [|ch ins IH]; intros c; simpl.
  - by intros [= <-].
  - destruct (handleChannelOpens_body c ch); [apply IH | discriminate].
Qed.

(** C9.  On a live registry the first [HandleChannelOpen] for a type makes
    and registers a new queue that is open, empty and has room for sixteen
    channel-opens, so that the dispatcher delivers the next channel-open of
    that type to it; a second call for the type gives the nil channel and
    changes nothing.  When the registry is cleared, which is how
    [handleChannelOpens] leaves it when the connection is gone, every call
    gives a new queue that is closed already, and receiving from it
    returns at once. *)
Theorem HandleChannelOpen_once_per_type c channelType :
  (∀ handlers,
     channelHandlers c = Some handlers → handlers !! channelType = None →
     ∃ c1 ch,
       HandleChannelOpen c channelType = (c1, Some ch)
       ∧ queues c !! ch = None
       ∧ queues c1 !! ch = Some (make_chan 16)
       ∧ channelHandlers c1 = Some (<[channelType := ch]> handlers)
       ∧ chan_recv (make_chan 16 : chan NewChannel) = None
       ∧ (∀ open, ChannelType open = channelType →
            ∃ c2 q,
              handleChannelOpens_body c1 open = Some c2
              ∧ queues c2 !! ch = Some q
              ∧ chan_recv q = Some (make_chan 16, Some open))
       ∧ HandleChannelOpen c1 channelType = (c1, None))
  ∧ (∀ handlers ch,
       channelHandlers c = Some handlers → handlers !! channelType = Some ch →
       HandleChannelOpen c channelType = (c, None))
  ∧ (channelHandlers c = None →
     ∃ c1 ch q,
       HandleChannelOpen c channelType = (c1, Some ch)
       ∧ queues c !! ch = None
       ∧ queues c1 !! ch = Some q
       ∧ chanClosed q = true
       ∧ chan_recv q = Some (q, None)
       ∧ channelHandlers c1 = None)
  ∧ (∀ ins c', handleChannelOpens c ins = Some c' → channelHandlers c' = None).
Proof.
  split_and!.
  - intros handlers Hlive Hfree. unfold HandleChannelOpen.
    rewrite Hlive, Hfree. eexists _, _. split; [done |]. simpl.
    assert ((queues c ++ [make_chan 16]) !! length (queues c)
            = Some (make_chan 16 : chan NewChannel)) as Hnew
      by (by rewrite list_lookup_middle).
    split_and!; try done.
    + by apply lookup_ge_None_2.
    + intros open Htype. unfold handleChannelOpens_body. simpl.
      rewrite Htype, lookup_insert_eq, Hnew. simpl.
      eexists _, _. split; [done |]. simpl. split.
      * apply list_lookup_insert_eq. rewrite length_app. simpl. lia.
      * done.
    + by rewrite lookup_insert_eq.
  - intros handlers ch Hlive Htaken. unfold HandleChannelOpen.
    by rewrite Hlive, Htaken.
  - intros Hcleared. unfold HandleChannelOpen. rewrite Hcleared.
    eexists _, _, _. split; [done |]. simpl.
    split_and!; [by apply lookup_ge_None_2 | by rewrite list_lookup_middle | done..].
  - apply handleChannelOpens_clears.
Qed.

(** *** Wire encoding helpers *)

Lemma to_byte_value n : Z.of_N (Byte.to_N (to_byte n)) = n mod 256.
Proof.
  unfold to_byte.
  assert (0 ≤ n mod 256 < 256) as Hrange by (apply Z.mod_pos_bound; lia).
  destruct (Byte.of_N (Z.to_N (n mod 256))) as [b|] eqn:Hb.
  - apply Byte.to_of_N in Hb. simpl. rewrite Hb. lia.
  - apply Byte.of_N_None_iff in Hb. lia.
Qed.

Lemma shiftr_byte n k : 0 ≤ k → (n ≫ k) mod 256 = (n / 2 ^ k) mod 256.
Proof. intros Hk. by rewrite Z.shiftr_div_pow2. Qed.

Lemma split_low_byte n k :
  0 ≤ k → n mod 2 ^ (k + 8) = (n / 2 ^ k) mod 256 * 2 ^ k + n mod 2 ^ k.
Proof.
  intros Hk. rewrite Z.pow_add_r by lia.
  rewrite Z.rem_mul_r by lia. change (2 ^ 8) with 256. lia.
Qed.

Lemma appendU16_value n :
  bigEndian [to_byte (n ≫ 8); to_byte n] = n mod 2 ^ 16.
Proof.
  unfold bigEndian. cbn [fold_left]. rewrite !to_byte_value, !shiftr_byte by lia.
  change 16 with (8 + 8). rewrite (split_low_byte n 8) by lia.
  change (2 ^ 8) with 256. lia.
Qed.

Lemma appendU32_value n :
  bigEndian [to_byte (n ≫ 24); to_byte (n ≫ 16); to_byte (n ≫ 8); to_byte n]
  = n mod 2 ^ 32.
Proof.
  unfold bigEndian. cbn [fold_left]. rewrite !to_byte_value, !shiftr_byte by lia.
  change 32 with (24 + 8). rewrite (split_low_byte n 24) by lia.
  change 24 with (16 + 8). rewrite (split_low_byte n 16) by lia.
  change 16 with (8 + 8). rewrite (split_low_byte n 8) by lia.
  change (2 ^ 8) with 256. lia.
Qed.

Lemma appendU64_value n :
  bigEndian [to_byte (n ≫ 56); to_byte (n ≫ 48); to_byte (n ≫ 40); to_byte (n ≫ 32);
             to_byte (n ≫ 24); to_byte (n ≫ 16); to_byte (n ≫ 8); to_byte n]
  = n mod 2 ^ 64.
Proof.
  unfold bigEndian. cbn [fold_left]. rewrite !to_byte_value, !shiftr_byte by lia.
  change 64 with (56 + 8). rewrite (split_low_byte n 56) by lia.
  change 56 with (48 + 8). rewrite (split_low_byte n 48) by lia.
  change 48 with (40 + 8). rewrite (split_low_byte n 40) by lia.
  change 40 with (32 + 8). rewrite (split_low_byte n 32) by lia.
  change 32 with (24 + 8). rewrite (split_low_byte n 24) by lia.
  change 24 with (16 + 8). rewrite (split_low_byte n 16) by lia.
  change 16 with (8 + 8). rewrite (split_low_byte n 8) by lia.
  change (2 ^ 8) with 256. lia.
Qed.

(** X1.  The integer encoders append the big-endian bytes of the number, two,
    four or eight of them, and leave the buffer before them alone;
    [appendInt] appends the four bytes of the low 32 bits of its [int].  So
    two 32-bit numbers with the same encoding are the same number. *)
Theorem append_integers_big_endian buf n :
  (∃ bs, appendU16 buf n = buf ++ bs ∧ length bs = 2%nat
         ∧ bigEndian bs = n mod 2 ^ 16)
  ∧ (∃ bs, appendU32 buf n = buf ++ bs ∧ length bs = 4%nat
           ∧ bigEndian bs = n mod 2 ^ 32)
  ∧ (∃ bs, appendU64 buf n = buf ++ bs ∧ length bs = 8%nat
           ∧ bigEndian bs = n mod 2 ^ 64)
  ∧ (∃ bs, appendInt buf n = buf ++ bs ∧ length bs = 4%nat
           ∧ bigEndian bs = n mod 2 ^ 32)
  ∧ (∀ buf' m, is_uint32 n → is_uint32 m →
               length buf = length buf' →
               appendU32 buf n = appendU32 buf' m → buf = buf' ∧ n = m).
Proof.
  split_and!.
  - eexists. split_and!; [done | done | apply appendU16_value].
  - eexists. split_and!; [done | done | apply appendU32_value].
  - eexists. split_and!; [done | done | apply appendU64_value].
  - eexists. split_and!; [done | done |].
    rewrite appendU32_value. unfold wrap32. apply Z.mod_mod. lia.
  - intros buf' m Hn Hm Hlen Heq. unfold appendU32 in Heq.
    apply app_inj_1 in Heq as [-> Hbytes]; [|done]. split; [done |].
    apply (f_equal bigEndian) in Hbytes. rewrite !appendU32_value in Hbytes.
    unfold is_uint32, uint32_max in *.
    rewrite !Z.mod_small in Hbytes by lia. done.
Qed.

Lemma length_list_byte_of_string s :
  length (String.list_byte_of_string s) = String.length s.
Proof.
  unfold String.list_byte_of_string. rewrite length_map.
  induction s as [|a s IH]; simpl; [done | by rewrite IH].
Qed.

Lemma list_byte_of_string_inj s1 s2 :
  String.list_byte_of_string s1 = String.list_byte_of_string s2 → s1 = s2.
Proof.
  intros Heq. apply (f_equal String.string_of_list_byte) in Heq.
  by rewrite !String.string_of_list_byte_of_string in Heq.
Qed.

(** X2.  [appendString] puts the length of the string in four bytes before
    its bytes.  For strings shorter than 2^32 bytes the framing is
    unambiguous: when two strings appended to the same buffer and followed
    by anything give the same bytes, the strings are the same and so is what
    follows them. *)
Theorem appendString_unambiguous buf s1 s2 :
  Z.of_nat (String.length s1) ≤ uint32_max →
  Z.of_nat (String.length s2) ≤ uint32_max →
  length (appendString buf s1) = (length buf + 4 + String.length s1)%nat
  ∧ ∀ rest1 rest2,
      appendString buf s1 ++ rest1 = appendString buf s2 ++ rest2 →
      s1 = s2 ∧ rest1 = rest2.
Proof.
  intros Hlen1 Hlen2. split.
  - unfold appendString, appendU32.
    rewrite !length_app, length_list_byte_of_string. simpl. lia.
  - intros rest1 rest2 Heq. unfold appendString, appendU32 in Heq.
    rewrite <- !app_assoc in Heq. apply app_inv_head in Heq.
    apply app_inj_1 in Heq as [Hprefix Hrest]; [|done].
    apply (f_equal bigEndian) in Hprefix. rewrite !appendU32_value in Hprefix.
    unfold wrap32, uint32_max in *.
    rewrite !Z.mod_mod, !Z.mod_small in Hprefix by lia.
    apply app_inj_1 in Hrest as [Hbytes Hrest].
    + split; [by apply list_byte_of_string_inj | done].
    + rewrite !length_list_byte_of_string. lia.
Qed.

(** *** Negotiation, further *)

Lemma firstFailure_disjoint cats c s e :
  firstFailure cats c s = Some e →
  ∃ cat, cat ∈ cats ∧ disjointOffers c s cat.
Proof.
  unfold firstFailure. intros Hsome.
  destruct (list_find (disjointOffers c s) cats) as [[i cat]|] eqn:Hfind;
    [|discriminate].
  apply list_find_Some in Hfind as (Hcat & Hdisjoint & _).
  exists cat. split; [by eapply list_elem_of_lookup_2 | done].
Qed.

(** X3.  [findCommon] gives an error exactly when the two lists share no
    entry, and the error carries the category and both lists as they were
    offered; in particular an empty list on either side is an error.  A
    name it returns is in both lists. *)
Theorem findCommon_fails_iff_disjoint what client server :
  (∀ e, findCommon what client server = inr e ↔
        (∀ x, x ∈ client → x ∉ server)
        ∧ e = NoCommonAlgorithm what client server)
  ∧ (∀ c, findCommon what client server = inl c → c ∈ client ∧ c ∈ server)
  ∧ findCommon what [] server = inr (NoCommonAlgorithm what [] server)
  ∧ findCommon what client [] = inr (NoCommonAlgorithm what client []).
Proof.
  split_and!.
  - intros e. unfold findCommon.
    destruct (findCommon_client client server) as [c|] eqn:Hfound.
    + split; [discriminate |]. intros [Hdisjoint _].
      apply findCommon_client_None in Hdisjoint. congruence.
    + pose proof (proj1 (findCommon_client_None _ _) Hfound) as Hdisjoint.
      split.
      * by intros [= <-].
      * by intros [_ ->].
  - intros c. unfold findCommon.
    destruct (findCommon_client client server) as [c'|] eqn:Hfound;
      [|discriminate].
    intros [= <-].
    apply findCommon_client_Some in Hfound as (before & after & -> & Hin & _).
    split; [|done]. apply elem_of_app. right. left.
  - done.
  - unfold findCommon.
    assert (findCommon_client client [] = None) as ->; [|done].
    apply findCommon_client_None. intros x _ Hin. inversion Hin.
Qed.

Lemma earliestCommon_head client server c :
  head client = Some c → c ∈ server → earliestCommon client server c.
Proof.
  intros Hhead Hin. destruct client as [|c' client]; [discriminate |].
  injection Hhead as ->. exists [], client. split_and!; [done | done |].
  intros x Hx. inversion Hx.
Qed.

(** X4.  When the server offers, in each of the eight categories, the name
    the client lists first, the negotiation succeeds with the client's
    first choices, whatever else and in whatever order the server
    offers. *)
Theorem findAgreedAlgorithms_client_first_choices c s :
  (∀ cat, cat ∈ categories → ∃ x, head (cat.2 c) = Some x ∧ x ∈ cat.2 s) →
  ∃ algs,
    findAgreedAlgorithms c s = inl algs
    ∧ head (KexAlgos c) = Some (Kex algs)
    ∧ head (ServerHostKeyAlgos c) = Some (HostKey algs)
    ∧ head (CiphersClientServer c) = Some (Cipher (W algs))
    ∧ head (CiphersServerClient c) = Some (Cipher (R algs))
    ∧ head (MACsClientServer c) = Some (MAC (W algs))
    ∧ head (MACsServerClient c) = Some (MAC (R algs))
    ∧ head (CompressionClientServer c) = Some (Compression (W algs))
    ∧ head (CompressionServerClient c) = Some (Compression (R algs)).
Proof.
  intros Hoffered.
  assert (∀ what sel, (what, sel) ∈ categories →
            ∀ x, earliestCommon (sel c) (sel s) x → head (sel c) = Some x)
    as Hfirst.
  { intros what sel Hcat x Hx.
    destruct (Hoffered _ Hcat) as (y & Hhead & Hin). simpl in *.
    rewrite Hhead. f_equal.
    eapply earliestCommon_functional; [|exact Hx].
    by apply earliestCommon_head. }
  pose proof (findAgreedAlgorithms_lookups c s) as Hlookups.
  destruct (firstFailure categories c s) as [e|] eqn:Hfail.
  - exfalso. apply firstFailure_disjoint in Hfail as (cat & Hcat & Hdisjoint).
    destruct (Hoffered cat Hcat) as (x & Hhead & Hin).
    apply (Hdisjoint x); [|done].
    destruct (cat.2 c); [discriminate |]. injection Hhead as ->. left.
  - destruct Hlookups as (algs & Hagreed & H1 & H2 & H3 & H4 & H5 & H6 & H7 & H8).
    exists algs. split; [done |].
    split_and!.
    + apply (Hfirst "key exchange" KexAlgos); [|done].
      unfold categories.
      repeat first [by apply list_elem_of_here | apply list_elem_of_further].
    + apply (Hfirst "host key" ServerHostKeyAlgos); [|done].
      unfold categories.
      repeat first [by apply list_elem_of_here | apply list_elem_of_further].
    + apply (Hfirst "client to server cipher" CiphersClientServer); [|done].
      unfold categories.
      repeat first [by apply list_elem_of_here | apply list_elem_of_further].
    + apply (Hfirst "server to client cipher" CiphersServerClient); [|done].
      unfold categories.
      repeat first [by apply list_elem_of_here | apply list_elem_of_further].
    + apply (Hfirst "client to server MAC" MACsClientServer); [|done].
      unfold categories.
      repeat first [by apply list_elem_of_here | apply list_elem_of_further].
    + apply (Hfirst "server to client MAC" MACsServerClient); [|done].
      unfold categories.
      repeat first [by apply list_elem_of_here | apply list_elem_of_further].
    + apply (Hfirst "client to server compression" CompressionClientServer);
        [|done].
      unfold categories.
      repeat first [by apply list_elem_of_here | apply list_elem_of_further].
    + apply (Hfirst "server to client compression" CompressionServerClient);
        [|done].
      unfold categories.
      repeat first [by apply list_elem_of_here | apply list_elem_of_further].
Qed.

(** *** The goroutines around a window *)

Lemma inside_cons r rs : inside (r :: rs) = inside [r] + inside rs.
Proof. unfold inside. cbn. destruct r; lia. Qed.

Lemma grantedTotal_cons r rs :
  grantedTotal (r :: rs) = grantedTotal [r] + grantedTotal rs.
Proof. unfold grantedTotal. cbn. destruct r; lia. Qed.

Lemma inside_wake rs : inside (wake rs) = inside rs.
Proof.
  induction rs as [|r rs IH]; [done |].
  unfold wake. cbn [map]. fold (wake rs).
  rewrite (inside_cons _ (wake rs)), (inside_cons r rs), IH. by destruct r.
Qed.

Lemma grantedTotal_wake rs : grantedTotal (wake rs) = grantedTotal rs.
Proof.
  induction rs as [|r rs IH]; [done |].
  unfold wake. cbn [map]. fold (wake rs).
  rewrite (grantedTotal_cons _ (wake rs)), (grantedTotal_cons r rs), IH.
  by destruct r.
Qed.

Lemma inside_app rs rs' : inside (rs ++ rs') = inside rs + inside rs'.
Proof.
  induction rs as [|r rs IH]; [done |]. cbn [app].
  rewrite (inside_cons r (rs ++ rs')), (inside_cons r rs), IH. lia.
Qed.

Lemma grantedTotal_app rs rs' :
  grantedTotal (rs ++ rs') = grantedTotal rs + grantedTotal rs'.
Proof.
  induction rs as [|r rs IH]; [done |]. cbn [app].
  rewrite (grantedTotal_cons r (rs ++ rs')), (grantedTotal_cons r rs), IH. lia.
Qed.

Lemma inside_insert rs i r r' :
  rs !! i = Some r →
  inside (<[i := r']> rs) = inside rs - inside [r] + inside [r'].
Proof.
  revert i. induction rs as [|r0 rs IH]; intros i Hi; [done |].
  destruct i as [|i]; cbn in Hi.
  - injection Hi as ->. change (<[0%nat:=r']> (r :: rs)) with (r' :: rs).
    rewrite (inside_cons r' rs), (inside_cons r rs). lia.
  - change (<[S i:=r']> (r0 :: rs)) with (r0 :: <[i:=r']> rs).
    specialize (IH i Hi).
    rewrite (inside_cons r0 (<[i:=r']> rs)), (inside_cons r0 rs), IH. lia.
Qed.

Lemma grantedTotal_insert rs i r r' :
  rs !! i = Some r →
  grantedTotal (<[i := r']> rs)
  = grantedTotal rs - grantedTotal [r] + grantedTotal [r'].
Proof.
  revert i. induction rs as [|r0 rs IH]; intros i Hi; [done |].
  destruct i as [|i]; cbn in Hi.
  - injection Hi as ->. change (<[0%nat:=r']> (r :: rs)) with (r' :: rs).
    rewrite (grantedTotal_cons r' rs), (grantedTotal_cons r rs). lia.
  - change (<[S i:=r']> (r0 :: rs)) with (r0 :: <[i:=r']> rs).
    specialize (IH i Hi).
    rewrite (grantedTotal_cons r0 (<[i:=r']> rs)), (grantedTotal_cons r0 rs), IH.
    lia.
Qed.

Lemma Sleeping_wake rs want : Sleeping want ∉ wake rs.
Proof.
  unfold wake. intros (r & Hr & _)%list_elem_of_fmap. by destruct r.
Qed.

Lemma Got_wake rs granted err :
  Got granted err ∈ wake rs → Got granted err ∈ rs.
Proof.
  unfold wake. intros (r & Hr & Hin)%list_elem_of_fmap.
  destruct r; by simplify_eq.
Qed.

(** What one pass through the loop of [reserve] does, with a credit that
    is a [uint32]. *)
Lemma window_reserve_loop_cases w want :
  is_uint32 (win w) → is_uint32 want →
  (win w = 0 ∧ closed w = false ∧ window_reserve_loop w want = (w, Waiting))
  ∨ ∃ granted,
      0 ≤ granted ∧ granted ≤ want ∧ granted ≤ win w
      ∧ (granted = want ∨ granted = win w)
      ∧ window_reserve_loop w want
        = ({| win := win w - granted; writeWaiters := writeWaiters w - 1;
              closed := closed w |},
           Granted granted (if closed w then Some EOF else None)).
Proof.
  intros Hw Hwant.
  destruct (decide (win w = 0 ∧ closed w = false)) as [[Hzero Hopen]|Hgo].
  - left. split_and!; [done | done |]. by apply window_reserve_loop_waits.
  - right. exists (Z.min want (win w)).
    rewrite window_reserve_loop_grants; [| done | done |].
    + unfold is_uint32, endOfStream in *. split_and!; try lia. done.
    + destruct (decide (win w = 0)); [|by left].
      right. destruct (closed w); [done |]. by destruct Hgo.
Qed.

Lemma inside_wake_wants rs want :
  Sleeping want ∈ wake rs ∨ Awake want ∈ wake rs →
  Sleeping want ∈ rs ∨ Awake want ∈ rs.
Proof.
  intros [Hin|Hin]; [by apply Sleeping_wake in Hin |].
  unfold wake in Hin. apply list_elem_of_fmap in Hin as (r & Hr & Hin).
  destruct r; simplify_eq; auto.
Qed.

Lemma elem_of_insert_cases {A} (l : list A) i x y :
  y ∈ <[i := x]> l → y = x ∨ y ∈ l.
Proof.
  intros (j & Hj)%list_elem_of_lookup_1.
  destruct (decide (i = j)) as [->|Hne].
  - left. rewrite list_lookup_insert_eq in Hj; [congruence |].
    apply lookup_lt_Some in Hj. by rewrite length_insert in Hj.
  - right. rewrite list_lookup_insert_ne in Hj by done.
    by eapply list_elem_of_lookup_2.
Qed.

Lemma wperform_invariant a s s' :
  uint32Arguments a → wperform a s = Some s' →
  windowInvariant s →
  windowInvariant s'
  ∧ win (wwindow s') + grantedTotal (reservers s')
    = win (wwindow s) + grantedTotal (reservers s)
      + match a with
        | WAdd n => if (window_add (wwindow s) n).2 then n else 0
        | _ => 0
        end
  ∧ (closed (wwindow s) = true → closed (wwindow s') = true).
Proof.
  intros Harg Hstep (Hwin & Hcount & Hsleep & Hgot & Hwants).
  unfold windowInvariant.
  destruct a as [n| |want|i]; cbn in Harg, Hstep.
  - injection Hstep as <-. cbn [wwindow reservers].
    unfold window_add_broadcasts, window_add.
    destruct (decide (n = 0)) as [->|Hn].
    { rewrite bool_decide_eq_true_2 by done. cbn.
      split_and!; [done | done | done | done | done | lia | done]. }
    rewrite (bool_decide_eq_false_2 (n = 0)) by done.
    destruct (decide (wrap32 (win (wwindow s) + n) < n)) as [Hover|Hfits].
    { rewrite bool_decide_eq_true_2 by done. cbn.
      split_and!; [done | done | done | done | done | lia | done]. }
    rewrite bool_decide_eq_false_2 by done. cbn.
    rewrite wrap32_overflow in Hfits by done.
    rewrite wrap32_small by (unfold is_uint32 in *; lia).
    rewrite inside_wake, grantedTotal_wake.
    split_and!; [unfold is_uint32 in *; lia | done | | | | lia | done].
    + intros want Hin. by apply Sleeping_wake in Hin.
    + intros granted err Hin%Got_wake. by apply Hgot.
    + intros want Hin%inside_wake_wants. by apply Hwants.
  - injection Hstep as <-. cbn. rewrite inside_wake, grantedTotal_wake.
    split_and!; [done | done | | | | lia | done].
    + intros want Hin. by apply Sleeping_wake in Hin.
    + intros granted err Hin%Got_wake. destruct (Hgot _ _ Hin). auto.
    + intros want Hin%inside_wake_wants. by apply Hwants.
  - unfold window_reserve in Hstep.
    match type of Hstep with
    | context [window_reserve_loop ?w0 want] =>
        destruct (window_reserve_loop_cases w0 want)
          as [(Hzero & Hopen & Hloop)
             |(granted & Hpos & Hle & Hlew & _ & Hloop)];
        [done | done | |]; rewrite Hloop in Hstep
    end; cbn in *; injection Hstep as <-; cbn;
      rewrite inside_app, grantedTotal_app, inside_wake, grantedTotal_wake;
      unfold inside at 2, grantedTotal at 2; cbn [foldr].
    + split_and!; [done | lia | | | | lia | done].
      * intros want' _. done.
      * intros granted err [Hin%Got_wake|Hin%list_elem_of_singleton]%elem_of_app;
          [by apply Hgot | done].
      * intros want' [[Hin|Hin%list_elem_of_singleton]%elem_of_app
                     |[Hin|Hin%list_elem_of_singleton]%elem_of_app];
          try done.
        -- by apply Sleeping_wake in Hin.
        -- by simplify_eq.
        -- apply Hwants. apply inside_wake_wants. by right.
    + split_and!; [unfold is_uint32 in *; lia | lia | | | | lia | done].
      * intros want' [Hin|Hin%list_elem_of_singleton]%elem_of_app;
          [by apply Sleeping_wake in Hin | done].
      * intros g err [Hin%Got_wake|[= -> ->]%list_elem_of_singleton]%elem_of_app;
          [by apply Hgot |].
        split; [done |]. destruct (closed (wwindow s)); auto.
      * intros want' [[Hin|Hin%list_elem_of_singleton]%elem_of_app
                     |[Hin|Hin%list_elem_of_singleton]%elem_of_app];
          try done.
        -- by apply Sleeping_wake in Hin.
        -- apply Hwants. apply inside_wake_wants. by right.
  - destruct (reservers s !! i) as [[|want|]|] eqn:Hi; try discriminate.
    unfold window_reserve_wake in Hstep.
    assert (is_uint32 want) as Hwant.
    { apply Hwants. right. by eapply list_elem_of_lookup_2. }
    destruct (window_reserve_loop_cases (wwindow s) want)
      as [(Hzero & Hopen & Hloop)|(granted & Hpos & _ & Hlew & _ & Hloop)];
      [done | done | |]; rewrite Hloop in Hstep; cbn in Hstep;
      injection Hstep as <-; cbn;
      rewrite (inside_insert _ _ _ _ Hi), (grantedTotal_insert _ _ _ _ Hi);
      unfold inside at 2 3, grantedTotal at 2 3; cbn [foldr].
    + split_and!; [done | lia | | | | lia | done].
      * intros want' _. done.
      * intros g err [?|Hin]%elem_of_insert_cases; [done | by apply Hgot].
      * intros want' [[?|Hin]%elem_of_insert_cases|[?|Hin]%elem_of_insert_cases];
          try done; try (by simplify_eq); apply Hwants; auto.
    + split_and!; [unfold is_uint32 in *; lia | lia | | | | lia | done].
      * intros want' [?|Hin]%elem_of_insert_cases; [done |].
        destruct (Hsleep _ Hin) as [Hzero Hopen].
        rewrite window_reserve_loop_waits in Hloop by done. discriminate.
      * intros g err [[= -> ->]|Hin]%elem_of_insert_cases; [|by apply Hgot].
        split; [done |]. destruct (closed (wwindow s)); auto.
      * intros want' [[?|Hin]%elem_of_insert_cases|[?|Hin]%elem_of_insert_cases];
          try done; apply Hwants; auto.
Qed.

Lemma wrun_invariant actions s s' :
  Forall uint32Arguments actions → wrun actions s = Some s' →
  windowInvariant s →
  windowInvariant s'
  ∧ win (wwindow s') + grantedTotal (reservers s')
    = win (wwindow s) + grantedTotal (reservers s) + addedTotal actions s
  ∧ (closed (wwindow s) = true → closed (wwindow s') = true).
Proof.
  revert s. induction actions as [|a actions IH]; intros s Hargs; cbn.
  - intros [= <-] Hs. split_and!; [done | lia | done].
  - apply Forall_cons in Hargs as [Harg Hargs].
    destruct (wperform a s) as [s1|] eqn:Hstep; [|discriminate].
    intros Hrun Hs.
    destruct (wperform_invariant a s s1 Harg Hstep Hs) as (Hs1 & Hcredit & Hclosed).
    destruct (IH s1 Hargs Hrun Hs1) as (Hs' & Hcredit' & Hclosed').
    split_and!; [done | lia | auto].
Qed.

Lemma windowInvariant_wstart credit :
  is_uint32 credit → windowInvariant (wstart credit).
Proof.
  intros Hcredit. unfold windowInvariant, wstart. cbn.
  split_and!; [done | done | | |].
  - by intros want ?%elem_of_nil.
  - by intros granted err ?%elem_of_nil.
  - by intros want [?%elem_of_nil|?%elem_of_nil].
Qed.

Lemma inside_nonzero rs :
  0 ≤ inside rs
  ∧ (inside rs ≠ 0 ↔ ∃ want, Sleeping want ∈ rs ∨ Awake want ∈ rs).
Proof.
  induction rs as [|r rs [IHpos IH]].
  - split; [done |]. split; [done |].
    by intros (want & [?%elem_of_nil|?%elem_of_nil]).
  - rewrite inside_cons. destruct r as [want|want|granted err];
      unfold inside at 1 3; cbn [foldr].
    + split; [lia |]. split; [|lia]. intros _. exists want. left.
      apply list_elem_of_here.
    + split; [lia |]. split; [|lia]. intros _. exists want. right.
      apply list_elem_of_here.
    + split; [lia |]. rewrite Z.add_0_l, IH. split.
      * intros (want & [Hin|Hin]); exists want;
          [left | right]; by apply list_elem_of_further.
      * intros (want & [Hin|Hin]); exists want;
          apply elem_of_cons in Hin as [?|Hin]; try done; auto.
Qed.

(** X14.  No wake-up is lost on a window.  However the calls of [add],
    [close] and [reserve] interleave, a goroutine sleeps inside [reserve]
    only while the window is open and without credit: whoever gives credit
    or closes the window wakes every sleeper.  [writeWaiters] counts the
    goroutines inside [reserve], so [waitWriterBlocked] returns exactly
    when some goroutine is inside [reserve]; and a call of [reserve]
    returns an error only on a closed window. *)
Theorem window_no_lost_wakeup credit actions s :
  is_uint32 credit → Forall uint32Arguments actions →
  wrun actions (wstart credit) = Some s →
  (∀ want, Sleeping want ∈ reservers s →
           win (wwindow s) = 0 ∧ closed (wwindow s) = false)
  ∧ writeWaiters (wwindow s) = inside (reservers s)
  ∧ (window_waitWriterBlocked (wwindow s) = true
     ↔ ∃ want, Sleeping want ∈ reservers s ∨ Awake want ∈ reservers s)
  ∧ (∀ granted err, Got granted err ∈ reservers s →
                    is_Some err → closed (wwindow s) = true).
Proof.
  intros Hcredit Hargs Hrun.
  destruct (wrun_invariant actions (wstart credit) s Hargs Hrun)
    as ((_ & Hcount & Hsleep & Hgot & _) & _);
    [by apply windowInvariant_wstart |].
  split_and!; [done | done | |].
  - unfold window_waitWriterBlocked. rewrite Hcount.
    rewrite negb_true_iff, bool_decide_eq_false. apply inside_nonzero.
  - intros granted err Hin [e ->].
    by destruct (Hgot _ _ Hin) as [_ [?|?]].
Qed.

(** X15.  Credit is neither lost nor made on a window.  However the calls
    interleave, the credit left in the window and the amounts granted by
    the calls of [reserve] that returned add up to the credit the window
    started with and the amounts of the calls of [add] that returned
    [true]; the credit stays a [uint32], and a closed window stays
    closed. *)
Theorem window_credit_conserved credit actions s :
  is_uint32 credit → Forall uint32Arguments actions →
  wrun actions (wstart credit) = Some s →
  win (wwindow s) + grantedTotal (reservers s)
  = credit + addedTotal actions (wstart credit)
  ∧ is_uint32 (win (wwindow s))
  ∧ (∀ granted err, Got granted err ∈ reservers s → 0 ≤ granted)
  ∧ ∀ more s', Forall uint32Arguments more → wrun more s = Some s' →
               closed (wwindow s) = true → closed (wwindow s') = true.
Proof.
  intros Hcredit Hargs Hrun.
  destruct (wrun_invariant actions (wstart credit) s Hargs Hrun)
    as (Hs & Hsum & _); [by apply windowInvariant_wstart |].
  split; [|split; [|split]].
  - rewrite Hsum. cbn. unfold grantedTotal. cbn. lia.
  - by destruct Hs as (Hwin & _).
  - intros granted err Hin. destruct Hs as (_ & _ & _ & Hgot & _).
    by destruct (Hgot _ _ Hin).
  - intros more s' Hmore Hrun' Hclosed.
    by destruct (wrun_invariant more s s' Hmore Hrun' Hs) as (_ & _ & Hstays);
      auto.
Qed.

(** *** The goroutines around the registry *)

Lemma teardown_closes (entries : list (string * nat)) (qs : list (chan NewChannel)) :
  let qs' := foldr (λ entry qs, alter close_chan entry.2 qs) qs entries in
  length qs' = length qs
  ∧ ∀ i q', qs' !! i = Some q' →
            ∃ q, qs !! i = Some q
                 ∧ (chanClosed q = true → chanClosed q' = true)
                 ∧ (i ∈ entries.*2 → chanClosed q' = true).
Proof.
  induction entries as [|[channelType j] entries [IHlen IH]]; cbn.
  - split; [done |]. intros i q' Hq'. exists q'.
    split_and!; [done | done | by intros ?%elem_of_nil].
  - split; [by rewrite length_alter |].
    intros i q' Hq'.
    destruct (decide (i = j)) as [->|Hne].
    + rewrite list_lookup_alter_eq in Hq'.
      destruct (foldr _ qs entries !! j) as [q1|] eqn:Hq1; [|discriminate].
      injection Hq' as <-. destruct (IH j q1 Hq1) as (q & Hq & _).
      exists q. by split_and!.
    + rewrite list_lookup_alter_ne in Hq' by done.
      destruct (IH i q' Hq') as (q & Hq & Hstays & Hcloses).
      exists q. split_and!; [done | done |].
      intros [?|Hin]%elem_of_cons; [done | auto].
Qed.

Lemma rperform_registryOK a c c' :
  rperform a c = Some c' → registryOK c → registryOK c'.
Proof.
  unfold registryOK. intros Hstep [Hqueues Hrejected].
  destruct a as [channelType|ch|]; cbn in Hstep.
  - injection Hstep as <-. unfold HandleChannelOpen.
    destruct (channelHandlers c) as [handlers|] eqn:Hlive; cbn.
    + destruct (handlers !! channelType) as [taken|] eqn:Htaken; cbn.
      { rewrite Hlive. by split. }
      destruct Hqueues as (Hvalid & Hopen & Hinj). split; [|done].
      assert (∀ ty, handlers !! ty ≠ Some (length (queues c))) as Hfresh.
      { intros ty Hty. destruct (Hvalid _ _ Hty) as [q Hq].
        apply lookup_lt_Some in Hq. lia. }
      split_and!.
      * intros ty i. rewrite lookup_insert_Some.
        intros [[_ <-]|[_ Hi]].
        -- rewrite list_lookup_middle by done. eauto.
        -- destruct (Hvalid _ _ Hi) as [q Hq]. exists q.
           by apply lookup_app_l_Some.
      * intros i q. rewrite lookup_app_Some.
        intros [Hq|[Hge Hq]].
        -- destruct (Hopen _ _ Hq) as (? & ? & ? & ty & Hty & Hbuf).
           split_and!; try done. exists ty. split; [|done].
           rewrite lookup_insert_ne; [done |]. intros ->.
           by rewrite Htaken in Hty.
        -- apply list_lookup_singleton_Some in Hq as [Hi <-].
           assert (i = length (queues c)) as -> by lia. cbn.
           split_and!; [done | done | lia |]. exists channelType.
           rewrite lookup_insert_eq. split; [done |].
           by intros ? ?%elem_of_nil.
      * intros type1 type2 i. rewrite !lookup_insert_Some.
        intros [[<- <-]|[Hne1 H1]] [[<- Heq]|[Hne2 H2]]; try done.
        -- by destruct (Hfresh type2).
        -- subst i. by destruct (Hfresh type1).
        -- by eapply Hinj.
    + split; [|done]. intros q [Hq| ->%list_elem_of_singleton]%elem_of_app;
        [auto | done].
  - destruct (channelHandlers c) as [handlers|] eqn:Hlive; [|discriminate].
    unfold handleChannelOpens_body in Hstep. rewrite Hlive in Hstep.
    cbn in Hstep. destruct Hqueues as (Hvalid & Hopen & Hinj).
    destruct (handlers !! ChannelType ch) as [handler|] eqn:Hhandler.
    + destruct (queues c !! handler) as [q|] eqn:Hq; [|discriminate].
      unfold chan_send in Hstep. case_decide as Hroom; [|discriminate].
      injection Hstep as <-. cbn. rewrite ?Hlive. split; [|done].
      destruct (Hopen _ _ Hq) as (Hqopen & Hcap & _ & ty & Hty & Hbuf).
      assert (ty = ChannelType ch) as -> by by eapply Hinj.
      split_and!; [| |done].
      * intros ty i Hi. destruct (Hvalid _ _ Hi) as [q' Hq'].
        apply lookup_lt_is_Some. rewrite length_insert.
        by eapply lookup_lt_Some.
      * intros i q'. destruct (decide (i = handler)) as [->|Hne].
        -- rewrite list_lookup_insert_eq by by eapply lookup_lt_Some.
           intros [= <-]. cbn. rewrite length_app. cbn.
           split_and!; [done | done | lia |].
           exists (ChannelType ch). split; [done |].
           intros ch' [Hin| ->%list_elem_of_singleton]%elem_of_app; auto.
        -- rewrite list_lookup_insert_ne by done. apply Hopen.
    + injection Hstep as <-. cbn. rewrite ?Hlive. split; [done |].
      intros ch' reason message
        [Hin|[= -> -> ->]%list_elem_of_singleton]%elem_of_app; [eauto | done].
  - destruct (channelHandlers c) as [handlers|] eqn:Hlive; [|discriminate].
    injection Hstep as <-. unfold handleChannelOpens_teardown.
    rewrite Hlive. cbn. split; [|done].
    destruct Hqueues as (Hvalid & Hopen & Hinj).
    intros q' (i & Hq')%list_elem_of_lookup_1.
    destruct (teardown_closes (map_to_list handlers) (queues c)) as [_ Hcloses].
    destruct (Hcloses i q' Hq') as (q & Hq & _ & Hclosed).
    apply Hclosed.
    destruct (Hopen _ _ Hq) as (_ & _ & _ & ty & Hty & _).
    apply list_elem_of_fmap. exists (ty, i). split; [done |].
    by apply elem_of_map_to_list.
Qed.

Lemma registryOK_NewClient : registryOK NewClient.
Proof.
  unfold registryOK, NewClient. cbn. split; [split_and! |].
  - intros ty i. by rewrite lookup_empty.
  - intros i q. by rewrite lookup_nil.
  - intros type1 type2 i. by rewrite lookup_empty.
  - by intros ch reason message ?%elem_of_nil.
Qed.

(** X16.  The registry and its queues stay together, however the calls of
    [HandleChannelOpen] and the steps of the dispatcher interleave.  While
    the dispatcher runs, no queue is closed, so its sends never meet a
    closed channel; every queue belongs to one channel type and holds only
    channel-opens of that type.  When the dispatcher has ended, every
    queue that was ever handed out is closed, so no receiver is left
    waiting.  A channel-open is rejected only with the message that names
    its type. *)
Theorem registry_queues_routed_then_closed actions c :
  rrun actions NewClient = Some c →
  registryOK c
  ∧ (∀ ch c', rperform (Dispatch ch) c = Some c' →
              (∃ i q q',
                 default ∅ (channelHandlers c) !! ChannelType ch = Some i
                 ∧ queues c !! i = Some q ∧ queues c' !! i = Some q'
                 ∧ chanClosed q = false
                 ∧ chanBuf q' = chanBuf q ++ [ch]
                 ∧ rejected c' = rejected c)
              ∨ (default ∅ (channelHandlers c) !! ChannelType ch = None
                 ∧ queues c' = queues c
                 ∧ rejected c'
                   = rejected c
                     ++ [(ch, UnknownChannelType,
                          "unknown channel type: " +:+ ChannelType ch)])).
Proof.
  intros Hrun.
  assert (registryOK c) as Hc.
  { revert Hrun. generalize registryOK_NewClient. generalize NewClient.
    induction actions as [|a actions IH]; intros c0 Hc0; cbn.
    - by intros [= <-].
    - destruct (rperform a c0) as [c1|] eqn:Hstep; [|discriminate].
      apply IH. by eapply rperform_registryOK. }
  split; [done |]. intros ch c'. cbn.
  destruct (channelHandlers c) as [handlers|] eqn:Hlive; [|discriminate].
  unfold handleChannelOpens_body. rewrite Hlive. cbn.
  unfold registryOK in Hc. rewrite Hlive in Hc.
  destruct Hc as [(Hvalid & Hopen & Hinj) _].
  destruct (handlers !! ChannelType ch) as [handler|] eqn:Hhandler.
  - destruct (queues c !! handler) as [q|] eqn:Hq; [|discriminate].
    unfold chan_send. case_decide; [|discriminate].
    intros [= <-]. left. eexists handler, q, _. cbn.
    split_and!; try done.
    + apply list_lookup_insert_eq. by eapply lookup_lt_Some.
    + by destruct (Hopen _ _ Hq).
    + done.
  - intros [= <-]. right. by split_and!.
Qed.

(** *** The identification strings *)

Lemma append_String a s t : String a s +:+ t = String a (s +:+ t).
Proof. reflexivity. Qed.

Lemma append_empty t : EmptyString +:+ t = t.
Proof. reflexivity. Qed.

Lemma cut_lacks sep s : lacks sep s → cut sep s = (s, None).
Proof.
  induction s as [|a s IH]; [done |]. intros [Hne Hs]. cbn [cut].
  rewrite decide_False by done. by rewrite IH.
Qed.

Lemma cut_app sep piece rest :
  lacks sep piece → cut sep (piece +:+ String sep rest) = (piece, Some rest).
Proof.
  induction piece as [|a piece IH]; cbn [lacks].
  - intros _. rewrite append_empty. cbn [cut]. by rewrite decide_True.
  - intros [Hne Hpiece]. rewrite append_String. cbn [cut].
    rewrite decide_False by done. by rewrite IH.
Qed.

Lemma cut_inv sep s piece more :
  cut sep s = (piece, more) →
  lacks sep piece
  ∧ s = match more with
        | Some rest => piece +:+ String sep rest
        | None => piece
        end.
Proof.
  revert piece more. induction s as [|a s IH]; intros piece more; cbn [cut].
  - by intros [= <- <-].
  - destruct (decide (a = sep)) as [->|Hne].
    + by intros [= <- <-].
    + destruct (cut sep s) as [piece' more'] eqn:Hcut.
      intros [= <- <-]. destruct (IH _ _ eq_refl) as [Hlacks Hs].
      split; [done |]. rewrite Hs at 1. destruct more'; [|done].
      by rewrite append_String.
Qed.

Lemma append_assoc3 (a b c : string) : (a +:+ b) +:+ c = a +:+ b +:+ c.
Proof.
  induction a as [|x a IH]; [done |]. by rewrite !append_String, IH.
Qed.

Lemma lacks_append sep a b : lacks sep (a +:+ b) ↔ lacks sep a ∧ lacks sep b.
Proof.
  induction a as [|x a IH].
  - rewrite append_empty. cbn. tauto.
  - rewrite append_String. cbn [lacks]. tauto.
Qed.

Lemma append_empty_r (s : string) : s +:+ EmptyString = s.
Proof. induction s as [|a s IH]; [done |]. by rewrite append_String, IH. Qed.

Local Ltac join_strings :=
  repeat (rewrite append_assoc3 || rewrite append_String
          || rewrite append_empty || rewrite append_empty_r).

(** X17.  Reading an identification string never fails and never guesses.
    For every string, the block of [clientHandshake] that fills an
    [EndpointId] indexes no slice out of range and keeps the string as it
    is in [Raw]; without a space in the string there is no comment.  A
    protocol version or a software version is recorded only for a string
    that starts with SSH and a dash, and then the string is put together
    from the recorded parts: SSH, the protocol version, the software
    version when there is a second dash before the first space, and the
    comment when there is a space.  The protocol version holds no dash and
    no space, the software version no space. *)
Theorem clientHandshake_EndpointId_total version :
  ∃ id,
    clientHandshake_EndpointId version = Some id
    ∧ Raw id = version
    ∧ (lacks " "%char version → Comment id = EmptyString)
    ∧ (ProtoVersion id ≠ EmptyString ∨ SoftwareVersion id ≠ EmptyString →
       lacks "-"%char (ProtoVersion id) ∧ lacks " "%char (ProtoVersion id)
       ∧ lacks " "%char (SoftwareVersion id)
       ∧ ∃ tail,
           version = "SSH-" +:+ ProtoVersion id +:+ tail
           ∧ (tail = EmptyString
              ∨ tail = " " +:+ Comment id
              ∨ tail = "-" +:+ SoftwareVersion id
              ∨ tail = "-" +:+ SoftwareVersion id +:+ " " +:+ Comment id)).
Proof.
  unfold clientHandshake_EndpointId. cbn [SplitN].
  destruct (cut " "%char version) as [first more] eqn:Hcut1.
  apply cut_inv in Hcut1 as [Hfirst Hversion].
  assert (∀ comment,
            (lacks " "%char version → comment = EmptyString) →
            (version = first ∨ version = first +:+ " " +:+ comment) →
            ∃ id,
              (prefix ← SplitN first "-"%char 3 !! 0%nat;
               if decide (prefix = "SSH") then
                 proto ←
                   (if decide (1 < length (SplitN first "-"%char 3))%nat
                    then SplitN first "-"%char 3 !! 1%nat
                    else Some EmptyString);
                 software ←
                   (if decide (length (SplitN first "-"%char 3) = 3%nat)
                    then SplitN first "-"%char 3 !! 2%nat
                    else Some EmptyString);
                 Some {| Raw := version; ProtoVersion := proto;
                         SoftwareVersion := software; Comment := comment |}
               else
                 Some {| Raw := version; ProtoVersion := EmptyString;
                         SoftwareVersion := EmptyString; Comment := comment |})
              = Some id
              ∧ Raw id = version
              ∧ (lacks " "%char version → Comment id = EmptyString)
              ∧ (ProtoVersion id ≠ EmptyString ∨ SoftwareVersion id ≠ EmptyString →
                 lacks "-"%char (ProtoVersion id) ∧ lacks " "%char (ProtoVersion id)
                 ∧ lacks " "%char (SoftwareVersion id)
                 ∧ ∃ tail,
                     version = "SSH-" +:+ ProtoVersion id +:+ tail
                     ∧ (tail = EmptyString
                        ∨ tail = " " +:+ Comment id
                        ∨ tail = "-" +:+ SoftwareVersion id
                        ∨ tail = "-" +:+ SoftwareVersion id +:+ " " +:+ Comment id)))
    as Hgroups.
  { intros comment Hnone Hsplit. cbn [SplitN].
    destruct (cut "-"%char first) as [prefix [rest1|]] eqn:Hcut2.
    - apply cut_inv in Hcut2 as [_ ->].
      apply lacks_append in Hfirst as [_ [_ Hrest1]].
      destruct (cut "-"%char rest1) as [proto [software|]] eqn:Hcut3.
      + apply cut_inv in Hcut3 as [Hproto ->].
        apply lacks_append in Hrest1 as [Hproto' [_ Hsoftware]].
        cbn. destruct (decide (prefix = "SSH")) as [->|Hother]; cbn.
        * eexists. split_and!; [done | done | done |]. intros _.
          split_and!; [done | done | done |].
          destruct Hsplit as [->| ->].
          -- exists ("-" +:+ software). split; [|auto].
             cbn. by join_strings.
          -- exists ("-" +:+ software +:+ " " +:+ comment). split; [|auto].
             cbn. by join_strings.
        * eexists. split_and!; [done | done | done |]. by intros [?|?].
      + apply cut_inv in Hcut3 as [Hproto ->].
        cbn. destruct (decide (prefix = "SSH")) as [->|Hother]; cbn.
        * eexists. split_and!; [done | done | done |]. intros _.
          split_and!; [done | done | done |].
          destruct Hsplit as [->| ->].
          -- exists EmptyString. split; [|auto].
             cbn. by join_strings.
          -- exists (" " +:+ comment). split; [|auto].
             cbn. by join_strings.
        * eexists. split_and!; [done | done | done |]. by intros [?|?].
    - cbn. destruct (decide (prefix = "SSH")); cbn;
        (eexists; split_and!; [done | done | done |]; by intros [?|?]). }
  destruct more as [comment|]; cbn.
  - apply Hgroups.
    + intros Hlacks. rewrite Hversion in Hlacks.
      by apply lacks_append in Hlacks as [_ [? _]].
    + right. by rewrite Hversion.
  - apply Hgroups; [done | by left].
Qed.

(** X18.  An identification string of the form of RFC 4253 is taken apart
    as it was put together.  From SSH, a protocol version without dash or
    space, a software version without space and a comment, joined by a
    dash, a dash and a space, the block of [clientHandshake] recovers the
    three parts; the software version may hold dashes and the comment
    spaces.  Without the space and the comment, it recovers the two
    versions and no comment. *)
Theorem clientHandshake_EndpointId_parts proto software comment :
  lacks "-"%char proto → lacks " "%char proto → lacks " "%char software →
  clientHandshake_EndpointId
    ("SSH-" +:+ proto +:+ "-" +:+ software +:+ " " +:+ comment)
  = Some {| Raw := "SSH-" +:+ proto +:+ "-" +:+ software +:+ " " +:+ comment;
            ProtoVersion := proto; SoftwareVersion := software;
            Comment := comment |}
  ∧ clientHandshake_EndpointId ("SSH-" +:+ proto +:+ "-" +:+ software)
    = Some {| Raw := "SSH-" +:+ proto +:+ "-" +:+ software;
              ProtoVersion := proto; SoftwareVersion := software;
              Comment := EmptyString |}.
Proof.
  intros Hdash Hspace Hsoftware.
  assert (lacks " "%char ("SSH-" +:+ proto +:+ "-" +:+ software)) as Hfirst.
  { rewrite !lacks_append. cbn. by split_and!. }
  assert (cut "-"%char ("SSH-" +:+ proto +:+ "-" +:+ software)
          = ("SSH", Some (proto +:+ "-" +:+ software))) as Hprefix.
  { by apply (cut_app "-"%char "SSH"). }
  assert (cut "-"%char (proto +:+ "-" +:+ software) = (proto, Some software))
    as Hproto by by apply cut_app.
  unfold clientHandshake_EndpointId. cbn [SplitN]. split.
  - replace ("SSH-" +:+ proto +:+ "-" +:+ software +:+ " " +:+ comment)
      with (("SSH-" +:+ proto +:+ "-" +:+ software) +:+ String " " comment)
      by by join_strings.
    rewrite cut_app by done. cbn [length lookup list_lookup mbind option_bind].
    cbn. rewrite Hprefix, Hproto. cbn. by join_strings.
  - rewrite cut_lacks by done. cbn. by rewrite Hprefix, Hproto.
Qed.

(** *** The handshake transport, further *)

Section MoreTransportFacts.
Context `{Externals}.

Lemma SetDefaults_ciphers_filter l :
  SetDefaults_ciphers l = filter (λ name, is_Some (cipherModes !! name)) l.
Proof.
  induction l as [|name l IH]; [done |]. simpl.
  rewrite filter_cons, IH. by destruct (decide (is_Some (cipherModes !! name))).
Qed.

Lemma SetDefaults_ciphers_twice l :
  SetDefaults_ciphers (SetDefaults_ciphers l) = SetDefaults_ciphers l.
Proof.
  induction l as [|name l IH]; [done |]. simpl.
  destruct (decide (is_Some (cipherModes !! name))) as [Hreg|Hnot]; [|done].
  simpl. rewrite decide_True by done. by rewrite IH.
Qed.

Lemma SetDefaults_ciphers_nil l :
  SetDefaults_ciphers l = [] ↔ ∀ name, name ∈ l → cipherModes !! name = None.
Proof.
  induction l as [|name l IH]; simpl.
  - split; [intros _ x Hx; inversion Hx | done].
  - destruct (decide (is_Some (cipherModes !! name))) as [[mode Hreg]|Hnot].
    + split; [discriminate |]. intros Hnone.
      rewrite (Hnone name) in Hreg; [discriminate | left].
    + rewrite IH. split.
      * intros Hnone x [->|Hx]%elem_of_cons; [|by apply Hnone].
        destruct (cipherModes !! name); [|done]. exfalso. apply Hnot. eauto.
      * intros Hnone x Hx. apply Hnone. by right.
Qed.

Lemma appended_None {A} (l : list A) : appended l = None ↔ l = [].
Proof. by destruct l. Qed.

Lemma SetDefaults_fixpoint d kept :
  is_Some (Rand d) → is_Some (KeyExchanges d) → is_Some (MACs d) →
  256 ≤ RekeyThreshold d →
  Ciphers d = Some kept → kept ≠ [] → SetDefaults_ciphers kept = kept →
  SetDefaults d = d.
Proof.
  destruct d as [rnd threshold kexs ciphers macs log verbose g1 g2 g3 hello].
  simpl. intros [r ->] [k ->] [m ->] Hfloor -> Hne Hkept.
  unfold SetDefaults, minRekeyThreshold. simpl. rewrite Hkept.
  destruct (decide (threshold = 0)); [lia |]. rewrite decide_False by lia.
  by destruct kept.
Qed.

(** X5.  After [SetDefaults] the rekey threshold is at least 256 and the
    entropy source, the key-exchange list and the MAC list are set.  The
    cipher list is nil exactly when none of the configured ciphers (or of
    the default ones, when none were configured) is registered.  When it
    is not nil a second [SetDefaults] changes nothing; when it is nil a
    second [SetDefaults] takes it for unset and installs the registered
    default ciphers. *)
Theorem SetDefaults_twice c :
  256 ≤ RekeyThreshold (SetDefaults c)
  ∧ is_Some (Rand (SetDefaults c))
  ∧ is_Some (KeyExchanges (SetDefaults c))
  ∧ is_Some (MACs (SetDefaults c))
  ∧ (Ciphers (SetDefaults c) = None ↔
     ∀ name, name ∈ default defaultCiphers (Ciphers c) →
             cipherModes !! name = None)
  ∧ (is_Some (Ciphers (SetDefaults c)) →
     SetDefaults (SetDefaults c) = SetDefaults c)
  ∧ (Ciphers (SetDefaults c) = None →
     Ciphers (SetDefaults (SetDefaults c))
     = appended (filter (λ name, is_Some (cipherModes !! name)) defaultCiphers)).
Proof.
  assert (256 ≤ RekeyThreshold (SetDefaults c)) as Hfloor.
  { unfold SetDefaults, minRekeyThreshold. simpl. repeat case_decide; lia. }
  assert (elems (match Ciphers c with
                 | Some cs => Some cs
                 | None => Some defaultCiphers
                 end) = default defaultCiphers (Ciphers c)) as Hconfigured
    by (by destruct (Ciphers c)).
  split_and!.
  - done.
  - unfold SetDefaults. simpl. by destruct (Rand c).
  - unfold SetDefaults. simpl. by destruct (KeyExchanges c).
  - unfold SetDefaults. simpl. by destruct (MACs c).
  - unfold SetDefaults. simpl. rewrite Hconfigured.
    by rewrite appended_None, SetDefaults_ciphers_nil.
  - intros [kept Hkept].
    apply (SetDefaults_fixpoint _ kept); try done.
    + unfold SetDefaults. simpl. by destruct (Rand c).
    + unfold SetDefaults. simpl. by destruct (KeyExchanges c).
    + unfold SetDefaults. simpl. by destruct (MACs c).
    + intros ->. unfold SetDefaults in Hkept. simpl in Hkept.
      by destruct (SetDefaults_ciphers _).
    + unfold SetDefaults in Hkept. simpl in Hkept.
      destruct (SetDefaults_ciphers _) as [|name l] eqn:Hfiltered;
        [discriminate |].
      injection Hkept as <-. rewrite <- Hfiltered.
      apply SetDefaults_ciphers_twice.
  - intros Hnil. unfold SetDefaults at 1. cbn [Ciphers]. rewrite Hnil.
    cbn [elems default]. by rewrite SetDefaults_ciphers_filter.
Qed.

(** X6.  At most one KEXINIT is outstanding.  When [sendKexInitLocked]
    succeeds, the message is recorded as sent, and every further call
    returns the same message and packet and leaves the transport and the
    connection as they are.  When it fails, nothing was outstanding before
    and nothing is recorded, although the packet was handed to the
    connection. *)
Theorem sendKexInitLocked_at_most_once t isFirst :
  match sendKexInitLocked t isFirst with
  | (t1, inl (msg, packet)) =>
      sentInitMsg t1 = Some msg
      ∧ sentInitPacket t1 = packet
      ∧ (∀ again, sendKexInitLocked t1 again = (t1, inl (msg, packet)))
      ∧ (sentInitMsg t = None →
         packet = Marshal msg
         ∧ written (pconn (conn t1)) = written (pconn (conn t)) ++ [packet])
      ∧ (is_Some (sentInitMsg t) → t1 = t)
  | (t1, inr e) =>
      sentInitMsg t = None
      ∧ sentInitMsg t1 = None
      ∧ head (wscript (pconn (conn t))) = Some (Some e)
      ∧ ∃ msg, written (pconn (conn t1))
               = written (pconn (conn t)) ++ [Marshal msg]
  end.
Proof.
  unfold sendKexInitLocked at 1.
  destruct (sentInitMsg t) as [msg|] eqn:Hsent.
  - split_and!; [done | done | | done | done].
    intros again. by apply sendKexInitLocked_outstanding.
  - cbn [conn_writePacket set_entropy conn pconn wscript].
    destruct (head (wscript (pconn (conn t)))) as [[e|]|] eqn:Hscript;
      cbn.
    + split_and!; [done | done | done |]. by eexists.
    + split_and!; [done | done | done | by intros _ | by intros [? ?]].
    + split_and!; [done | done | done | by intros _ | by intros [? ?]].
Qed.

Lemma writePacket_loop_forwards t p b :
  sentInitMsg t = None → writeError t = None →
  first_byte p = Some b → b ≠ msgKexInit → b ≠ msgNewKeys →
  ∃ t',
    writePacket_loop t p
    = (t', Returned (default None (head (wscript (pconn (conn t))))))
    ∧ written (pconn (conn t')) = written (pconn (conn t)) ++ [p]
    ∧ writtenSinceKex t' = wrap64 (writtenSinceKex t + Z.of_nat (length p))
    ∧ sentInitMsg t' = None
    ∧ keepsErrors t t' ∧ keepsSession t t'
    ∧ inbox (pconn (conn t')) = inbox (pconn (conn t))
    ∧ nread (pconn (conn t')) = nread (pconn (conn t)).
Proof.
  intros Hsent Herr Hb Hkex Hnew.
  unfold writePacket_loop. rewrite Hsent, Herr, Hb.
  rewrite bool_decide_eq_false_2 by (by intros [? ?]).
  rewrite !decide_False by done. cbn [andb conn_writePacket].
  eexists. split; [done |]. by split_and!.
Qed.



(** X7.  With no KEXINIT outstanding, no write error recorded and the rekey
    threshold not passed, [writePacket] hands a packet that is neither a
    KEXINIT nor a NEWKEYS to the connection, once and unchanged, returns
    what the connection returns, and counts the bytes of the packet.  The
    errors, the session and the outstanding KEXINIT are as before, and
    nothing is read. *)
Theorem writePacket_forwards t p b :
  sentInitMsg t = None → writeError t = None →
  writtenSinceKex t ≤ RekeyThreshold (config t) →
  first_byte p = Some b → b ≠ msgKexInit → b ≠ msgNewKeys →
  ∃ t',
    writePacket t p = (t', Returned (default None (head (wscript (pconn (conn t))))))
    ∧ written (pconn (conn t')) = written (pconn (conn t)) ++ [p]
    ∧ writtenSinceKex t' = wrap64 (writtenSinceKex t + Z.of_nat (length p))
    ∧ sentInitMsg t' = None
    ∧ keepsErrors t t' ∧ keepsSession t t'
    ∧ inbox (pconn (conn t')) = inbox (pconn (conn t))
    ∧ nread (pconn (conn t')) = nread (pconn (conn t)).
Proof.
  intros Hsent Herr Hunder Hb Hkex Hnew.
  unfold writePacket. rewrite decide_False by lia.
  by eapply writePacket_loop_forwards.
Qed.


Lemma keepsWiring_refl t : keepsWiring t t.
Proof. by unfold keepsWiring. Qed.

Lemma keepsWiring_trans t1 t2 t3 :
  keepsWiring t1 t2 → keepsWiring t2 t3 → keepsWiring t1 t3.
Proof. unfold keepsWiring. intros. destruct_and!. split_and!; congruence. Qed.

Lemma sendKexInitLocked_wiring t isFirst :
  keepsWiring t (sendKexInitLocked t isFirst).1.
Proof.
  unfold sendKexInitLocked, keepsWiring.
  repeat case_match; simpl; by split_and!.
Qed.

Lemma sendKexInit_wiring t isFirst : keepsWiring t (sendKexInit t isFirst).1.
Proof.
  unfold sendKexInit. case_match; [|apply keepsWiring_refl].
  pose proof (sendKexInitLocked_wiring t isFirst).
  by destruct (sendKexInitLocked t isFirst).
Qed.

Lemma writePacket_loop_wiring t p : keepsWiring t (writePacket_loop t p).1.
Proof.
  unfold writePacket_loop, keepsWiring.
  repeat case_match; simpl; by split_and!.
Qed.

Lemma writePacket_wiring t p : keepsWiring t (writePacket t p).1.
Proof.
  unfold writePacket. case_decide; [|apply writePacket_loop_wiring].
  eapply keepsWiring_trans;
    [apply sendKexInitLocked_wiring | apply writePacket_loop_wiring].
Qed.

Lemma skipGuessedPacket_wiring t otherInit clientInit serverInit :
  keepsWiring t (skipGuessedPacket t otherInit clientInit serverInit).1.
Proof.
  unfold skipGuessedPacket, keepsWiring.
  repeat case_match; simpl; by split_and!.
Qed.

Lemma ranExchange_wiring t kex algs magics :
  keepsWiring t (ranExchange t kex algs magics).1.
Proof.
  unfold ranExchange, server, client, keepsWiring.
  repeat case_match; simpl; by split_and!.
Qed.

Lemma logged_wiring f t : keepsWiring t (set_config (logTo f (config t)) t).
Proof. by unfold keepsWiring. Qed.

Lemma installKeys_wiring t algs result : keepsWiring t (installKeys t algs result).
Proof. unfold installKeys, keepsWiring. by destruct (sessionID t). Qed.

Lemma exchangeNewKeys_wiring t : keepsWiring t (exchangeNewKeys t).1.
Proof.
  unfold exchangeNewKeys, keepsWiring.
  repeat case_match; simpl; by split_and!.
Qed.

Lemma runKeyExchange_wiring t algs magics :
  keepsWiring t (runKeyExchange t algs magics).1.
Proof.
  unfold runKeyExchange.
  destruct (kexAlgoMap !! Kex algs) as [getNew|]; [|apply keepsWiring_refl].
  cbv zeta.
  pose proof (logged_wiring (log_DHKeyExchange (Kex algs)) t) as Hlog.
  set (t1 := set_config _ t) in *.
  pose proof (ranExchange_wiring t1 (getNew (Kex algs)) algs magics) as Hran.
  destruct (ranExchange t1 _ algs magics) as [t2 r]. cbn [fst] in Hran.
  set (t3 := if Verbose (config t2) then _ else t2).
  assert (keepsWiring t2 t3) as Hverbose.
  { subst t3. destruct (Verbose (config t2));
      [apply logged_wiring | apply keepsWiring_refl]. }
  assert (keepsWiring t t3) as Hsame.
  { eauto using keepsWiring_trans. }
  destruct r as [result|e]; [|done].
  eapply keepsWiring_trans; [exact Hsame |].
  eapply keepsWiring_trans; [apply installKeys_wiring | apply exchangeNewKeys_wiring].
Qed.

Lemma enterKeyExchangeLocked_wiring t otherInitPacket :
  keepsWiring t (enterKeyExchangeLocked t otherInitPacket).1.
Proof.
  unfold enterKeyExchangeLocked.
  pose proof (sendKexInitLocked_wiring t subsequentKeyExchange) as Hsend.
  destruct (sendKexInitLocked t subsequentKeyExchange) as [t1 [[myInit myPacket]|e]];
    cbn [fst] in Hsend; [|done].
  cbv zeta.
  set (t2 := if Verbose (config t1) then _ else t1).
  assert (keepsWiring t t2) as H2.
  { subst t2. destruct (Verbose (config t1)); [|done].
    eapply keepsWiring_trans; [exact Hsend | apply logged_wiring]. }
  destruct (Unmarshal otherInitPacket) as [otherInit|e]; [|done].
  set (t3 := set_config (logTo (log_ServerKex otherInit) (config t2)) t2).
  assert (keepsWiring t t3) as H3.
  { eapply keepsWiring_trans; [exact H2 | apply logged_wiring]. }
  destruct (findAgreedAlgorithms _ _) as [algs|e]; [|done].
  set (t4 := set_config (logTo (log_AlgorithmSelection algs) (config t3)) t3).
  assert (keepsWiring t t4) as H4.
  { eapply keepsWiring_trans; [exact H3 | apply logged_wiring]. }
  match goal with
  | |- context [skipGuessedPacket t4 ?o ?c ?s] =>
      pose proof (skipGuessedPacket_wiring t4 o c s) as Hskip;
      destruct (skipGuessedPacket t4 o c s) as [t5 [e|]]
  end; cbn [fst] in Hskip.
  - eapply keepsWiring_trans; [exact H4 | exact Hskip].
  - eapply keepsWiring_trans; [exact H4 |].
    eapply keepsWiring_trans; [exact Hskip | apply runKeyExchange_wiring].
Qed.

Lemma readOnePacket_rekey_wiring t : keepsWiring t (readOnePacket_rekey t).1.
Proof.
  unfold readOnePacket_rekey, requestKeyChange.
  case_decide; [apply sendKexInit_wiring | apply keepsWiring_refl].
Qed.

Lemma readOnePacket_read_wiring t : keepsWiring t (readOnePacket_read t).1.
Proof.
  unfold readOnePacket_read, keepsWiring.
  repeat case_match; simpl; by split_and!.
Qed.

Lemma readOnePacket_kex_wiring t p : keepsWiring t (readOnePacket_kex t p).1.
Proof.
  unfold readOnePacket_kex.
  destruct (negb (HelloOnly (config t))); [|by unfold keepsWiring].
  pose proof (enterKeyExchangeLocked_wiring t (packet_bytes p)) as Henter.
  destruct (enterKeyExchangeLocked t (packet_bytes p)) as [t1 [e|]];
    unfold keepsWiring in *; simpl in *; destruct_and!; by split_and!.
Qed.

Lemma sendKexInitLocked_reading t isFirst :
  let t' := (sendKexInitLocked t isFirst).1 in
  inboxErr (pconn (conn t')) = inboxErr (pconn (conn t))
  ∧ readSinceKex t' = readSinceKex t ∧ config t' = config t
  ∧ connClosed (pconn (conn t')) = connClosed (pconn (conn t)).
Proof.
  unfold sendKexInitLocked. destruct (sentInitMsg t); [done |].
  simpl. by destruct (default None (head (wscript (pconn (conn t))))).
Qed.

Lemma readOnePacket_rekey_reading t :
  let t' := (readOnePacket_rekey t).1 in
  inboxErr (pconn (conn t')) = inboxErr (pconn (conn t))
  ∧ readSinceKex t' = readSinceKex t ∧ config t' = config t
  ∧ connClosed (pconn (conn t')) = connClosed (pconn (conn t)).
Proof.
  unfold readOnePacket_rekey, requestKeyChange, sendKexInit.
  case_decide; [|done]. simpl.
  pose proof (sendKexInitLocked_reading t subsequentKeyExchange) as Hsame.
  by destruct (sendKexInitLocked t subsequentKeyExchange).
Qed.

(** X9.  What [readOnePacket] gives the read loop.  A packet that is not a
    KEXINIT is returned as it arrived, and its length is added to the
    count of bytes read since the last key exchange.  A KEXINIT is never
    returned: after the key exchange it started, the caller gets a packet
    of one byte in its place, NEWKEYS when the session had no identifier
    yet and IGNORE otherwise, and both counters are zero and no KEXINIT is
    outstanding.  An error is the refusal of the rekey request, the read
    error of the connection, or the failure of the key exchange, which
    closes the connection and is recorded as the write error. *)
Theorem readOnePacket_hides_key_exchange t :
  msgNewKeys ≠ msgKexInit → msgIgnore ≠ msgKexInit →
  match readOnePacket t with
  | (t', inl q) =>
      q.1 ≠ msgKexInit
      ∧ ∃ p rest,
          inbox (pconn (conn t)) = p :: rest
          ∧ if decide (p.1 = msgKexInit)
            then q = (if bool_decide (sessionID t = None)
                      then (msgNewKeys, []) else (msgIgnore, []))
                 ∧ readSinceKex t' = 0 ∧ writtenSinceKex t' = 0
                 ∧ sentInitMsg t' = None ∧ sentInitPacket t' = []
            else q = p
                 ∧ inbox (pconn (conn t')) = rest
                 ∧ readSinceKex t'
                   = wrap64 (readSinceKex t + Z.of_nat (length (packet_bytes p)))
  | (t', inr e) =>
      (readOnePacket_rekey t).2 = Some e
      ∨ (inbox (pconn (conn t)) = [] ∧ e = inboxErr (pconn (conn t)))
      ∨ (∃ p rest,
           inbox (pconn (conn t)) = p :: rest ∧ p.1 = msgKexInit
           ∧ HelloOnly (config t) = false
           ∧ writeError t' = Some e
           ∧ connClosed (pconn (conn t')) = true
           ∧ writtenSinceKex t' = 0
           ∧ sentInitMsg t' = None ∧ sentInitPacket t' = [])
  end.
Proof.
  intros Hnew Hign. unfold readOnePacket.
  pose proof (readOnePacket_rekey_inbox t) as Hinbox.
  pose proof (readOnePacket_rekey_reading t) as (HinboxErr & Hcount & Hconfig & _).
  pose proof (readOnePacket_rekey_keeps t) as (_ & [Hsid _] & _).
  cbv zeta in *.
  destruct (readOnePacket_rekey t) as [t1 [e|]]; cbn [fst snd] in *;
    [by left |].
  unfold readOnePacket_read, conn_readPacket.
  rewrite Hinbox, HinboxErr.
  destruct (inbox (pconn (conn t))) as [|p rest] eqn:Hin; cbn.
  { right. by left. }
  destruct (decide (p.1 ≠ msgKexInit)) as [Hother|Hkex].
  { split; [done |]. exists p, rest. split; [done |].
    rewrite decide_False by done. cbn. by rewrite Hcount. }
  apply dec_stable in Hkex.
  unfold readOnePacket_kex. cbn. rewrite Hsid.
  destruct (HelloOnly (config t1)) eqn:Hhello; cbn.
  { split; [by destruct (bool_decide (sessionID t = None)) |].
    exists p, rest. split; [done |]. rewrite decide_True by done. by split_and!. }
  match goal with
  | |- context [enterKeyExchangeLocked ?t2 ?packet] =>
      destruct (enterKeyExchangeLocked t2 packet) as [t3 [e|]]
  end; cbn.
  - right. right. exists p, rest. split_and!; try done. congruence.
  - split; [by destruct (bool_decide (sessionID t = None)) |].
    exists p, rest. split; [done |]. rewrite decide_True by done.
    by split_and!.
Qed.

(** What a step of the read loop does to [incoming] and to the read error:
    nothing, or it queues the packet it holds, or it ends the loop. *)
Lemma reader_step_incoming s s' :
  reader_step s = Some s' →
  let t := transport s in
  let t' := transport s' in
  (incoming t' = incoming t ∧ readError t' = readError t
   ∧ ((reader s = AtLoop ∧ reader s' = AtRead)
      ∨ (reader s = AtRead ∧ (reader s' = AtLoop ∨ ∃ p, reader s' = AtKex p))
      ∨ (∃ p, reader s = AtKex p ∧ reader s' = AtLoop)
      ∨ (reader s = AtExit ∧ reader s' = Exited)
      ∨ (∃ q, reader s' = AtDeliver q ∧ q.1 ≠ msgIgnore ∧ q.1 ≠ msgDebug
              ∧ ((reader s = AtRead ∧ q.1 ≠ msgKexInit)
                 ∨ (∃ p, reader s = AtKex p ∧ q = (msgNewKeys, []))))))
  ∨ (∃ p, reader s = AtDeliver p ∧ reader s' = AtLoop
          ∧ readError t' = readError t
          ∧ chanBuf (incoming t') = chanBuf (incoming t) ++ [p]
          ∧ chanClosed (incoming t') = chanClosed (incoming t))
  ∨ (∃ e, (reader s = AtLoop ∨ reader s = AtRead ∨ ∃ p, reader s = AtKex p)
          ∧ reader s' = AtExit
          ∧ incoming t' = close_chan (incoming t) ∧ readError t' = Some e).
Proof.
  assert (∀ t0 t1 (q : byte * bytes) t2 at_,
            incoming t1 = incoming t0 → readError t1 = readError t0 →
            readLoop_next t1 (inl q) = (t2, at_) →
            incoming t2 = incoming t0 ∧ readError t2 = readError t0
            ∧ (at_ = AtLoop
               ∨ (at_ = AtDeliver q ∧ q.1 ≠ msgIgnore ∧ q.1 ≠ msgDebug)))
    as Hpass.
  { intros t0 t1 q t2 at_ Hin Herr. unfold readLoop_next.
    destruct (bool_decide (q.1 = msgIgnore)) eqn:Hign;
      destruct (bool_decide (q.1 = msgDebug)) eqn:Hdbg; cbn [orb];
      intros [= <- <-]; split_and!; auto.
    apply bool_decide_eq_false_1 in Hign, Hdbg. by right. }
  assert (∀ t0 t1 e t2 at_,
            incoming t1 = incoming t0 →
            readLoop_next t1 (inr e) = (t2, at_) →
            at_ = AtExit ∧ incoming t2 = close_chan (incoming t0)
            ∧ readError t2 = Some e) as Hend.
  { intros t0 t1 e t2 at_ Hin. unfold readLoop_next.
    intros [= <- <-]. cbn. by rewrite Hin. }
  unfold reader_step. destruct (reader s) as [| |p|p| |] eqn:Hat; cbv zeta.
  - pose proof (readOnePacket_rekey_wiring (transport s)) as [Hin _].
    pose proof (readOnePacket_rekey_keeps (transport s)) as ([_ Herr] & _).
    cbv zeta in Herr.
    destruct (readOnePacket_rekey (transport s)) as [t1 [e|]]; cbn [fst] in *.
    + destruct (readLoop_next t1 (inr e)) as [t2 at_] eqn:Hnext.
      apply (Hend (transport s)) in Hnext as (-> & Hclosed & Hrecorded);
        [|done].
      intros [= <-]. cbn [transport reader]. right. right. exists e. auto.
    + intros [= <-]. cbn [transport reader]. left. split_and!; auto.
  - pose proof (readOnePacket_read_wiring (transport s)) as [Hin _].
    pose proof (readOnePacket_read_keeps (transport s)) as ([_ Herr] & _).
    cbv zeta in Herr.
    destruct (readOnePacket_read (transport s)) as [t1 [q|e]]; cbn [fst] in *.
    + case_decide as Hkind.
      * destruct (readLoop_next t1 (inl q)) as [t2 at_] eqn:Hnext.
        apply (Hpass (transport s)) in Hnext
          as (Hin2 & Herr2 & [->|(-> & Hign & Hdbg)]); [| |done..].
        -- intros [= <-]. cbn [transport reader]. left. split_and!; auto.
        -- intros [= <-]. cbn [transport reader]. left. split_and!; auto.
           do 4 right. exists q. split_and!; auto.
      * intros [= <-]. cbn [transport reader]. left.
        split_and!; [done | done |]. right. left. eauto.
    + destruct (readLoop_next t1 (inr e)) as [t2 at_] eqn:Hnext.
      apply (Hend (transport s)) in Hnext as (-> & Hclosed & Hrecorded);
        [|done].
      intros [= <-]. cbn [transport reader]. right. right. exists e. auto.
  - pose proof (readOnePacket_kex_wiring (transport s) p) as [Hin _].
    pose proof (readOnePacket_kex_errors (transport s) p) as (Herr & _).
    cbv zeta in Herr.
    assert (∀ q, (readOnePacket_kex (transport s) p).2 = inl q →
                 q = (msgNewKeys, []) ∨ q = (msgIgnore, [])) as Hmarker.
    { intros q. unfold readOnePacket_kex.
      repeat case_match; cbn; intros; simplify_eq; auto. }
    destruct (readOnePacket_kex (transport s) p) as [t1 [q|e]]; cbn [fst snd] in *.
    + destruct (readLoop_next t1 (inl q)) as [t2 at_] eqn:Hnext.
      apply (Hpass (transport s)) in Hnext
        as (Hin2 & Herr2 & [->|(-> & Hign & Hdbg)]); [| |done..].
      * intros [= <-]. cbn [transport reader]. left.
        split_and!; [done | done |]. right. right. left. eauto.
      * intros [= <-]. cbn [transport reader]. left. split_and!; auto.
        do 4 right. exists q. split_and!; auto. right. exists p. split; [done |].
        destruct (Hmarker q eq_refl) as [->| ->]; [done | by destruct Hign].
    + destruct (readLoop_next t1 (inr e)) as [t2 at_] eqn:Hnext.
      apply (Hend (transport s)) in Hnext as (-> & Hclosed & Hrecorded);
        [|done].
      intros [= <-]. cbn [transport reader]. right. right. exists e.
      split_and!; eauto.
  - unfold chan_send. case_decide; [|discriminate].
    intros [= <-]. cbn. right. left. exists p. by split_and!.
  - intros [= <-]. cbn [transport reader]. left.
    unfold readLoop_exit. destruct (writeError (transport s)); cbn;
      (split_and!; [done | done |]); do 3 right; by left.
  - discriminate.
Qed.

(** What the other goroutines do to [incoming] and to the read error:
    nothing, except that [readPacket] takes the oldest queued packet. *)
Lemma perform_incoming a s s' :
  a ≠ ReaderStep → perform a s = Some s' →
  let t := transport s in
  let t' := transport s' in
  reader s' = reader s ∧ readError t' = readError t
  ∧ chanClosed (incoming t') = chanClosed (incoming t)
  ∧ (chanBuf (incoming t') = chanBuf (incoming t)
     ∨ (a = CallReadPacket
        ∧ ∃ p, chanBuf (incoming t) = p :: chanBuf (incoming t'))).
Proof.
  intros Hother. destruct a as [|p|i|isFirst| |]; [done | ..]; cbn [perform].
  - pose proof (writePacket_wiring (transport s) p) as [Hin _].
    pose proof (writePacket_keeps (transport s) p) as ([_ Herr] & _).
    cbv zeta in Herr.
    destruct (writePacket (transport s) p) as [t1 w]; cbn [fst] in *.
    intros [= <-]. cbn. rewrite Hin. auto.
  - destruct (writers s !! i) as [[| p | |]|]; try discriminate.
    unfold writePacket_wake.
    pose proof (writePacket_loop_wiring (transport s) p) as [Hin _].
    pose proof (writePacket_loop_keeps (transport s) p) as ([_ Herr] & _).
    cbv zeta in Herr.
    destruct (writePacket_loop (transport s) p) as [t1 w]; cbn [fst] in *.
    intros [= <-]. cbn. rewrite Hin. auto.
  - pose proof (sendKexInit_wiring (transport s) isFirst) as [Hin _].
    pose proof (sendKexInit_keeps (transport s) isFirst) as ([_ Herr] & _).
    cbv zeta in Herr.
    intros [= <-]. cbn. rewrite Hin. auto.
  - unfold readPacket, chan_recv.
    destruct (chanBuf (incoming (transport s))) as [|p rest] eqn:Hbuf.
    + destruct (chanClosed (incoming (transport s))) eqn:Hclosed;
        [|discriminate].
      intros [= <-]. cbn. rewrite Hbuf. auto.
    + intros [= <-]. cbn. split_and!; eauto.
  - intros [= <-]. cbn. auto.
Qed.

Lemma perform_deliversOnlyVisible a s s' :
  msgNewKeys ≠ msgKexInit → perform a s = Some s' →
  deliversOnlyVisible s → deliversOnlyVisible s'.
Proof.
  intros Hnew Hstep [Hqueued Hheld]. unfold deliversOnlyVisible.
  assert (a = ReaderStep ∨ a ≠ ReaderStep) as [->|Hother]
    by (destruct a; (by left) || (by right)).
  - apply reader_step_incoming in Hstep. cbv zeta in Hstep.
    destruct Hstep as [(Hin & _ & Hat)|[(p & Hat & Hat' & _ & Hbuf & _)
                                       |(e & _ & Hat' & Hin & _)]].
    + rewrite Hin. split; [done |]. intros q Hq.
      destruct Hat as [[_ Hat']|[[_ [Hat'|[p Hat']]]|[(p & _ & Hat')
                       |[[_ Hat']|(q' & Hat' & Hign & Hdbg & Hkind)]]]];
        try congruence.
      assert (q' = q) as -> by congruence.
      intros [Hkex|[?|?]]; [|done..].
      destruct Hkind as [[_ ?]|(p & _ & ->)]; [done |]. by apply Hnew.
    + rewrite Hbuf. split; [|congruence].
      intros q [Hq| ->%list_elem_of_singleton]%elem_of_app; auto.
    + rewrite Hin. cbn. split; [done | congruence].
  - apply perform_incoming in Hstep as (Hat & _ & _ & Hbuf); [|done].
    cbv zeta in *. rewrite Hat. split; [|done].
    destruct Hbuf as [->|(_ & p & Hbuf)]; [done |].
    intros q Hq. apply Hqueued. rewrite Hbuf. by apply list_elem_of_further.
Qed.

Lemma perform_closedWhenEnded a s s' :
  perform a s = Some s' → closedWhenEnded s → closedWhenEnded s'.
Proof.
  intros Hstep Hs. unfold closedWhenEnded in *.
  assert (a = ReaderStep ∨ a ≠ ReaderStep) as [->|Hother]
    by (destruct a; (by left) || (by right)).
  - apply reader_step_incoming in Hstep. cbv zeta in Hstep.
    destruct Hstep as [(Hin & Herr & Hat)|[(p & Hat & Hat' & Herr & _ & Hclosed)
                                          |(e & Hat & Hat' & Hin & Herr)]].
    + rewrite Hin, Herr.
      destruct Hat as [[Hat Hat']|[[Hat [Hat'|[p Hat']]]|[(p & Hat & Hat')
                       |[[Hat Hat']|(q' & Hat' & _ & _ & Hkind)]]]];
        rewrite ?Hat, Hat' in *; try done.
      destruct Hkind as [[Hat _]|(p & Hat & _)]; by rewrite Hat in Hs.
    + rewrite Hat, Hat', Hclosed, Herr in *. done.
    + rewrite Hat', Hin, Herr. cbn. eauto.
  - apply perform_incoming in Hstep as (Hat & Herr & Hclosed & _); [|done].
    cbv zeta in *. by rewrite Hat, Herr, Hclosed.
Qed.

(** X10.  The upper layers never see a KEXINIT, an IGNORE or a DEBUG
    packet.  When NEWKEYS and KEXINIT are different message types and
    [incoming] starts empty, then whatever the goroutines do, no such
    packet is queued in [incoming], none is held by the read loop for
    queueing, and [readPacket] returns none. *)
Theorem readLoop_delivers_only_visible t actions s :
  msgNewKeys ≠ msgKexInit → chanBuf (incoming t) = [] →
  run actions (start t) = Some s →
  deliversOnlyVisible s
  ∧ ∀ t' p, readPacket (transport s) = Some (t', inl p) → ¬ hidden p.1.
Proof.
  intros Hnew Hempty Hrun.
  assert (deliversOnlyVisible s) as Hs.
  { assert (deliversOnlyVisible (start t)) as Hstart.
    { unfold deliversOnlyVisible, start. cbn. rewrite Hempty.
      split; [by intros p ?%elem_of_nil | done]. }
    revert Hrun Hstart. generalize (start t). clear Hempty.
    induction actions as [|a actions IH]; intros s0; cbn.
    - by intros [= <-].
    - destruct (perform a s0) as [s1|] eqn:Hstep; [|discriminate].
      intros Hrun Hs0. apply (IH s1); [done |].
      by eapply perform_deliversOnlyVisible. }
  split; [done |]. intros t' p. unfold readPacket, chan_recv.
  destruct (chanBuf (incoming (transport s))) as [|q rest] eqn:Hbuf.
  - by destruct (chanClosed (incoming (transport s))).
  - intros [= _ <-]. destruct Hs as [Hqueued _]. apply Hqueued.
    rewrite Hbuf. apply list_elem_of_here.
Qed.

(** X11.  [readPacket] reports the end of the stream only after the read
    loop has ended and every packet queued before was taken, and then it
    returns the error the read loop recorded, never a nil error.  On a
    transport whose [incoming] starts open and whose read error starts
    nil, whatever the goroutines do, [incoming] is closed exactly when the
    read loop has left its loop, and the read error is set exactly then. *)
Theorem readPacket_error_after_loop_end t actions s :
  chanClosed (incoming t) = false → readError t = None →
  run actions (start t) = Some s →
  closedWhenEnded s
  ∧ ∀ t' err,
      readPacket (transport s) = Some (t', inr err) →
      (reader s = AtExit ∨ reader s = Exited)
      ∧ chanBuf (incoming (transport s)) = []
      ∧ is_Some err ∧ err = readError (transport s)
      ∧ readPacket t' = Some (t', inr err).
Proof.
  intros Hopen Hnone Hrun.
  assert (closedWhenEnded s) as Hs.
  { assert (closedWhenEnded (start t)) as Hstart.
    { by unfold closedWhenEnded, start. }
    revert Hrun Hstart. generalize (start t). clear Hopen Hnone.
    induction actions as [|a actions IH]; intros s0; cbn.
    - by intros [= <-].
    - destruct (perform a s0) as [s1|] eqn:Hstep; [|discriminate].
      intros Hrun Hs0. apply (IH s1); [done |].
      by eapply perform_closedWhenEnded. }
  split; [done |]. intros t' err. unfold readPacket at 1, chan_recv.
  destruct (chanBuf (incoming (transport s))) as [|q rest] eqn:Hbuf;
    [|discriminate].
  destruct (chanClosed (incoming (transport s))) eqn:Hclosed; [|discriminate].
  intros [= <- <-]. unfold closedWhenEnded in Hs.
  assert (set_incoming (incoming (transport s)) (transport s) = transport s)
    as Hsame by by destruct (transport s).
  rewrite Hsame. unfold readPacket, chan_recv. rewrite Hbuf, Hclosed.
  rewrite Hsame.
  destruct (reader s); destruct Hs as [Hs Herr]; try congruence;
    split_and!; auto.
Qed.

(** [enterKeyExchangeLocked] up to the key exchange proper: it fails with
    the session as it was, or it comes to [runKeyExchange] with the
    algorithms agreed between this side's KEXINIT and the peer's. *)
Lemma enterKeyExchangeLocked_runs t otherInitPacket :
  (keepsSession t (enterKeyExchangeLocked t otherInitPacket).1
   ∧ is_Some (enterKeyExchangeLocked t otherInitPacket).2)
  ∨ ∃ t5 algs myInit myInitPacket otherInit,
      keepsSession t t5 ∧ keepsRole t t5 ∧ keepsWiring t t5
      ∧ (sendKexInitLocked t subsequentKeyExchange).2 = inl (myInit, myInitPacket)
      ∧ Unmarshal otherInitPacket = inl otherInit
      ∧ findAgreedAlgorithms (clientInitOf t myInit otherInit)
          (serverInitOf t myInit otherInit) = inl algs
      ∧ enterKeyExchangeLocked t otherInitPacket
        = runKeyExchange t5 algs (magicsOf t myInitPacket otherInitPacket).
Proof.
  assert (∀ t1 t2 t3, keepsSession t1 t2 ∧ keepsRole t1 t2 ∧ keepsWiring t1 t2 →
            keepsSession t2 t3 ∧ keepsRole t2 t3 ∧ keepsWiring t2 t3 →
            keepsSession t1 t3 ∧ keepsRole t1 t3 ∧ keepsWiring t1 t3) as Htrans.
  { unfold keepsSession, keepsRole, keepsWiring. intros.
    destruct_and!. split_and!; congruence. }
  assert (∀ f t1, keepsSession t1 (set_config (logTo f (config t1)) t1)
                  ∧ keepsRole t1 (set_config (logTo f (config t1)) t1)
                  ∧ keepsWiring t1 (set_config (logTo f (config t1)) t1))
    as Hlogged.
  { intros f t1. pose proof (logged_keeps f t1) as Hlog. cbv zeta in Hlog.
    destruct Hlog as (_ & ? & ? & _). split_and!; [done | done |].
    apply logged_wiring. }
  unfold enterKeyExchangeLocked.
  pose proof (sendKexInitLocked_keeps t subsequentKeyExchange)
    as (_ & Hsession & Hrole & _).
  pose proof (sendKexInitLocked_wiring t subsequentKeyExchange) as Hwiring.
  destruct (sendKexInitLocked t subsequentKeyExchange)
    as [t1 [[myInit myPacket]|e]]; cbn [fst snd] in *; [|left; eauto].
  set (t2 := if Verbose (config t1) then _ else t1).
  assert (keepsSession t t2 ∧ keepsRole t t2 ∧ keepsWiring t t2) as H2.
  { subst t2. destruct (Verbose (config t1)); [|done].
    eapply Htrans; [|apply Hlogged]. done. }
  clearbody t2.
  destruct (Unmarshal otherInitPacket) as [otherInit|e];
    [|left; split; [apply H2 | eauto]].
  set (t3 := set_config _ t2).
  assert (keepsSession t t3 ∧ keepsRole t t3 ∧ keepsWiring t t3) as H3.
  { eapply Htrans; [exact H2 | apply Hlogged]. }
  clearbody t3. cbv zeta.
  assert (hostKeys t3 = hostKeys t ∧ clientVersion t3 = clientVersion t
          ∧ serverVersion t3 = serverVersion t) as (Hkeys & Hcv & Hsv)
    by apply H3.
  rewrite Hkeys, Hcv, Hsv.
  fold (clientInitOf t myInit otherInit) (serverInitOf t myInit otherInit).
  fold (magicsOf t myPacket otherInitPacket).
  destruct (findAgreedAlgorithms (clientInitOf t myInit otherInit)
              (serverInitOf t myInit otherInit)) as [algs|e] eqn:Hagreed;
    [|left; split; [apply H3 | eauto]].
  set (t4 := set_config _ t3).
  assert (keepsSession t t4 ∧ keepsRole t t4 ∧ keepsWiring t t4) as H4.
  { eapply Htrans; [exact H3 | apply Hlogged]. }
  clearbody t4.
  match goal with
  | |- context [skipGuessedPacket t4 ?o ?c ?s] =>
      pose proof (skipGuessedPacket_keeps t4 o c s) as (_ & Hs5 & Hr5 & _);
      pose proof (skipGuessedPacket_wiring t4 o c s) as Hw5;
      destruct (skipGuessedPacket t4 o c s) as [t5 [e|]]
  end; cbn [fst snd] in *.
  - left. split; [|eauto]. eapply Htrans; [exact H4 | done].
  - right. exists t5, algs, myInit, myPacket, otherInit.
    split_and!; try done; eapply Htrans; try exact H4; done.
Qed.

Lemma client_checked t kex algs magics t' result :
  client t kex algs magics = (t', inl result) →
  ∃ hostKey sig,
    ParsePublicKey (HostKeyBlob result) = inl hostKey
    ∧ parseSignatureBody (Signature result) = (sig, [], true)
    ∧ PublicKey_Verify hostKey (H result) sig = None
    ∧ ∀ callback, hostKeyCallback t = Some callback →
                  callback (dialAddress t) (remoteAddr t) hostKey = None.
Proof.
  unfold client.
  destruct (kex_Client kex _ _ _ _) as [c [r|e]]; [|discriminate].
  destruct (ParsePublicKey (HostKeyBlob r)) as [hostKey|e] eqn:Hparse;
    [|discriminate].
  unfold verifyHostKeySignature.
  destruct (parseSignatureBody (Signature r)) as [[sig rest] ok] eqn:Hsig.
  destruct rest as [|b rest]; [|discriminate].
  destruct ok; [|discriminate]. cbn.
  destruct (PublicKey_Verify hostKey (H r) sig) eqn:Hverify; [discriminate |].
  destruct (hostKeyCallback t) as [callback|] eqn:Hcallback.
  - destruct (callback (dialAddress t) (remoteAddr t) hostKey) eqn:Haccept;
      [discriminate |].
    intros [= _ <-]. exists hostKey, sig. rewrite Hparse, Hsig.
    split_and!; try done. by intros ? [= <-].
  - intros [= _ <-]. exists hostKey, sig. rewrite Hparse, Hsig.
    by split_and!.
Qed.

Lemma exchangeNewKeys_written t :
  written (pconn (conn (exchangeNewKeys t).1))
  = written (pconn (conn t)) ++ [[msgNewKeys]].
Proof.
  unfold exchangeNewKeys, conn_writePacket, conn_readPacket. cbn.
  repeat case_match; by simplify_eq.
Qed.

Lemma runKeyExchange_installs t algs magics :
  let t' := (runKeyExchange t algs magics).1 in
  (keepsSession t t' ∧ is_Some (runKeyExchange t algs magics).2)
  ∨ ∃ result,
      keyChanges (conn t')
      = keyChanges (conn t)
        ++ [(algs, kexResult_set_SessionID (sessionID t') result)]
      ∧ sessionID t' = match sessionID t with
                       | None => H result
                       | Some sid => Some sid
                       end
      ∧ last (written (pconn (conn t'))) = Some [msgNewKeys]
      ∧ (hostKeys t = [] →
         ∃ hostKey sig,
           ParsePublicKey (HostKeyBlob result) = inl hostKey
           ∧ parseSignatureBody (Signature result) = (sig, [], true)
           ∧ PublicKey_Verify hostKey (H result) sig = None
           ∧ ∀ callback, hostKeyCallback t = Some callback →
                         callback (dialAddress t) (remoteAddr t) hostKey = None).
Proof.
  unfold runKeyExchange.
  destruct (kexAlgoMap !! Kex algs) as [getNew|];
    [|left; split; [done | eauto]].
  cbv zeta.
  pose proof (logged_keeps (log_DHKeyExchange (Kex algs)) t)
    as (_ & Hs1 & Hr1 & _).
  pose proof (logged_wiring (log_DHKeyExchange (Kex algs)) t) as Hw1.
  set (t1 := set_config _ t) in *.
  pose proof (ranExchange_keeps t1 (getNew (Kex algs)) algs magics)
    as (_ & Hs2 & _).
  pose proof (ranExchange_wiring t1 (getNew (Kex algs)) algs magics) as Hw2.
  destruct (ranExchange t1 _ algs magics) as [t2 r] eqn:Hran.
  cbn [fst snd] in *.
  set (t3 := if Verbose (config t2) then _ else t2).
  assert (keepsSession t2 t3) as Hs3.
  { subst t3. destruct (Verbose (config t2)); [|done].
    match goal with
    | |- context [logTo ?f _] => by pose proof (logged_keeps f t2) as (_ & ? & _)
    end. }
  assert (keepsSession t t3) as Hsame.
  { unfold keepsSession in *. destruct_and!. split; congruence. }
  clearbody t3.
  destruct r as [result|e]; [|left; split; [done | eauto]].
  right. exists result.
  pose proof (exchangeNewKeys_keeps (installKeys t3 algs result))
    as (_ & [Hsid Hchanges] & _).
  cbv zeta in *. rewrite Hchanges, Hsid, installKeys_keyChanges.
  destruct Hsame as [Hsid3 Hchanges3]. rewrite Hchanges3.
  split_and!.
  - done.
  - unfold installKeys. rewrite Hsid3. by destruct (sessionID t).
  - rewrite exchangeNewKeys_written. apply last_snoc.
  - intros Hclient. unfold ranExchange in Hran.
    assert (hostKeys t1 = hostKeys t) as Hkeys by apply Hr1.
    rewrite Hkeys, Hclient in Hran. cbn in Hran.
    apply client_checked in Hran as (hostKey & sig & ? & ? & ? & Hcallback).
    exists hostKey, sig. by split_and!.
Qed.

(** X12.  Keys come only from a checked key exchange.
    [enterKeyExchangeLocked] either leaves the session identifier and the
    key changes as they were and returns an error, or it has handed exactly
    one more key change to the connection, for the algorithms agreed
    between this side's KEXINIT and the peer's, has written NEWKEYS as its
    last packet, and the session identifier is the one there was or, on the
    first exchange, the exchange hash.  On a client, such a key change is
    made only when the host key of the result parsed, the signature parsed
    with nothing left over and verified against the exchange hash, and the
    host-key callback, when there is one, accepted the key for the dial
    address and the remote address. *)
Theorem enterKeyExchangeLocked_installs_checked_keys t otherInitPacket :
  let t' := (enterKeyExchangeLocked t otherInitPacket).1 in
  (keepsSession t t' ∧ is_Some (enterKeyExchangeLocked t otherInitPacket).2)
  ∨ ∃ myInit myInitPacket otherInit algs result,
      (sendKexInitLocked t subsequentKeyExchange).2 = inl (myInit, myInitPacket)
      ∧ Unmarshal otherInitPacket = inl otherInit
      ∧ findAgreedAlgorithms (clientInitOf t myInit otherInit)
          (serverInitOf t myInit otherInit) = inl algs
      ∧ keyChanges (conn t')
        = keyChanges (conn t)
          ++ [(algs, kexResult_set_SessionID (sessionID t') result)]
      ∧ sessionID t' = match sessionID t with
                       | None => H result
                       | Some sid => Some sid
                       end
      ∧ last (written (pconn (conn t'))) = Some [msgNewKeys]
      ∧ (hostKeys t = [] →
         ∃ hostKey sig,
           ParsePublicKey (HostKeyBlob result) = inl hostKey
           ∧ parseSignatureBody (Signature result) = (sig, [], true)
           ∧ PublicKey_Verify hostKey (H result) sig = None
           ∧ ∀ callback, hostKeyCallback t = Some callback →
                         callback (dialAddress t) (remoteAddr t) hostKey = None).
Proof.
  cbv zeta.
  destruct (enterKeyExchangeLocked_runs t otherInitPacket)
    as [?|(t5 & algs & myInit & myPacket & otherInit & [Hsid Hchanges]
           & (Hkeys & _) & Hwiring & Hsent & Hparsed & Hagreed & ->)];
    [by left |].
  destruct (runKeyExchange_installs t5 algs (magicsOf t myPacket otherInitPacket))
    as [[Hkept Herr]|(result & Hinstalled & Hsession & Hlast & Hchecked)];
    cbv zeta in *.
  - left. split; [|done]. unfold keepsSession in *.
    destruct_and!. split; congruence.
  - right. exists myInit, myPacket, otherInit, algs, result.
    rewrite <- Hchanges, <- Hsid. split_and!; try done.
    rewrite <- Hkeys. intros Hclient.
    destruct (Hchecked Hclient) as (hostKey & sig & ? & ? & ? & Hcallback).
    exists hostKey, sig. split_and!; try done.
    destruct Hwiring as (_ & <- & <- & <- & _). exact Hcallback.
Qed.

Lemma server_hostKey_last (name : string) (keys : list Signer) acc :
  fold_left
    (λ found k,
       if decide (name = keyType (signerPublicKey k)) then Some k else found)
    keys acc
  = match last (filter (λ k, name = keyType (signerPublicKey k)) keys) with
    | Some k => Some k
    | None => acc
    end.
Proof.
  revert acc. induction keys as [|k keys IH]; intros acc; [done |].
  cbn [fold_left]. rewrite IH, filter_cons.
  destruct (decide (name = keyType (signerPublicKey k))); [|done].
  destruct (filter _ keys) as [|k' rest] eqn:Hrest; [done |].
  change (last (k :: k' :: rest)) with (last (k' :: rest)).
  destruct (last (k' :: rest)) eqn:Hlast; [done |].
  by apply last_None in Hlast.
Qed.

Lemma findAgreedAlgorithms_hostKey c s algs :
  findAgreedAlgorithms c s = inl algs → HostKey algs ∈ ServerHostKeyAlgos s.
Proof.
  intros Hagreed.
  pose proof (findAgreedAlgorithms_lookups c s) as Hlookups.
  rewrite Hagreed in Hlookups.
  destruct (firstFailure categories c s); [discriminate |].
  destruct Hlookups as (algs' & [= <-] & _ & (_ & _ & _ & Hin & _) & _).
  exact Hin.
Qed.

(** X13.  The server signs with a host key of the agreed type.  [server]
    hands to the key exchange the last of the transport's host keys whose
    type is the agreed host-key algorithm, and nil exactly when no host key
    has that type.  That does not happen on a server that built its own
    KEXINIT: the host-key algorithms it offered are the types of its host
    keys, so whatever the client offered, the agreed algorithm is the type
    of one of them. *)
Theorem server_signs_with_key_of_agreed_type t kex algs magics :
  let ofType :=
    filter (λ k, HostKey algs = keyType (signerPublicKey k)) (hostKeys t) in
  (server t kex algs magics
   = let '(c, r) :=
       kex_Server kex (pconn (conn t)) (Rand (config t)) magics (last ofType)
         (config t) in
     (set_conn (with_pconn c (conn t)) t, r))
  ∧ (∀ k, last ofType = Some k →
          k ∈ hostKeys t ∧ keyType (signerPublicKey k) = HostKey algs)
  ∧ (last ofType = None
     ↔ HostKey algs ∉ map (λ k, keyType (signerPublicKey k)) (hostKeys t))
  ∧ ∀ isFirst t1 myInit packet clientInit,
      sentInitMsg t = None → hostKeys t ≠ [] →
      sendKexInitLocked t isFirst = (t1, inl (myInit, packet)) →
      findAgreedAlgorithms clientInit myInit = inl algs →
      is_Some (last ofType).
Proof.
  cbv zeta. unfold server. rewrite server_hostKey_last.
  set (ofType := filter _ (hostKeys t)).
  assert (last ofType = None
          ↔ HostKey algs ∉ map (λ k, keyType (signerPublicKey k)) (hostKeys t))
    as Hnone.
  { rewrite last_None. split.
    - intros Hnil (k & Htype & Hk)%list_elem_of_fmap.
      assert (k ∈ ofType) as Hin by by apply list_elem_of_filter.
      rewrite Hnil in Hin. by apply elem_of_nil in Hin.
    - intros Hnotin. destruct ofType as [|k rest] eqn:Hof; [done |].
      assert (k ∈ ofType) as [Htype Hk]%list_elem_of_filter
        by (rewrite Hof; apply list_elem_of_here).
      destruct Hnotin. apply list_elem_of_fmap. by exists k. }
  split_and!.
  - by destruct (last ofType).
  - intros k Hlast.
    assert (k ∈ ofType) as [Htype Hk]%list_elem_of_filter.
    { apply last_Some in Hlast as [before ->].
      apply elem_of_app. right. apply list_elem_of_here. }
    done.
  - exact Hnone.
  - intros isFirst t1 myInit packet clientInit Hsent Hkeys Hsend Hagreed.
    apply findAgreedAlgorithms_hostKey in Hagreed.
    unfold sendKexInitLocked in Hsend. rewrite Hsent in Hsend.
    cbn [conn_writePacket] in Hsend.
    assert (ServerHostKeyAlgos myInit
            = map (λ k, keyType (signerPublicKey k)) (hostKeys t)) as Hoffered.
    { destruct (default None (head (wscript (pconn (conn _)))));
        [discriminate |].
      injection Hsend as _ <- _. cbn.
      rewrite decide_True; [done |]. destruct (hostKeys t); [done | cbn; lia]. }
    rewrite Hoffered in Hagreed.
    destruct (last ofType) eqn:Hlast; [done |].
    by destruct (proj1 Hnone eq_refl).
Qed.

End MoreTransportFacts.

(** ** Part IV: the theorems at work *)

#[local] Existing Instance Sample.ext.

Lemma Sample_hashesPresent : hashesPresent.
Proof.
  intros name getNew name' c rnd magics cfg c' r Hreg.
  assert (getNew = λ _, Sample.kex) as ->.
  { simpl in Hreg.
    apply lookup_insert_Some in Hreg as [[_ <-]|[_ Hreg]]; [done |].
    by apply lookup_singleton_Some in Hreg as [_ <-]. }
  split.
  - simpl. by intros [= _ <-].
  - simpl. by intros key [= _ <-].
Qed.

Lemma Sample_fresh packets : fresh (Sample.clientOn packets).
Proof. by repeat split. Qed.

Lemma Sample_afterRekey_reachable : reachable Sample.afterRekey.
Proof.
  exists (Sample.clientOn Sample.twoExchanges), Sample.schedule.
  split; [apply Sample_fresh | by vm_compute].
Qed.


(** C1 at work: the client's order decides, whatever the server's. *)
Lemma findCommon_earliest_in_client_order_example :
  findCommon "cipher" ["a"; "b"; "c"] ["c"; "b"] = inl "b"
  ∧ findCommon "cipher" ["a"; "b"; "c"] ["b"; "c"] = inl "b".
Proof.
  destruct (findCommon_earliest_in_client_order "cipher" ["a"; "b"; "c"] ["c"; "b"])
    as (c & _ & Hfound & Hperm).
  - exists "b". split; apply (bool_decide_unpack _); by vm_compute.
  - assert (c = "b") as -> by (vm_compute in Hfound; congruence).
    split; [exact Hfound |]. apply Hperm. apply Permutation_swap.
Defined.

(** C2 at work: after the first exchange and a rekey whose exchange hash is
    another one, the session identifier is still the first hash, and both
    key changes carry it. *)
Lemma sessionID_fixed_by_first_exchange_example :
  sessionID (transport Sample.afterRekey) = Some [x01]
  ∧ (H <$> (snd <$> keyChanges (conn (transport Sample.afterRekey))))
    = [Some [x01]; Some [x04]]
  ∧ ∀ change, change ∈ keyChanges (conn (transport Sample.afterRekey)) →
              SessionID change.2 = Some [x01].
Proof.
  destruct (sessionID_fixed_by_first_exchange Sample.afterRekey
              Sample_hashesPresent Sample_afterRekey_reachable) as [_ Hstays].
  destruct (Hstays [x01] [] Sample.afterRekey) as (Hsid & _ & Hall);
    [by vm_compute | done |].
  split_and!; [exact Hsid | by vm_compute | exact Hall].
Defined.


(** C4 at work: a caller's NEWKEYS is refused and nothing is written. *)
Lemma writePacket_refuses_kexinit_and_newkeys_example :
  ∃ t' e,
    writePacket (Sample.clientOn []) [x15] = (t', Returned (Some e))
    ∧ written (pconn (conn t')) = [].
Proof.
  destruct (writePacket_refuses_kexinit_and_newkeys (Sample.clientOn []) [x15] x15)
    as ((t' & w & Hwrite & Hconn & _ & Hreturns) & _ & _);
    [done | by right |].
  destruct Hreturns as [e ->].
  - intros [[msg Hsent] _]. vm_compute in Hsent. discriminate.
  - exists t', e. split; [exact Hwrite |]. rewrite Hconn. by vm_compute.
Defined.

(** C5 at work: a request for more than the credit gets the credit; with
    no credit the caller waits, and after [add 4] it is granted four. *)
Lemma window_reserve_grant_example :
  window_reserve {| win := 5; writeWaiters := 0; closed := false |} 8
  = ({| win := 0; writeWaiters := 0; closed := false |}, Granted 5 None)
  ∧ window_reserve_wake {| win := 0; writeWaiters := 1; closed := false |} 8
    = ({| win := 0; writeWaiters := 1; closed := false |}, Waiting)
  ∧ (window_reserve_wake
       (window_add {| win := 0; writeWaiters := 1; closed := false |} 4).1 8).2
    = Granted 4 None.
Proof.
  split.
  - destruct (window_reserve_grant
                {| win := 5; writeWaiters := 0; closed := false |} 8)
      as (Hcredit & _); [by vm_compute | by vm_compute |].
    destruct Hcredit as (w' & -> & Hwin & Hclosed & Hwaiters); [done |].
    destruct w'. simpl in *. by subst.
  - destruct (window_reserve_grant
                {| win := 0; writeWaiters := 1; closed := false |} 8)
      as (_ & Hwaits & _); [by vm_compute | by vm_compute |].
    destruct Hwaits as (_ & Hagain & Hadd & _); [done | done |].
    split; [exact Hagain |].
    destruct (Hadd 4) as (w2 & w3 & -> & Hwake & _); [by vm_compute | done |].
    simpl. by rewrite Hwake.
Defined.

(** C6 at work: one more than the largest credit is refused. *)
Lemma window_add_credit_example :
  window_add {| win := uint32_max; writeWaiters := 0; closed := false |} 1
  = ({| win := uint32_max; writeWaiters := 0; closed := false |}, false).
Proof.
  destruct (window_add_credit
              {| win := uint32_max; writeWaiters := 0; closed := false |} 1)
    as (_ & Hover & _); [by vm_compute | by vm_compute |].
  by apply Hover.
Defined.

(** C9 at work: the registration that [NewClient] makes for forwarded
    connections succeeds once. *)
Lemma HandleChannelOpen_once_per_type_example :
  (HandleChannelOpen NewClient "forwarded-tcpip").2 = Some 0%nat
  ∧ (HandleChannelOpen (HandleChannelOpen NewClient "forwarded-tcpip").1
       "forwarded-tcpip").2 = None.
Proof.
  destruct (HandleChannelOpen_once_per_type NewClient "forwarded-tcpip")
    as (Hfirst & _).
  destruct (Hfirst ∅) as (c1 & ch & Hopen & Hfresh & _ & _ & _ & _ & Hsecond);
    [done | done |].
  rewrite Hopen. simpl. rewrite Hsecond. split; [|done].
  f_equal. simpl in Hfresh. by destruct ch.
Defined.

(** C10 at work: a configured cipher that the package does not have is not
    offered. *)
Lemma SetDefaults_offers_registered_ciphers_only_example :
  Ciphers Sample.config0 = Some ["chacha20-poly1305@openssh.com"; "aes128-ctr"]
  ∧ elems (Ciphers (SetDefaults Sample.config0)) = ["aes128-ctr"]
  ∧ (CiphersClientServer
       <$> sentInitMsg (sendKexInitLocked (Sample.clientOn []) firstKeyExchange).1)
    = Some ["aes128-ctr"].
Proof.
  destruct (SetDefaults_offers_registered_ciphers_only Sample.config0
              (Sample.clientOn []) firstKeyExchange) as (Hkept & _ & Hsent);
    [done | done |].
  split_and!; [done | rewrite Hkept; by vm_compute | by vm_compute].
Defined.

(** C7, as the specification words it, does not hold.  The client offers
    its default key-exchange algorithms; the peer offers only the second of
    them, says that the first packet of that exchange follows, and sends
    it.  The agreed algorithms are the ones the peer guessed, and still the
    packet is read and dropped, because the client lists another algorithm
    first: the exchange ends well with both packets of the peer used up. *)
Lemma guess_dropped_although_it_is_the_agreed_one :
  let t := Sample.clientOn Sample.guessedExchange in
  let sent := sendKexInitLocked t subsequentKeyExchange in
  let algs :=
    {| Kex := "ecdh-sha2-nistp256"; HostKey := "ssh-rsa";
       W := {| Cipher := "aes128-ctr"; MAC := "hmac-sha1"; Compression := "none" |};
       R := {| Cipher := "aes128-ctr"; MAC := "hmac-sha1"; Compression := "none" |} |} in
  Unmarshal [x14; x01] = inl Sample.peerGuessing
  ∧ FirstKexFollows Sample.peerGuessing = true
  ∧ guessMatchesAgreed Sample.peerGuessing algs
  ∧ (∃ myInit myInitPacket,
       sent.2 = inl (myInit, myInitPacket)
       ∧ findAgreedAlgorithms (clientInitOf t myInit Sample.peerGuessing)
           (serverInitOf t myInit Sample.peerGuessing) = inl algs
       ∧ preferencesDiffer (clientInitOf t myInit Sample.peerGuessing)
           (serverInitOf t myInit Sample.peerGuessing)
       ∧ nread (pconn (conn (skipGuessedPacket sent.1 Sample.peerGuessing
                               (clientInitOf t myInit Sample.peerGuessing)
                               (serverInitOf t myInit Sample.peerGuessing)).1))
         = S (nread (pconn (conn sent.1))))
  ∧ (enterKeyExchangeLocked t [x14; x01]).2 = None
  ∧ nread (pconn (conn (enterKeyExchangeLocked t [x14; x01]).1)) = 2%nat
  ∧ inbox (pconn (conn (enterKeyExchangeLocked t [x14; x01]).1)) = [].
Proof.
  cbv zeta. split_and!; try (by vm_compute).
  eexists _, _. split_and!; [by vm_compute | by vm_compute | | by vm_compute].
  left. by vm_compute.
Qed.

(** X2 at work: two algorithm names of the same length. *)
Lemma appendString_unambiguous_example :
  length (appendString [x32] "ssh-rsa") = 12%nat
  ∧ ∀ rest1 rest2,
      appendString [x32] "ssh-rsa" ++ rest1 = appendString [x32] "ssh-dss" ++ rest2 →
      "ssh-rsa" = "ssh-dss" ∧ rest1 = rest2.
Proof.
  apply (appendString_unambiguous [x32] "ssh-rsa" "ssh-dss"); by vm_compute.
Defined.

(** X4 at work: the server prefers another name everywhere; the client's
    first choice wins everywhere. *)
Lemma findAgreedAlgorithms_client_first_choices_example :
  ∃ algs,
    findAgreedAlgorithms (offering (λ _, ["x"; "y"])) (offering (λ _, ["y"; "x"]))
    = inl algs
    ∧ Kex algs = "x" ∧ HostKey algs = "x" ∧ W algs = R algs.
Proof.
  destruct (findAgreedAlgorithms_client_first_choices
              (offering (λ _, ["x"; "y"])) (offering (λ _, ["y"; "x"])))
    as (algs & Hagreed & Hkex & Hhost & Hcw & Hcr & Hmw & Hmr & Hzw & Hzr).
  - intros cat Hcat. exists "x".
    unfold categories in Hcat.
    repeat (apply elem_of_cons in Hcat as [->|Hcat]);
      try (split; [reflexivity | apply (bool_decide_unpack _); by vm_compute]).
    by apply elem_of_nil in Hcat.
  - exists algs. cbn in Hkex, Hhost, Hcw, Hcr, Hmw, Hmr, Hzw, Hzr.
    split_and!; [done | congruence | congruence |].
    destruct (W algs), (R algs). cbn in *. congruence.
Defined.

(** X7 at work: a data packet on a fresh client transport. *)
Lemma writePacket_forwards_example :
  ∃ t',
    writePacket (Sample.clientOn []) [x5e; x01] = (t', Returned None)
    ∧ written (pconn (conn t')) = [[x5e; x01]]
    ∧ writtenSinceKex t' = 2.
Proof.
  destruct (writePacket_forwards (Sample.clientOn []) [x5e; x01] x5e)
    as (t' & Hwrite & Hwritten & Hcount & _);
    [done | done | by vm_compute | done | done | done |].
  exists t'. split_and!; [exact Hwrite | exact Hwritten | exact Hcount].
Defined.


(** X9 at work: the peer's first KEXINIT is answered by the key exchange,
    and the caller gets NEWKEYS in its place. *)
Lemma readOnePacket_hides_key_exchange_example :
  ∃ t',
    readOnePacket (Sample.clientOn Sample.twoExchanges) = (t', inl (x15, []))
    ∧ readSinceKex t' = 0 ∧ writtenSinceKex t' = 0 ∧ sentInitMsg t' = None.
Proof.
  pose proof (readOnePacket_hides_key_exchange
                (Sample.clientOn Sample.twoExchanges)) as Hread.
  destruct (readOnePacket (Sample.clientOn Sample.twoExchanges))
    as [t' r] eqn:Hresult.
  assert (r = inl (x15, [])) as ->.
  { apply (f_equal snd) in Hresult. vm_compute in Hresult. congruence. }
  destruct Hread as (_ & p & rest & Hinbox & Hkind); [done | done |].
  assert (p = (x14, [x00])) as -> by (vm_compute in Hinbox; congruence).
  rewrite decide_True in Hkind by done.
  destruct Hkind as (_ & ? & ? & ? & _). exists t'.
  split_and!; [reflexivity | assumption..].
Defined.

(** X10 at work: after two key exchanges and a data packet nothing hidden
    is queued. *)
Lemma readLoop_delivers_only_visible_example :
  deliversOnlyVisible Sample.afterRekey.
Proof.
  destruct (readLoop_delivers_only_visible
              (Sample.clientOn Sample.twoExchanges) Sample.schedule
              Sample.afterRekey) as [Hvisible _];
    [done | done | by vm_compute | exact Hvisible].
Defined.

(** X11 at work: after the peer hung up, [readPacket] returns the error the
    read loop ended with. *)
Lemma readPacket_error_after_loop_end_example :
  closedWhenEnded Sample.afterHangup
  ∧ (snd <$> readPacket (transport Sample.afterHangup)) = Some (inr (Some EOF)).
Proof.
  destruct (readPacket_error_after_loop_end
              (Sample.clientOn Sample.twoExchanges) Sample.hangup
              Sample.afterHangup) as [Hclosed _];
    [done | done | by vm_compute |].
  split; [exact Hclosed | by vm_compute].
Defined.

(** X14 at work: a caller finds no credit and sleeps; [add 4] wakes it and
    it leaves with four. *)
Lemma window_no_lost_wakeup_example :
  let s := {| wwindow := {| win := 0; writeWaiters := 0; closed := false |};
              reservers := [Got 4 None] |} in
  wrun [WReserve 8; WAdd 4; WResume 0] (wstart 0) = Some s
  ∧ writeWaiters (wwindow s) = inside (reservers s)
  ∧ window_waitWriterBlocked (wwindow s) = false.
Proof.
  cbv zeta. split; [by vm_compute |].
  destruct (window_no_lost_wakeup 0 [WReserve 8; WAdd 4; WResume 0]
              {| wwindow := {| win := 0; writeWaiters := 0; closed := false |};
                 reservers := [Got 4 None] |}) as (_ & Hcount & _).
  - by vm_compute.
  - apply Forall_cons; split; [by vm_compute |].
    apply Forall_cons; split; [by vm_compute |].
    apply Forall_cons; split; [by vm_compute | done].
  - by vm_compute.
  - split; [exact Hcount | reflexivity].
Defined.

(** X15 at work: of the nine put in, five are granted and four are left;
    the second [add] would overflow and puts in nothing. *)
Lemma window_credit_conserved_example :
  let actions := [WAdd 9; WReserve 5; WAdd uint32_max] in
  let s := {| wwindow := {| win := 4; writeWaiters := 0; closed := false |};
              reservers := [Got 5 None] |} in
  wrun actions (wstart 0) = Some s
  ∧ addedTotal actions (wstart 0) = 9
  ∧ win (wwindow s) + grantedTotal (reservers s)
    = 0 + addedTotal actions (wstart 0).
Proof.
  cbv zeta. split; [by vm_compute |]. split; [by vm_compute |].
  destruct (window_credit_conserved 0 [WAdd 9; WReserve 5; WAdd uint32_max]
              {| wwindow := {| win := 4; writeWaiters := 0; closed := false |};
                 reservers := [Got 5 None] |}) as (Hsum & _).
  - by vm_compute.
  - apply Forall_cons; split; [by vm_compute |].
    apply Forall_cons; split; [by vm_compute |].
    apply Forall_cons; split; [by vm_compute | done].
  - by vm_compute.
  - exact Hsum.
Defined.

(** X16 at work: one handler, one channel-open for it, one for nobody, and
    the end of the connection. *)
Lemma registry_queues_routed_then_closed_example :
  let actions :=
    [CallHandleChannelOpen "forwarded-tcpip";
     Dispatch {| ChannelType := "forwarded-tcpip"; channelSerial := 1 |};
     Dispatch {| ChannelType := "x11"; channelSerial := 2 |};
     InClosed] in
  let c := default NewClient (rrun actions NewClient) in
  rrun actions NewClient = Some c
  ∧ registryOK c
  ∧ (chanClosed <$> queues c) = [true]
  ∧ rejected c
    = [({| ChannelType := "x11"; channelSerial := 2 |}, UnknownChannelType,
        "unknown channel type: x11")].
Proof.
  cbv zeta.
  assert (rrun
            [CallHandleChannelOpen "forwarded-tcpip";
             Dispatch {| ChannelType := "forwarded-tcpip"; channelSerial := 1 |};
             Dispatch {| ChannelType := "x11"; channelSerial := 2 |};
             InClosed] NewClient
          = Some (default NewClient
                    (rrun
                       [CallHandleChannelOpen "forwarded-tcpip";
                        Dispatch {| ChannelType := "forwarded-tcpip";
                                    channelSerial := 1 |};
                        Dispatch {| ChannelType := "x11"; channelSerial := 2 |};
                        InClosed] NewClient))) as Hrun by by vm_compute.
  destruct (registry_queues_routed_then_closed _ _ Hrun) as [Hok _].
  split_and!; [exact Hrun | exact Hok | by vm_compute | by vm_compute].
Defined.

(** X18 at work: an identification string with dashes in the software
    version and in the comment. *)
Lemma clientHandshake_EndpointId_parts_example :
  clientHandshake_EndpointId "SSH-2.0-OpenSSH_7.4-hpn Debian-10 x"
  = Some {| Raw := "SSH-2.0-OpenSSH_7.4-hpn Debian-10 x";
            ProtoVersion := "2.0"; SoftwareVersion := "OpenSSH_7.4-hpn";
            Comment := "Debian-10 x" |}.
Proof.
  destruct (clientHandshake_EndpointId_parts "2.0" "OpenSSH_7.4-hpn" "Debian-10 x")
    as [Hparts _]; [by vm_compute.. |].
  exact Hparts.
Defined.
